(** * plugantic: variant resolution, combinators and schema compilation

    A shallow embedding of [src/plugantic/plugin.py].  Python classes are
    entries of a class table; a class is named by its position in the table,
    so a class always has a larger index than its bases.  Class attributes
    are looked up along the method resolution order, as Python does. *)

From stdpp Require Import base option numbers list gmap sets strings.
From Stdlib Require Import Lia.

Open Scope string_scope.
Open Scope list_scope.
Open Scope nat_scope.

(** ** Python values and results *)

Inductive pyval :=
| VBool (b : bool)
| VInt (z : Z)
| VStr (s : string).

#[global] Instance pyval_eq_dec : EqDecision pyval.
Proof. solve_decision. Defined.

Inductive pyexn :=
| ValueError (msg : string)
| TypeError (msg : string).

Inductive pyresult (A : Type) :=
| Return (a : A)
| Raise (e : pyexn).
Arguments Return {A} a.
Arguments Raise {A} e.

(** Truth value of a [str]: only the empty string is false. *)
Definition str_truthy (s : string) : bool := negb (String.eqb s "").

(** Truth value of a [str|None]. *)
Definition truthy (o : option string) : bool :=
  match o with
  | Some s => str_truthy s
  | None => false
  end.

(** [a or b] on [str|None] operands. *)
Definition py_or (a b : option string) : option string :=
  if truthy a then a else b.

(** ** Classes *)

(** A class is named by its index in the class table. *)
Abbreviation cls := nat (only parsing).

(** The type hints the code inspects: [Literal[arg0, args...]] or anything
    else.  [Literal] carries at least one argument (PEP 586), and the
    arguments are the [str] values that [_get_declared_type] is typed to
    return. *)
Inductive annotation :=
| Literal (arg0 : string) (args : list string)
| OtherType (repr : string).

#[global] Instance annotation_eq_dec : EqDecision annotation.
Proof. solve_decision. Defined.

(** [typing.get_origin(a) is Literal] and [typing.get_args(a)]. *)
Definition origin_is_Literal (a : annotation) : bool :=
  match a with
  | Literal _ _ => true
  | OtherType _ => false
  end.

Definition get_args (a : annotation) : list string :=
  match a with
  | Literal a0 l => a0 :: l
  | OtherType _ => []
  end.

(** [PluganticConfig]: a [TypedDict] read only through [.get(key, None)],
    so an absent key and a key bound to [None] are the same here. *)
Record PluganticConfig := {
  cfg_varname_type : option string;
  cfg_value : option string
}.

(** A dict is true when it has a key. *)
Definition config_truthy (c : PluganticConfig) : bool :=
  match cfg_varname_type c, cfg_value c with
  | None, None => false
  | _, _ => true
  end.

(** pydantic's [FieldInfo], seen through the attributes that were set
    explicitly ([default], [description], [gt], ...). *)
Abbreviation FieldInfo := (gmap string pyval) (only parsing).

(** [Field(default=value)]. *)
Definition Field (value : pyval) : FieldInfo := {[ "default" := value ]}.

(** [FieldInfo.merge_field_infos(a, b)]: the explicitly set attributes of
    both, a later field info overriding an earlier one. *)
Definition merge_field_infos (a b : FieldInfo) : FieldInfo := b ∪ a.

(** What a class attribute that stands for a field can hold. *)
Inductive attr :=
| AttrValue (v : pyval)
| AttrFieldInfo (fi : FieldInfo).

#[global] Instance attr_eq_dec : EqDecision attr.
Proof. solve_decision. Defined.

(** The part of a class object the module reads and writes.  The [_own]
    fields are the entries of the class's own [__dict__]; [None] means the
    attribute is inherited. *)
Record PyClass := {
  cls_name : string;
  cls_bases : list cls;
  cls_mro : list cls;
  varname_type_own : option string;
  was_schema_created_own : option bool;
  check_schema_usage_own : option bool;
  plugantic_config_own : option (option PluganticConfig);
  cls_annotations : gmap string annotation;
  cls_attrs : gmap string attr;
  pydantic_fields_own : option (gmap string annotation)
}.

Abbreviation state := (list PyClass) (only parsing).

(** [class PluginModel(BaseModel, metaclass=PluganticModelMeta)], class 0. *)
Definition PluginModel : cls := 0.

Definition PluginModel_class : PyClass := {|
  cls_name := "PluginModel";
  cls_bases := [];
  cls_mro := [PluginModel];
  varname_type_own := Some "type";
  was_schema_created_own := Some false;
  check_schema_usage_own := Some true;
  plugantic_config_own := Some None;
  cls_annotations := ∅;
  cls_attrs := ∅;
  pydantic_fields_own := Some ∅
|}.

(** The class table right after the module is imported. *)
Definition initial_state : state := [PluginModel_class].

(** Setters for the attributes the module assigns. *)
Definition set_was_schema_created (b : bool) (k : PyClass) : PyClass := {|
  cls_name := cls_name k;
  cls_bases := cls_bases k;
  cls_mro := cls_mro k;
  varname_type_own := varname_type_own k;
  was_schema_created_own := Some b;
  check_schema_usage_own := check_schema_usage_own k;
  plugantic_config_own := plugantic_config_own k;
  cls_annotations := cls_annotations k;
  cls_attrs := cls_attrs k;
  pydantic_fields_own := pydantic_fields_own k
|}.

Definition set_varname_type (v : string) (k : PyClass) : PyClass := {|
  cls_name := cls_name k;
  cls_bases := cls_bases k;
  cls_mro := cls_mro k;
  varname_type_own := Some v;
  was_schema_created_own := was_schema_created_own k;
  check_schema_usage_own := check_schema_usage_own k;
  plugantic_config_own := plugantic_config_own k;
  cls_annotations := cls_annotations k;
  cls_attrs := cls_attrs k;
  pydantic_fields_own := pydantic_fields_own k
|}.

Definition set_annotation (name : string) (a : annotation) (k : PyClass) : PyClass := {|
  cls_name := cls_name k;
  cls_bases := cls_bases k;
  cls_mro := cls_mro k;
  varname_type_own := varname_type_own k;
  was_schema_created_own := was_schema_created_own k;
  check_schema_usage_own := check_schema_usage_own k;
  plugantic_config_own := plugantic_config_own k;
  cls_annotations := <[name := a]> (cls_annotations k);
  cls_attrs := cls_attrs k;
  pydantic_fields_own := pydantic_fields_own k
|}.

Definition set_attr (name : string) (a : attr) (k : PyClass) : PyClass := {|
  cls_name := cls_name k;
  cls_bases := cls_bases k;
  cls_mro := cls_mro k;
  varname_type_own := varname_type_own k;
  was_schema_created_own := was_schema_created_own k;
  check_schema_usage_own := check_schema_usage_own k;
  plugantic_config_own := plugantic_config_own k;
  cls_annotations := cls_annotations k;
  cls_attrs := <[name := a]> (cls_attrs k);
  pydantic_fields_own := pydantic_fields_own k
|}.

Definition set_pydantic_fields (f : gmap string annotation) (k : PyClass) : PyClass := {|
  cls_name := cls_name k;
  cls_bases := cls_bases k;
  cls_mro := cls_mro k;
  varname_type_own := varname_type_own k;
  was_schema_created_own := was_schema_created_own k;
  check_schema_usage_own := check_schema_usage_own k;
  plugantic_config_own := plugantic_config_own k;
  cls_annotations := cls_annotations k;
  cls_attrs := cls_attrs k;
  pydantic_fields_own := Some f
|}.

(** ** Attribute lookup *)

(** [cls.mro()], restricted to [PluginModel] and its subclasses. *)
Definition mro (st : state) (c : cls) : list cls :=
  default [] (cls_mro <$> st !! c).

Fixpoint first_some {A B : Type} (f : A → option B) (l : list A) : option B :=
  match l with
  | [] => None
  | x :: l' =>
      match f x with
      | Some y => Some y
      | None => first_some f l'
      end
  end.

(** [getattr(cls, name)]: the entry of the first class of the MRO whose own
    [__dict__] has one. *)
Definition class_attr {A : Type} (own : PyClass → option A) (st : state) (c : cls) : option A :=
  first_some (λ d, st !! d ≫= own) (mro st c).

(** [cls.__plugantic_varname_type__] *)
Definition plugantic_varname_type (st : state) (c : cls) : string :=
  default "type" (class_attr varname_type_own st c).

(** [cls.__plugantic_was_schema_created__] *)
Definition plugantic_was_schema_created (st : state) (c : cls) : bool :=
  default false (class_attr was_schema_created_own st c).

(** [cls.__plugantic_check_schema_usage__] *)
Definition plugantic_check_schema_usage (st : state) (c : cls) : bool :=
  default true (class_attr check_schema_usage_own st c).

(** [cls.plugantic_config] *)
Definition plugantic_config (st : state) (c : cls) : option PluganticConfig :=
  default None (class_attr plugantic_config_own st c).

(** [getattr(cls, name, cls._NoValue)]; [None] stands for [_NoValue]. *)
Definition getattr (st : state) (c : cls) (name : string) : option attr :=
  class_attr (λ k, cls_attrs k !! name) st c.

(** [typing.get_type_hints(cls)]: the annotations of the classes of the
    MRO, a class overriding its bases. *)
Definition get_type_hints (st : state) (c : cls) : gmap string annotation :=
  foldr (λ d acc, default ∅ (cls_annotations <$> st !! d) ∪ acc) ∅ (mro st c).

(** [cls.model_fields], annotations only: the table pydantic keeps per
    model class, inherited until the class has its own. *)
Definition model_fields (st : state) (c : cls) : gmap string annotation :=
  default ∅ (class_attr pydantic_fields_own st c).

(** ** Discriminator bookkeeping *)

(** [_get_declared_annotation]: the resolved type hint for [name], and when
    there is none, the annotation of pydantic's field of that name. *)
Definition get_declared_annotation (st : state) (c : cls) (name : string) : option annotation :=
  match get_type_hints st c !! name with
  | Some a => Some a
  | None => model_fields st c !! name
  end.

(** [_get_declared_type]: the first argument of the [Literal] declared for
    the discriminator name. *)
Definition get_declared_type (st : state) (c : cls) : option string :=
  match get_declared_annotation st c (plugantic_varname_type st c) with
  | Some field => if origin_is_Literal field then head (get_args field) else None
  | None => None
  end.

(** [_is_valid_subclass] *)
Definition is_valid_subclass (st : state) (c : cls) : bool :=
  if truthy (get_declared_type st c) then true else false.

(** [_create_annotation] *)
Definition create_annotation (st : state) (c : cls) (name : string) (value : annotation)
    (only_set_if_not_exists force_set : bool) : state :=
  let existing_annotation := get_declared_annotation st c name in
  if bool_decide (existing_annotation = None) && only_set_if_not_exists then st
  else if bool_decide (existing_annotation = Some value) && negb force_set then st
  else alter (set_annotation name value) c st.

(** [_create_field_default] *)
Definition create_field_default (st : state) (c : cls) (name : string) (value : string) : state :=
  let actual_value := getattr st c name in
  let assign (v : attr) :=
    if bool_decide (actual_value = Some v) then st
    else alter (set_attr name v) c st in
  match actual_value with
  | Some (AttrFieldInfo fi) =>
      if bool_decide (fi !! "default" = Some (VStr value)) then st
      else assign (AttrFieldInfo (merge_field_infos fi (Field (VStr value))))
  | _ => assign (AttrValue (VStr value))
  end.

(** [_ensure_varname_default] *)
Definition ensure_varname_default (st : state) (c : cls) : state :=
  let declared_type := get_declared_type st c in
  if negb (truthy declared_type) then st
  else
    match declared_type with
    | Some v => create_field_default st c (plugantic_varname_type st c) v
    | None => st
    end.


(** ** Hierarchy *)

Definition bases (st : state) (c : cls) : list cls :=
  default [] (cls_bases <$> st !! c).

(** [cls.__subclasses__()]: the classes that list [c] among their bases, in
    the order of their creation. *)
Definition subclasses (st : state) (c : cls) : list cls :=
  filter (λ d, c ∈ bases st d) (seq 0 (length st)).

(** [_get_valid_subclasses].  The recursion follows [__subclasses__()];
    [fuel] bounds its depth. *)
Fixpoint get_valid_subclasses_rec (fuel : nat) (st : state) (c : cls) : gset cls :=
  match fuel with
  | 0 => ∅
  | S fuel' =>
      let valid := if is_valid_subclass st c then {[ c ]} else ∅ in
      foldl (λ valid subcls, valid ∪ get_valid_subclasses_rec fuel' st subcls)
            valid (subclasses st c)
  end.

(** A chain of subclasses is never longer than the class table. *)
Definition get_valid_subclasses (st : state) (c : cls) : gset cls :=
  get_valid_subclasses_rec (length st) st c.

(** ** Combinators *)

(** [PluginModel] classes and [PluganticCombinedModel] objects, which hold
    their operands in [items]. *)
#[warnings="-register-all"]
Inductive combined :=
| Plugin (c : cls)
| PluganticCombinedAnd (items : list combined)
| PluganticCombinedOr (items : list combined).

(** The loop of [PluganticCombinedAnd._get_valid_subclasses]; [acc] is the
    local [items], [None] before the first operand. *)
Definition and_items (ev : combined → gset cls) : option (gset cls) → list combined → gset cls :=
  fix loop (acc : option (gset cls)) (l : list combined) {struct l} : gset cls :=
    match l with
    | [] => default ∅ acc
    | item :: l' =>
        match acc with
        | None => loop (Some (ev item)) l'
        | Some s =>
            if decide (s = ∅) then s
            else loop (Some (s ∩ ev item)) l'
        end
    end.

(** The loop of [PluganticCombinedOr._get_valid_subclasses]. *)
Definition or_items (ev : combined → gset cls) : option (gset cls) → list combined → gset cls :=
  fix loop (acc : option (gset cls)) (l : list combined) {struct l} : gset cls :=
    match l with
    | [] => default ∅ acc
    | item :: l' =>
        match acc with
        | None => loop (Some (ev item)) l'
        | Some s => loop (Some (s ∪ ev item)) l'
        end
    end.

(** [item._get_valid_subclasses()] for a class or a combinator. *)
Fixpoint evaluate (st : state) (e : combined) : gset cls :=
  match e with
  | Plugin c => get_valid_subclasses st c
  | PluganticCombinedAnd items => and_items (evaluate st) None items
  | PluganticCombinedOr items => or_items (evaluate st) None items
  end.

(** ** Lifecycle guard *)

(** [_mark_schame_created] *)
Definition mark_schame_created (st : state) (c : cls) : state :=
  alter (set_was_schema_created true) c st.

(** [_check_plugantic_schema_usage].  Every class of the modelled MRO is a
    [PluginModel] subclass, so the [issubclass] test never skips one. *)
Definition check_plugantic_schema_usage (st : state) (c : cls) : bool :=
  if negb (plugantic_check_schema_usage st c) then false
  else existsb (plugantic_was_schema_created st) (mro st c).

(** ** Schema compilation *)

(** A Python [dict] as the list of its items in insertion order:
    [d[k] = v] replaces the value of an existing key in place and appends a
    new key. *)
Fixpoint dict_set {K V : Type} `{EqDecision K} (k : K) (v : V) (d : list (K * V)) : list (K * V) :=
  match d with
  | [] => [(k, v)]
  | (k', v') :: d' =>
      if decide (k' = k) then (k', v) :: d' else (k', v') :: dict_set k v d'
  end.

Fixpoint dict_get {K V : Type} `{EqDecision K} (k : K) (d : list (K * V)) : option V :=
  match d with
  | [] => None
  | (k', v') :: d' => if decide (k' = k) then Some v' else dict_get k d'
  end.

(** A dict comprehension [{key(x): val(x) for x in l}], or a loop of
    assignments [d[key(x)] = val(x)], starting from [d]. *)
Definition dict_fill {A K V : Type} `{EqDecision K} (key : A → K) (val : A → V)
    (d : list (K * V)) (l : list A) : list (K * V) :=
  foldl (λ d x, dict_set (key x) (val x) d) d l.

(** The core schemas the module builds.  [handler c] is the schema the
    validation engine produces for exactly the class [c]; it is opaque to
    the module. *)
#[warnings="-register-all"]
Inductive core_schema :=
| handler (subcls : cls)
| tagged_union_schema (choices : list (option string * core_schema)) (discriminator : string)
| union_schema (choices : list core_schema).

(** [tagged_union_schema(c, discriminator=d) for d, c in choices.items()] *)
Definition unions_of (choices : list (string * list (option string * core_schema))) : list core_schema :=
  map (λ dc, tagged_union_schema dc.2 dc.1) choices.

Section Compile.

(** The order in which a Python [set] of classes is iterated. *)
Variable iter : gset cls → list cls.

(** [PluginModel._as_tagged_union] *)
Definition as_tagged_union (st : state) (c : cls) : core_schema * state :=
  let subclasses := get_valid_subclasses st c in
  match (if decide (size subclasses = 1) then head (iter subclasses) else None) with
  | Some subcls => (handler subcls, mark_schame_created st subcls)
  | None =>
      let st' := foldl mark_schame_created st (iter subclasses) in
      let choices := dict_fill (get_declared_type st') handler [] (iter subclasses) in
      (tagged_union_schema choices (plugantic_varname_type st' c), st')
  end.

(** [PluginModel.__get_pydantic_core_schema__] *)
Definition plugin_get_pydantic_core_schema (st : state) (c : cls) : core_schema * state :=
  as_tagged_union (mark_schame_created st c) c.

(** [choices.setdefault(d, {})[k] = v] *)
Definition setdefault_setitem (d : string) (k : option string) (v : core_schema)
    (choices : list (string * list (option string * core_schema))) :
    list (string * list (option string * core_schema)) :=
  dict_set d (dict_set k v (default [] (dict_get d choices))) choices.

(** One turn of the loop over [subclasses] in
    [PluganticCombinedModel.__get_pydantic_core_schema__]. *)
Definition combined_step (acc : list (string * list (option string * core_schema)) * state)
    (subcls : cls) : list (string * list (option string * core_schema)) * state :=
  let st := mark_schame_created acc.2 subcls in
  (setdefault_setitem (plugantic_varname_type st subcls) (get_declared_type st subcls)
                      (handler subcls) acc.1, st).

(** [PluganticCombinedModel.__get_pydantic_core_schema__] *)
Definition combined_get_pydantic_core_schema (st : state) (e : combined) : core_schema * state :=
  let subclasses := evaluate st e in
  match (if decide (size subclasses = 1) then head (iter subclasses) else None) with
  | Some subcls => (handler subcls, mark_schame_created st subcls)
  | None =>
      let '(choices, st') := foldl combined_step ([], st) (iter subclasses) in
      let unions := unions_of choices in
      match unions with
      | [u] => (u, st')
      | _ => (union_schema unions, st')
      end
  end.

(** The engine asks a class or a combinator for its schema. *)
Definition get_pydantic_core_schema (st : state) (e : combined) : core_schema * state :=
  match e with
  | Plugin c => plugin_get_pydantic_core_schema st c
  | _ => combined_get_pydantic_core_schema st e
  end.

End Compile.

(** ** Class creation *)

(** C3 linearisation, as [type.mro] computes it. *)
Definition good_head (seqs : list (list cls)) (x : cls) : bool :=
  forallb (λ s, bool_decide (x ∉ tail s)) seqs.

Fixpoint find_candidate (all seqs : list (list cls)) : option cls :=
  match seqs with
  | [] => None
  | [] :: rest => find_candidate all rest
  | (x :: _) :: rest => if good_head all x then Some x else find_candidate all rest
  end.

Definition drop_head (x : cls) (s : list cls) : list cls :=
  match s with
  | y :: t => if decide (y = x) then t else s
  | [] => []
  end.

Inductive merge_result :=
| Merged (l : list cls)
| Inconsistent
| OutOfFuel.

Definition is_nil (s : list cls) : bool :=
  match s with
  | [] => true
  | _ => false
  end.

Fixpoint pmerge (fuel : nat) (seqs : list (list cls)) : merge_result :=
  if forallb is_nil seqs then Merged []
  else
    match fuel with
    | 0 => OutOfFuel
    | S fuel' =>
        match find_candidate seqs seqs with
        | None => Inconsistent
        | Some x =>
            match pmerge fuel' (map (drop_head x) seqs) with
            | Merged l => Merged (x :: l)
            | r => r
            end
        end
    end.

Definition total_length (seqs : list (list cls)) : nat :=
  foldr (λ s n, length s + n) 0 seqs.

(** The MRO of a new class [c] with the given bases; [None] when Python
    refuses the class statement.  Bases are classes of the table. *)
Definition compute_mro (st : state) (c : cls) (bs : list cls) : option (list cls) :=
  if bool_decide (bs = []) || negb (forallb (λ b, bool_decide (b < length st)) bs)
     || negb (bool_decide (NoDup bs))
  then None
  else
    let seqs := map (mro st) bs ++ [bs] in
    match pmerge (total_length seqs) seqs with
    | Merged l => Some (c :: l)
    | _ => None
    end.

(** A class statement: its name, bases, the keyword arguments
    [varname_type] and [value], and the annotations and attributes of its
    body. *)
Record class_statement := {
  stmt_name : string;
  stmt_bases : list cls;
  stmt_varname_type : option string;
  stmt_value : option string;
  stmt_annotations : gmap string annotation;
  stmt_attrs : gmap string attr;
  stmt_plugantic_config : option (option PluganticConfig);
  stmt_check_schema_usage : option bool
}.

(** The class object as [type.__new__] builds it, before
    [__init_subclass__] runs. *)
Definition new_class (s : class_statement) (m : list cls) : PyClass := {|
  cls_name := stmt_name s;
  cls_bases := stmt_bases s;
  cls_mro := m;
  varname_type_own := None;
  was_schema_created_own := None;
  check_schema_usage_own := stmt_check_schema_usage s;
  plugantic_config_own := stmt_plugantic_config s;
  cls_annotations := stmt_annotations s;
  cls_attrs := stmt_attrs s;
  pydantic_fields_own := None
|}.

(** [PluginModel.__init_subclass__] *)
Definition init_subclass (st : state) (c : cls) (varname_type value : option string) : pyresult state :=
  if check_plugantic_schema_usage st c then
    Raise (ValueError "Schema has already been created")
  else
    let '(varname_type, value) :=
      match plugantic_config st c with
      | Some cfg =>
          if config_truthy cfg
          then (py_or (cfg_varname_type cfg) varname_type, py_or (cfg_value cfg) value)
          else (varname_type, value)
      | None => (varname_type, value)
      end in
    let st := alter (set_was_schema_created false) c st in
    let st :=
      match varname_type with
      | Some v => alter (set_varname_type v) c st
      | None => st
      end in
    let st :=
      match value with
      | Some v => create_annotation st c (plugantic_varname_type st c) (Literal v []) false false
      | None => st
      end in
    Return (ensure_varname_default st c).

(** Executing a class statement: the class is created, [__init_subclass__]
    runs on it, and pydantic then collects the fields of the class from its
    type hints.  When an exception is raised no class is bound and the class
    table stays as it was. *)
Definition declare (st : state) (s : class_statement) : pyresult (cls * state) :=
  let c := length st in
  match compute_mro st c (stmt_bases s) with
  | None => Raise (TypeError "Cannot create a consistent method resolution order")
  | Some m =>
      match init_subclass (st ++ [new_class s m]) c (stmt_varname_type s) (stmt_value s) with
      | Raise e => Raise e
      | Return st' => Return (c, alter (set_pydantic_fields (get_type_hints st' c)) c st')
      end
  end.

(** ** Descendants and well-formed class tables *)

(** [d] lists [b] among its bases. *)
Definition direct_base (st : state) (d b : cls) : Prop := b ∈ bases st d.

(** [v] is [root] or a descendant of [root]. *)
Definition descendant (st : state) (v root : cls) : Prop := rtc (direct_base st) v root.

(** The bases of a class were created before it. *)
Definition bases_older (st : state) : Prop :=
  ∀ c b, b ∈ bases st c → b < c.

Definition bases_olderb (st : state) : bool :=
  forallb (λ c, forallb (λ b, bool_decide (b < c)) (bases st c)) (seq 0 (length st)).

(** The literal a class declares for its discriminator, whatever its truth
    value. *)
Definition has_declared_literal (st : state) (c : cls) : Prop :=
  is_Some (get_declared_type st c).

(** Whatever the iteration order of a set is, it yields each member once. *)
Definition set_iteration (iter : gset cls → list cls) : Prop :=
  ∀ s, iter s ≡ₚ elements s.

(** The dict that the loop of
    [PluganticCombinedModel.__get_pydantic_core_schema__] builds, read off a
    fixed class table: marking classes changes none of the attributes the
    loop reads. *)
Definition group_step (st : state) (choices : list (string * list (option string * core_schema)))
    (subcls : cls) : list (string * list (option string * core_schema)) :=
  setdefault_setitem (plugantic_varname_type st subcls) (get_declared_type st subcls)
                     (handler subcls) choices.

Definition group_fill (st : state) (l : list cls) : list (string * list (option string * core_schema)) :=
  foldl (group_step st) [] l.

(** The tagged unions of a compiled schema, each as its discriminator
    name and its choices. *)
Definition tagged_unions (s : core_schema) : list (string * list (option string * core_schema)) :=
  match s with
  | handler _ => []
  | tagged_union_schema choices d => [(d, choices)]
  | union_schema us =>
      flat_map (λ u, match u with
                     | tagged_union_schema choices d => [(d, choices)]
                     | _ => []
                     end) us
  end.


(** The discriminator names in use among the classes of a set. *)
Definition discriminator_names (st : state) (s : gset cls) : gset string :=
  set_map (plugantic_varname_type st) s.


(** ** Well-formed class tables *)

(** What Python guarantees of a class object [k] named [c]: its MRO starts
    with the class itself and its bases were created before it; and what
    [__init_subclass__] guarantees: the class has its own schema-created
    flag. *)
Definition class_ok (c : cls) (k : PyClass) : Prop :=
  head (cls_mro k) = Some c ∧
  is_Some (was_schema_created_own k) ∧
  Forall (λ b, b < c) (cls_bases k).

Definition class_table_ok (st : state) : Prop :=
  ∀ c k, st !! c = Some k → class_ok c k.

#[global] Instance class_ok_dec (c : cls) (k : PyClass) : Decision (class_ok c k).
Proof. unfold class_ok. apply _. Defined.

Definition class_table_okb (st : state) : bool :=
  forallb (λ ck, bool_decide (class_ok ck.1 ck.2)) (imap pair st).

(** The class tables a program can build: it declares classes and has
    schemas compiled, in any order. *)
Inductive reachable : state → Prop :=
| reachable_initial : reachable initial_state
| reachable_declare (st : state) (s : class_statement) (c : cls) (st' : state) :
    reachable st → declare st s = Return (c, st') → reachable st'
| reachable_compile (iter : gset cls → list cls) (st : state) (e : combined) :
    reachable st → reachable (get_pydantic_core_schema iter st e).2.

(** Two class objects with the same bases, MRO and schema-created flag. *)
Definition same_core (k k' : PyClass) : Prop :=
  cls_bases k = cls_bases k' ∧ cls_mro k = cls_mro k' ∧
  was_schema_created_own k = was_schema_created_own k'.

(** [st'] is [st] followed by one more class, which is [k] up to
    [same_core]. *)
Definition extends_by (st : state) (k : PyClass) (st' : state) : Prop :=
  ∃ k', st' = st ++ [k'] ∧ same_core k k'.

(** ** The validation engine, as far as the discriminator field goes *)

(** The default the engine finds for a field in a class attribute. *)
Definition attr_default (a : attr) : option pyval :=
  match a with
  | AttrValue v => Some v
  | AttrFieldInfo fi => fi !! "default"
  end.




(** ** Sample programs *)

(** A class statement with an empty body. *)
Definition class_stmt (name : string) (bs : list cls) (varname_type value : option string) :
    class_statement := {|
  stmt_name := name;
  stmt_bases := bs;
  stmt_varname_type := varname_type;
  stmt_value := value;
  stmt_annotations := ∅;
  stmt_attrs := ∅;
  stmt_plugantic_config := None;
  stmt_check_schema_usage := None
|}.

(** The class table after a class statement; a statement that raises
    leaves it as it was. *)
Definition exec (st : state) (s : class_statement) : state :=
  match declare st s with
  | Return (_, st') => st'
  | Raise _ => st
  end.

Definition program (l : list class_statement) : state := foldl exec initial_state l.

(** [Animal] (1) with [Dog] (2), [Cat] (3), and [DogCat] (4), which has
    both as bases. *)
Definition zoo : state := program [
  class_stmt "Animal" [PluginModel] None None;
  class_stmt "Dog" [1] None (Some "dog");
  class_stmt "Cat" [1] None (Some "cat");
  class_stmt "DogCat" [2; 3] None (Some "dogcat")
].

(** [Animal] (1) with [Nameless] (2), declared with [value=""]. *)
Definition nameless : state := program [
  class_stmt "Animal" [PluginModel] None None;
  class_stmt "Nameless" [1] None (Some "")
].

(** [Animal] (1) with [Dog] (2) and [Puppy] (3), a subclass of [Dog] that
    declares nothing of its own. *)
Definition kennel : state := program [
  class_stmt "Animal" [PluginModel] None None;
  class_stmt "Dog" [1] None (Some "dog");
  class_stmt "Puppy" [2] None None
].

(** [Base] (1) with [B] (2), discriminated by [type], and [K] (3),
    declared with [varname_type="kind"]. *)
Definition mixed : state := program [
  class_stmt "Base" [PluginModel] None None;
  class_stmt "B" [1] None (Some "b");
  class_stmt "K" [1] (Some "kind") (Some "k")
].


(** A class (1) whose body annotates [type] with the given [Literal] and
    binds it to a field info with a description. *)
Definition annotated (a : string) (l : list string) : state := program [
  {| stmt_name := "Shape"; stmt_bases := [PluginModel];
     stmt_varname_type := None; stmt_value := None;
     stmt_annotations := {[ "type" := Literal a l ]};
     stmt_attrs := {[ "type" := AttrFieldInfo {[ "description" := VStr "the kind of shape" ]} ]};
     stmt_plugantic_config := None; stmt_check_schema_usage := None |}
].

(** The iteration order used to run the samples. *)
Definition sorted_iteration : gset cls → list cls := elements.

(** The groups after the loop has run over [l]: one group per
    discriminator name in use, and in the group of a name one entry per
    discriminator value of the classes with that name. *)
Record groups_of (st : state) (l : list cls)
    (choices : list (string * list (option string * core_schema))) : Prop := {
  groups_NoDup : NoDup choices.*1;
  groups_names : ∀ d, d ∈ choices.*1 ↔ d ∈ plugantic_varname_type st <$> l;
  groups_values_NoDup : ∀ d inner, dict_get d choices = Some inner → NoDup inner.*1;
  groups_values : ∀ d inner, dict_get d choices = Some inner →
    ∀ k, k ∈ inner.*1 ↔
         ∃ x, x ∈ l ∧ plugantic_varname_type st x = d ∧ get_declared_type st x = k;
  groups_schemas : ∀ d inner k s, dict_get d choices = Some inner → dict_get k inner = Some s →
    ∃ x, x ∈ l ∧ plugantic_varname_type st x = d ∧ get_declared_type st x = k ∧ s = handler x
}.

(** The classes a combinator expression is built from. *)
Fixpoint leaves (e : combined) : list cls :=
  match e with
  | Plugin c => [c]
  | PluganticCombinedAnd items => concat (map leaves items)
  | PluganticCombinedOr items => concat (map leaves items)
  end.

(** The schema a compilation returns and the classes it marks, in the
    order in which it marks them, read off the class table it starts from. *)
Definition compiled_schema (iter : gset cls → list cls) (st : state) (e : combined) : core_schema :=
  let subclasses := evaluate st e in
  match (if decide (size subclasses = 1) then head (iter subclasses) else None) with
  | Some subcls => handler subcls
  | None =>
      match e with
      | Plugin c =>
          tagged_union_schema (dict_fill (get_declared_type st) handler [] (iter subclasses))
                              (plugantic_varname_type st c)
      | _ =>
          match unions_of (group_fill st (iter subclasses)) with
          | [u] => u
          | unions => union_schema unions
          end
      end
  end.

Definition marked_by (iter : gset cls → list cls) (st : state) (e : combined) : list cls :=
  let subclasses := evaluate st e in
  let marked :=
    match (if decide (size subclasses = 1) then head (iter subclasses) else None) with
    | Some subcls => [subcls]
    | None => iter subclasses
    end in
  match e with
  | Plugin c => c :: marked
  | _ => marked
  end.

(** What the linearisation guarantees of the MROs of a class table: the
    MRO of a class holds, besides the class, only older classes, and it
    holds the bases of the class and all of their MROs. *)
Definition mro_ok (st : state) : Prop :=
  ∀ c, c < length st →
    (∀ x, x ∈ mro st c → x ≤ c) ∧
    (∀ b, b ∈ bases st c → b ∈ mro st c ∧ ∀ x, x ∈ mro st b → x ∈ mro st c).

(** The MRO of a class holds the MRO of each of its classes. *)
Definition mro_closed (st : state) : Prop :=
  ∀ c x y, x ∈ mro st c → y ∈ mro st x → y ∈ mro st c.

(** No class is twice in an MRO. *)
Definition mro_nodup (st : state) : Prop := ∀ c, NoDup (mro st c).

(** pydantic collected the fields of each class from its type hints. *)
Definition fields_collected (st : state) : Prop :=
  ∀ c k, st !! c = Some k → pydantic_fields_own k = Some (get_type_hints st c).

(** [Animal] (1) and [Dog] (2), whose body sets [plugantic_config] to
    [{"value": "dog"}]. *)
Definition configured : state := program [
  class_stmt "Animal" [PluginModel] None None;
  {| stmt_name := "Dog"; stmt_bases := [1];
     stmt_varname_type := None; stmt_value := None;
     stmt_annotations := ∅; stmt_attrs := ∅;
     stmt_plugantic_config := Some (Some {| cfg_varname_type := None; cfg_value := Some "dog" |});
     stmt_check_schema_usage := None |}
].

(** * Properties *)

(** ** Hierarchy index *)

Lemma bases_lookup_None (st : state) (c : cls) : st !! c = None → bases st c = [].
Proof. unfold bases. by intros ->. Qed.

Lemma direct_base_lt_length (st : state) (d b : cls) : direct_base st d b → d < length st.
Proof.
  unfold direct_base. intros Hb. apply lookup_lt_is_Some.
  destruct (st !! d) eqn:E; [eauto|].
  rewrite (bases_lookup_None _ _ E) in Hb. by apply elem_of_nil in Hb.
Qed.

Lemma bases_olderb_spec (st : state) : bases_olderb st = true ↔ bases_older st.
Proof.
  unfold bases_olderb, bases_older. rewrite forallb_forall. split.
  - intros H c b Hb. pose proof (direct_base_lt_length _ _ _ Hb) as Hc.
    specialize (H c). rewrite forallb_forall in H.
    assert (Hin : In c (seq 0 (length st))) by (apply in_seq; lia).
    specialize (H Hin b). rewrite <- list_elem_of_In in H.
    specialize (H Hb). by apply bool_decide_eq_true in H.
  - intros H c _. apply forallb_forall. intros b Hb.
    apply bool_decide_eq_true, H. by apply list_elem_of_In.
Qed.

Lemma elem_of_subclasses (st : state) (c d : cls) :
  d ∈ subclasses st c ↔ direct_base st d c.
Proof.
  unfold subclasses. rewrite list_elem_of_filter, elem_of_seq. split.
  - by intros [? _].
  - intros H. split; [done|]. pose proof (direct_base_lt_length _ _ _ H). lia.
Qed.

Lemma elem_of_foldl_union (f : cls → gset cls) (l : list cls) (s0 : gset cls) (v : cls) :
  v ∈ foldl (λ acc x, acc ∪ f x) s0 l ↔ v ∈ s0 ∨ ∃ x, x ∈ l ∧ v ∈ f x.
Proof.
  revert s0. induction l as [|a l IH]; intros s0; simpl.
  - split; [by left|]. intros [?|(x & Hx & _)]; [done|]. by apply elem_of_nil in Hx.
  - rewrite IH, elem_of_union. split.
    + intros [[?|?]|(x & Hx & Hv)]; [by left| |].
      * right. exists a. split; [left|done].
      * right. exists x. split; [by right|done].
    + intros [?|(x & Hx & Hv)]; [by left; left|].
      apply elem_of_cons in Hx as [->|Hx]; [by left; right|].
      right. by exists x.
Qed.

Lemma is_valid_subclass_out_of_range (st : state) (c : cls) :
  st !! c = None → is_valid_subclass st c = false.
Proof.
  intros E. unfold is_valid_subclass, get_declared_type, get_declared_annotation,
    get_type_hints, model_fields, plugantic_varname_type, class_attr, mro.
  rewrite E. simpl. by rewrite lookup_empty.
Qed.

Lemma descendant_inv_r (st : state) (v c : cls) :
  descendant st v c ↔ v = c ∨ ∃ s, descendant st v s ∧ direct_base st s c.
Proof.
  unfold descendant. split.
  - intros H. apply rtc_inv_r in H as [->|(s & ? & ?)]; [by left|right; eauto].
  - intros [->|(s & ? & ?)]; [done|]. by eapply rtc_r.
Qed.

Lemma get_valid_subclasses_rec_spec (st : state) :
  bases_older st →
  ∀ (fuel : nat) (c v : cls), length st ≤ fuel + c →
    v ∈ get_valid_subclasses_rec fuel st c ↔ is_valid_subclass st v = true ∧ descendant st v c.
Proof.
  intros Hwf. induction fuel as [|fuel IH]; intros c v Hlen.
  - simpl. split; [by intros ?%elem_of_empty|].
    intros [Hv Hd]. exfalso. apply descendant_inv_r in Hd as [->|(s & _ & Hs)].
    + rewrite is_valid_subclass_out_of_range in Hv; [done|].
      apply lookup_ge_None. lia.
    + pose proof (Hwf _ _ Hs). pose proof (direct_base_lt_length _ _ _ Hs). lia.
  - simpl. rewrite elem_of_foldl_union, (descendant_inv_r st v c). split.
    + intros [Hv|(s & Hs & Hv)].
      * destruct (is_valid_subclass st c) eqn:E.
        -- apply elem_of_singleton in Hv as ->. split; [done|by left].
        -- by apply elem_of_empty in Hv.
      * apply elem_of_subclasses in Hs. apply IH in Hv as [? ?].
        -- split; [done|]. right. eauto.
        -- pose proof (Hwf _ _ Hs). lia.
    + intros [Hv [->|(s & Hd & Hs)]].
      * left. rewrite Hv. by apply elem_of_singleton.
      * right. exists s. split; [by apply elem_of_subclasses|].
        apply IH; [|done]. pose proof (Hwf _ _ Hs). lia.
Qed.

Lemma get_valid_subclasses_spec (st : state) (root v : cls) :
  bases_older st →
  v ∈ get_valid_subclasses st root ↔ is_valid_subclass st v = true ∧ descendant st v root.
Proof. intros Hwf. apply get_valid_subclasses_rec_spec; [done|lia]. Qed.

(** More fuel than the class table is long changes nothing. *)
Lemma get_valid_subclasses_rec_fuel (st : state) (fuel : nat) (c : cls) :
  bases_older st → length st ≤ fuel →
  get_valid_subclasses_rec fuel st c = get_valid_subclasses st c.
Proof.
  intros Hwf Hf. apply set_eq. intros v.
  rewrite get_valid_subclasses_spec by done.
  apply get_valid_subclasses_rec_spec; [done|lia].
Qed.

(** ** Frame: what marking a class leaves alone *)

(** Two class objects that differ at most in their schema-created flag and
    in their field defaults. *)
Definition same_decl (k k' : PyClass) : Prop :=
  cls_bases k = cls_bases k' ∧ cls_mro k = cls_mro k' ∧
  varname_type_own k = varname_type_own k' ∧
  cls_annotations k = cls_annotations k' ∧
  pydantic_fields_own k = pydantic_fields_own k'.

Abbreviation same_decls := (Forall2 same_decl) (only parsing).

Lemma same_decl_refl (k : PyClass) : same_decl k k.
Proof. by repeat split. Qed.

Lemma same_decls_refl (st : state) : same_decls st st.
Proof. induction st; constructor; auto using same_decl_refl. Qed.

Lemma same_decls_trans (st1 st2 st3 : state) :
  same_decls st1 st2 → same_decls st2 st3 → same_decls st1 st3.
Proof.
  intros H12. revert st3. induction H12 as [|k1 k2 st1 st2 Hk _ IH]; intros st3 H23.
  - by inversion H23.
  - inversion H23 as [|? k3 ? st3' Hk' H23']; subst. constructor; [|by apply IH].
    destruct Hk as (?&?&?&?&?), Hk' as (?&?&?&?&?).
    repeat split; congruence.
Qed.

Lemma same_decls_alter (f : PyClass → PyClass) (c : cls) (st : state) :
  (∀ k, same_decl k (f k)) → same_decls st (alter f c st).
Proof.
  intros Hf. revert c. induction st as [|k st IH]; intros c; [constructor|].
  destruct c as [|c]; simpl; constructor.
  - apply Hf.
  - apply same_decls_refl.
  - apply same_decl_refl.
  - apply IH.
Qed.

Lemma same_decls_fmap {A : Type} (proj : PyClass → A) (st st' : state) (d : cls) :
  same_decls st st' → (∀ k k', same_decl k k' → proj k = proj k') →
  proj <$> st !! d = proj <$> st' !! d.
Proof.
  intros H Hp. revert d. induction H as [|k k' st st' Hk _ IH]; intros d; [done|].
  destruct d; simpl; [by rewrite (Hp _ _ Hk)|apply IH].
Qed.

Lemma same_decls_bind {A : Type} (own : PyClass → option A) (st st' : state) (d : cls) :
  same_decls st st' → (∀ k k', same_decl k k' → own k = own k') →
  st !! d ≫= own = st' !! d ≫= own.
Proof.
  intros H Hp. revert d. induction H as [|k k' st st' Hk _ IH]; intros d; [done|].
  destruct d; simpl; [by apply Hp|apply IH].
Qed.

Lemma first_some_ext {A B : Type} (f g : A → option B) (l : list A) :
  (∀ x, f x = g x) → first_some f l = first_some g l.
Proof. intros H. induction l as [|x l IH]; simpl; [done|]. by rewrite H, IH. Qed.

Section Frame.
Context (st st' : state) (Hsame : same_decls st st').

Lemma same_decls_length : length st = length st'.
Proof using Hsame. by eapply Forall2_length. Qed.

Lemma same_decls_mro (c : cls) : mro st c = mro st' c.
Proof using Hsame.
  unfold mro. f_equal. apply same_decls_fmap; [done|]. by intros ?? (?&?&?).
Qed.

Lemma same_decls_bases (c : cls) : bases st c = bases st' c.
Proof using Hsame.
  unfold bases. f_equal. apply same_decls_fmap; [done|]. by intros ?? (?&?&?).
Qed.

Lemma same_decls_class_attr {A : Type} (own : PyClass → option A) (c : cls) :
  (∀ k k', same_decl k k' → own k = own k') →
  class_attr own st c = class_attr own st' c.
Proof using Hsame.
  intros Hp. unfold class_attr. rewrite same_decls_mro.
  apply first_some_ext. intros d. by apply same_decls_bind.
Qed.

Lemma same_decls_varname_type (c : cls) :
  plugantic_varname_type st c = plugantic_varname_type st' c.
Proof using Hsame.
  unfold plugantic_varname_type. f_equal.
  apply same_decls_class_attr. by intros ?? (?&?&?&?).
Qed.

Lemma same_decls_type_hints (c : cls) : get_type_hints st c = get_type_hints st' c.
Proof using Hsame.
  unfold get_type_hints. rewrite same_decls_mro.
  induction (mro st' c) as [|d l IH]; simpl; [done|]. rewrite IH. f_equal. f_equal.
  apply same_decls_fmap; [done|]. by intros ?? (?&?&?&?&?).
Qed.

Lemma same_decls_model_fields (c : cls) : model_fields st c = model_fields st' c.
Proof using Hsame.
  unfold model_fields. f_equal.
  apply same_decls_class_attr. by intros ?? (?&?&?&?&?).
Qed.

Lemma same_decls_declared_annotation (c : cls) (name : string) :
  get_declared_annotation st c name = get_declared_annotation st' c name.
Proof using Hsame.
  unfold get_declared_annotation.
  by rewrite same_decls_type_hints, same_decls_model_fields.
Qed.

Lemma same_decls_declared_type (c : cls) : get_declared_type st c = get_declared_type st' c.
Proof using Hsame.
  unfold get_declared_type.
  by rewrite same_decls_varname_type, same_decls_declared_annotation.
Qed.

Lemma same_decls_is_valid_subclass (c : cls) :
  is_valid_subclass st c = is_valid_subclass st' c.
Proof using Hsame. unfold is_valid_subclass. by rewrite same_decls_declared_type. Qed.

Lemma same_decls_subclasses (c : cls) : subclasses st c = subclasses st' c.
Proof using Hsame.
  unfold subclasses. rewrite same_decls_length.
  apply list_filter_iff. intros d. by rewrite same_decls_bases.
Qed.

Lemma same_decls_valid_subclasses_rec (fuel : nat) (c : cls) :
  get_valid_subclasses_rec fuel st c = get_valid_subclasses_rec fuel st' c.
Proof using Hsame.
  revert c. induction fuel as [|fuel IH]; intros c; simpl; [done|].
  rewrite same_decls_subclasses, same_decls_is_valid_subclass.
  generalize (if is_valid_subclass st' c then ({[c]} : gset cls) else ∅).
  induction (subclasses st' c) as [|d l IHl]; intros s0; simpl; [done|].
  by rewrite IH, IHl.
Qed.

Lemma same_decls_valid_subclasses (c : cls) :
  get_valid_subclasses st c = get_valid_subclasses st' c.
Proof using Hsame.
  unfold get_valid_subclasses.
  by rewrite same_decls_length, same_decls_valid_subclasses_rec.
Qed.

End Frame.

Lemma mark_same_decls (st : state) (c : cls) : same_decls st (mark_schame_created st c).
Proof. apply same_decls_alter. intros k. by repeat split. Qed.

Lemma foldl_mark_same_decls (l : list cls) (st : state) :
  same_decls st (foldl mark_schame_created st l).
Proof.
  revert st. induction l as [|c l IH]; intros st; simpl; [apply same_decls_refl|].
  eapply same_decls_trans; [apply mark_same_decls|apply IH].
Qed.

(** ** Combinator algebra *)

(** Induction over combinator expressions, with the operands of a node as
    a list. *)
Lemma combined_ind_items (P : combined → Prop) :
  (∀ c, P (Plugin c)) →
  (∀ items, Forall P items → P (PluganticCombinedAnd items)) →
  (∀ items, Forall P items → P (PluganticCombinedOr items)) →
  ∀ e, P e.
Proof.
  intros HP HA HO. fix IH 1. intros [c|items|items].
  - apply HP.
  - apply HA. induction items as [|e items IHitems]; constructor; [apply IH|apply IHitems].
  - apply HO. induction items as [|e items IHitems]; constructor; [apply IH|apply IHitems].
Qed.

Lemma and_items_ext (ev ev' : combined → gset cls) (acc : option (gset cls)) (l : list combined) :
  Forall (λ e, ev e = ev' e) l → and_items ev acc l = and_items ev' acc l.
Proof.
  intros H. revert acc. induction H as [|e l He _ IH]; intros acc; simpl; [done|].
  destruct acc as [s|]; rewrite He; [|apply IH].
  destruct (decide (s = ∅)); [done|apply IH].
Qed.

Lemma or_items_ext (ev ev' : combined → gset cls) (acc : option (gset cls)) (l : list combined) :
  Forall (λ e, ev e = ev' e) l → or_items ev acc l = or_items ev' acc l.
Proof.
  intros H. revert acc. induction H as [|e l He _ IH]; intros acc; simpl; [done|].
  destruct acc as [s|]; rewrite He; apply IH.
Qed.

Lemma same_decls_evaluate (st st' : state) (e : combined) :
  same_decls st st' → evaluate st e = evaluate st' e.
Proof.
  intros H. induction e as [c|items IH|items IH] using combined_ind_items; simpl.
  - by apply same_decls_valid_subclasses.
  - by apply and_items_ext.
  - by apply or_items_ext.
Qed.

Lemma foldl_intersection_empty (ev : combined → gset cls) (l : list combined) :
  foldl (λ acc item, acc ∩ ev item) ∅ l = ∅.
Proof.
  induction l as [|e l IH]; simpl; [done|]. by rewrite intersection_empty_l_L.
Qed.

(** The loops as folds over the remaining operands.  Leaving the AND loop
    early on an empty set gives what the remaining intersections would. *)
Lemma and_items_Some (ev : combined → gset cls) (s : gset cls) (l : list combined) :
  and_items ev (Some s) l = foldl (λ acc item, acc ∩ ev item) s l.
Proof.
  revert s. induction l as [|e l IH]; intros s; simpl; [done|].
  destruct (decide (s = ∅)) as [->|]; [|apply IH].
  by rewrite intersection_empty_l_L, foldl_intersection_empty.
Qed.

Lemma or_items_Some (ev : combined → gset cls) (s : gset cls) (l : list combined) :
  or_items ev (Some s) l = foldl (λ acc item, acc ∪ ev item) s l.
Proof. revert s. induction l as [|e l IH]; intros s; simpl; [done|apply IH]. Qed.

(** Chained operands: an n-ary node folds its operands from the left. *)
Lemma evaluate_and_chain (st : state) (A : combined) (items : list combined) :
  evaluate st (PluganticCombinedAnd (A :: items)) =
  foldl (λ acc item, acc ∩ evaluate st item) (evaluate st A) items.
Proof.
  change (and_items (evaluate st) (Some (evaluate st A)) items = 
          foldl (λ acc item, acc ∩ evaluate st item) (evaluate st A) items).
  apply and_items_Some.
Qed.

Lemma evaluate_or_chain (st : state) (A : combined) (items : list combined) :
  evaluate st (PluganticCombinedOr (A :: items)) =
  foldl (λ acc item, acc ∪ evaluate st item) (evaluate st A) items.
Proof.
  change (or_items (evaluate st) (Some (evaluate st A)) items =
          foldl (λ acc item, acc ∪ evaluate st item) (evaluate st A) items).
  apply or_items_Some.
Qed.

(** A node without operands evaluates to the empty set. *)
Lemma evaluate_no_items (st : state) :
  evaluate st (PluganticCombinedAnd []) = ∅ ∧ evaluate st (PluganticCombinedOr []) = ∅.
Proof. done. Qed.

(** C1: evaluating the AND combinator of two expressions gives the
    intersection of their evaluations, evaluating the OR combinator gives
    their union, whatever the two expressions are, and swapping the
    operands changes neither result. *)
Theorem evaluate_and_or (st : state) (A B : combined) :
  evaluate st (PluganticCombinedAnd [A; B]) = evaluate st A ∩ evaluate st B ∧
  evaluate st (PluganticCombinedOr [A; B]) = evaluate st A ∪ evaluate st B ∧
  evaluate st (PluganticCombinedAnd [A; B]) = evaluate st (PluganticCombinedAnd [B; A]) ∧
  evaluate st (PluganticCombinedOr [A; B]) = evaluate st (PluganticCombinedOr [B; A]).
Proof.
  rewrite !evaluate_and_chain, !evaluate_or_chain. simpl.
  split_and!; [done|done|apply (comm_L (∩))|apply (comm_L (∪))].
Qed.

(** ** Schema compiler *)

Section CompileProperties.
Context (iter : gset cls → list cls) (Hiter : set_iteration iter).

Lemma iter_empty : iter ∅ = [].
Proof using Hiter.
  apply Permutation_nil_r. rewrite <- (elements_empty (C := gset cls)).
  exact (Hiter ∅).
Qed.

Lemma iter_singleton (v : cls) : iter {[ v ]} = [v].
Proof using Hiter.
  apply Permutation_singleton_r. rewrite <- (elements_singleton (C := gset cls) v).
  exact (Hiter {[ v ]}).
Qed.

Lemma elem_of_iter (s : gset cls) (v : cls) : v ∈ iter s ↔ v ∈ s.
Proof using Hiter. by rewrite (Hiter s), elem_of_elements. Qed.

Lemma NoDup_iter (s : gset cls) : NoDup (iter s).
Proof using Hiter. rewrite (Hiter s). apply NoDup_elements. Qed.

Lemma length_iter (s : gset cls) : length (iter s) = size s.
Proof using Hiter. by rewrite (Hiter s). Qed.

(** The set popped from when [len(subclasses) == 1]. *)
Lemma pop_single (s : gset cls) (v : cls) :
  s = {[ v ]} → (if decide (size s = 1) then head (iter s) else None) = Some v.
Proof using Hiter.
  intros ->. rewrite size_singleton, iter_singleton. done.
Qed.

Lemma pop_not_single (s : gset cls) :
  size s ≠ 1 → (if decide (size s = 1) then head (iter s) else None) = None.
Proof. intros H. by destruct (decide (size s = 1)). Qed.

Lemma plugin_valid_subclasses_marked (st : state) (c : cls) :
  get_valid_subclasses (mark_schame_created st c) c = get_valid_subclasses st c.
Proof. symmetry. apply same_decls_valid_subclasses, mark_same_decls. Qed.

(** The single-variant case on both compilation paths at once: [e] is a
    class or a combinator. *)
Lemma compile_single_both_paths (st : state) (e : combined) (v : cls) :
  evaluate st e = {[ v ]} →
  get_pydantic_core_schema iter st e =
    (handler v,
     match e with
     | Plugin c => mark_schame_created (mark_schame_created st c) v
     | _ => mark_schame_created st v
     end).
Proof using Hiter.
  intros Hv. destruct e as [c|items|items]; simpl in Hv |- *.
  - unfold plugin_get_pydantic_core_schema, as_tagged_union.
    rewrite plugin_valid_subclasses_marked. by rewrite (pop_single _ v Hv).
  - unfold combined_get_pydantic_core_schema.
    change (evaluate st (PluganticCombinedAnd items)) with (and_items (evaluate st) None items).
    by rewrite (pop_single _ v Hv).
  - unfold combined_get_pydantic_core_schema.
    change (evaluate st (PluganticCombinedOr items)) with (or_items (evaluate st) None items).
    by rewrite (pop_single _ v Hv).
Qed.

End CompileProperties.

(** C6: when the resolved variant set holds exactly one variant, the
    compiled schema is the schema the engine gives for that variant itself,
    without a union around it, for a bare class and for a combinator. *)
Theorem compile_single (iter : gset cls → list cls) (st : state) (e : combined) (v : cls) :
  set_iteration iter →
  evaluate st e = {[ v ]} →
  (get_pydantic_core_schema iter st e).1 = handler v.
Proof.
  intros Hiter Hv. by rewrite (compile_single_both_paths iter Hiter st e v Hv).
Qed.

(** *** Python dicts *)

Section Dict.
Context {K V : Type} {HeqK : EqDecision K}.
Implicit Types (d : list (K * V)) (k : K) (v : V).

Lemma dict_set_keys k v d :
  (dict_set k v d).*1 = if decide (k ∈ d.*1) then d.*1 else d.*1 ++ [k].
Proof.
  induction d as [|[k' v'] d IH].
  - destruct (decide (k ∈ ([] : list (K * V)).*1)) as [Hin|_]; [|done].
    by apply elem_of_nil in Hin.
  - cbn [dict_set]. rewrite fmap_cons. cbn [fst].
    destruct (decide (k' = k)) as [->|Hne].
    + rewrite fmap_cons. cbn [fst].
      destruct (decide (k ∈ k :: d.*1)) as [_|Hnin]; [done|].
      exfalso. apply Hnin. left.
    + rewrite fmap_cons, IH. cbn [fst].
      destruct (decide (k ∈ d.*1)) as [Hin|Hnin];
        destruct (decide (k ∈ k' :: d.*1)) as [Hin'|Hnin']; try done.
      * exfalso. apply Hnin'. by right.
      * apply elem_of_cons in Hin' as [?|?]; congruence.
Qed.

Lemma elem_of_dict_set_keys k k' v d :
  k' ∈ (dict_set k v d).*1 ↔ k' = k ∨ k' ∈ d.*1.
Proof.
  rewrite dict_set_keys. destruct (decide (k ∈ d.*1)).
  - split; [by right|]. by intros [->|?].
  - rewrite elem_of_app, list_elem_of_singleton. tauto.
Qed.

Lemma NoDup_dict_set_keys k v d : NoDup d.*1 → NoDup (dict_set k v d).*1.
Proof.
  intros Hd. rewrite dict_set_keys. destruct (decide (k ∈ d.*1)); [done|].
  apply NoDup_app. split; [done|]. split; [|apply NoDup_singleton].
  intros x Hx ->%list_elem_of_singleton. done.
Qed.

Lemma length_dict_set k v d :
  length (dict_set k v d) = if decide (k ∈ d.*1) then length d else S (length d).
Proof.
  rewrite <- (length_fmap fst (dict_set k v d)), dict_set_keys.
  destruct (decide (k ∈ d.*1)); [by rewrite length_fmap|].
  rewrite length_app, length_fmap. simpl. lia.
Qed.

Lemma dict_get_dict_set_eq k v d : dict_get k (dict_set k v d) = Some v.
Proof.
  induction d as [|[k' v'] d IH]; csimpl.
  - by rewrite decide_True.
  - destruct (decide (k' = k)) as [->|Hne]; csimpl.
    + by rewrite decide_True.
    + by rewrite decide_False.
Qed.

Lemma dict_get_dict_set_ne k k' v d :
  k' ≠ k → dict_get k' (dict_set k v d) = dict_get k' d.
Proof.
  intros Hne. induction d as [|[k'' v''] d IH]; csimpl.
  - rewrite decide_False; [done|]. congruence.
  - destruct (decide (k'' = k)) as [->|Hne']; csimpl.
    + rewrite !decide_False; [done|congruence|congruence].
    + destruct (decide (k'' = k')); [done|apply IH].
Qed.

Lemma dict_get_is_Some k d : is_Some (dict_get k d) ↔ k ∈ d.*1.
Proof.
  induction d as [|[k' v'] d IH]; csimpl.
  - split; [by intros [? ?]|by intros ?%elem_of_nil].
  - destruct (decide (k' = k)) as [->|Hne].
    + split; [left|eauto].
    + rewrite IH. split; [by right|]. intros [?|?]%elem_of_cons; congruence.
Qed.

Lemma dict_get_elem_of k v d : dict_get k d = Some v → (k, v) ∈ d.
Proof.
  induction d as [|[k' v'] d IH]; csimpl; [done|].
  destruct (decide (k' = k)) as [->|Hne].
  - intros [= ->]. left.
  - intros ?. right. auto.
Qed.

Lemma elem_of_dict_get k v d : NoDup d.*1 → (k, v) ∈ d → dict_get k d = Some v.
Proof.
  induction d as [|[k' v'] d IH]; csimpl.
  - by intros _ ?%elem_of_nil.
  - intros [Hk' Hd]%NoDup_cons [Heq|Hin]%elem_of_cons.
    + injection Heq as -> ->. by rewrite decide_True.
    + destruct (decide (k' = k)) as [->|Hne]; [|by apply IH].
      exfalso. apply Hk'. apply list_elem_of_fmap. by exists (k, v).
Qed.

End Dict.

Section KeyCount.
Context {A K : Type} {HeqK : EqDecision K} {HcountK : Countable K} (key : A → K).
Implicit Types (l : list A).

(** Counting the keys of a dict through the set of values they range
    over. *)
Lemma length_NoDup_keys (ks ks' : list K) :
  NoDup ks → (∀ k, k ∈ ks ↔ k ∈ ks') → length ks = size (list_to_set ks' : gset K).
Proof.
  intros Hnd Hk. rewrite <- (size_list_to_set (C := gset K) ks) by done.
  f_equal. apply set_eq. intros k. by rewrite !elem_of_list_to_set.
Qed.



End KeyCount.

Section DictFold.
Context {A K V : Type} {HeqK : EqDecision K} {HcountK : Countable K}.
Context (key : A → K) (val : A → V).
Implicit Types (d : list (K * V)) (l : list A).

Lemma dict_fill_nil d : dict_fill key val d [] = d.
Proof. done. Qed.

Lemma dict_fill_cons d x l :
  dict_fill key val d (x :: l) = dict_fill key val (dict_set (key x) (val x) d) l.
Proof. done. Qed.

Lemma dict_fill_app d l1 l2 :
  dict_fill key val d (l1 ++ l2) = dict_fill key val (dict_fill key val d l1) l2.
Proof. apply foldl_app. Qed.

Lemma NoDup_dict_fill d l : NoDup d.*1 → NoDup (dict_fill key val d l).*1.
Proof.
  revert d. induction l as [|x l IH]; intros d Hd; [done|].
  rewrite dict_fill_cons. by apply IH, NoDup_dict_set_keys.
Qed.

Lemma elem_of_dict_fill_keys d l k :
  k ∈ (dict_fill key val d l).*1 ↔ k ∈ d.*1 ∨ k ∈ key <$> l.
Proof.
  revert d. induction l as [|x l IH]; intros d.
  - rewrite dict_fill_nil, fmap_nil. split; [by left|].
    intros [?|Hk]; [done|]. by apply elem_of_nil in Hk.
  - rewrite dict_fill_cons, IH, elem_of_dict_set_keys, fmap_cons, elem_of_cons. tauto.
Qed.

(** A key assigned for [x] and not again afterwards holds the value of
    [x]: a later assignment to the same key replaces an earlier one. *)
Lemma dict_get_dict_fill_last d l1 l2 x :
  key x ∉ key <$> l2 →
  dict_get (key x) (dict_fill key val d (l1 ++ x :: l2)) = Some (val x).
Proof.
  intros Hx. rewrite dict_fill_app, dict_fill_cons.
  generalize (dict_fill key val d l1). clear l1. intros d'.
  assert (Hd : dict_get (key x) (dict_set (key x) (val x) d') = Some (val x))
    by apply dict_get_dict_set_eq.
  revert Hd. generalize (dict_set (key x) (val x) d'). clear d'.
  induction l2 as [|y l2 IH]; intros d' Hd; [done|].
  rewrite fmap_cons, not_elem_of_cons in Hx. destruct Hx as [Hne Hx].
  rewrite dict_fill_cons. apply IH; [done|]. by rewrite dict_get_dict_set_ne.
Qed.

(** Every entry comes from the initial dict or from some [x]. *)
Lemma dict_get_dict_fill d l k v :
  dict_get k (dict_fill key val d l) = Some v →
  dict_get k d = Some v ∨ ∃ x, x ∈ l ∧ key x = k ∧ val x = v.
Proof.
  revert d. induction l as [|x l IH]; intros d; [by left|].
  rewrite dict_fill_cons. intros Hg. apply IH in Hg as [Hg|(y & ? & ? & ?)].
  - destruct (decide (k = key x)) as [->|Hne].
    + rewrite dict_get_dict_set_eq in Hg. injection Hg as <-.
      right. exists x. split; [left|done].
    + rewrite dict_get_dict_set_ne in Hg by done. by left.
  - right. exists y. split; [by right|done].
Qed.

Lemma dict_fill_ext (key' : A → K) d l :
  (∀ x, key x = key' x) → dict_fill key val d l = dict_fill key' val d l.
Proof.
  intros Hk. revert d. induction l as [|x l IH]; intros d; [done|].
  rewrite !dict_fill_cons. by rewrite Hk, IH.
Qed.

(** The number of entries is the number of distinct keys. *)
Lemma length_dict_fill l :
  length (dict_fill key val [] l) = size (list_to_set (key <$> l) : gset K).
Proof.
  rewrite <- (length_fmap fst (dict_fill key val [] l)).
  apply length_NoDup_keys; [apply NoDup_dict_fill; constructor|].
  intros k. rewrite elem_of_dict_fill_keys.
  split; [|by right]. intros [Hk|?]; [|done]. by apply elem_of_nil in Hk.
Qed.

End DictFold.

(** *** Compiling a bare class *)

Section PluginCompile.
Context (iter : gset cls → list cls) (Hiter : set_iteration iter).

(** With no or several valid subclasses [_as_tagged_union] marks each of
    them and builds one tagged union under the discriminator name of the
    class itself. *)
Lemma as_tagged_union_many (st : state) (c : cls) :
  size (get_valid_subclasses st c) ≠ 1 →
  as_tagged_union iter st c =
    (tagged_union_schema
       (dict_fill (get_declared_type st) handler [] (iter (get_valid_subclasses st c)))
       (plugantic_varname_type st c),
     foldl mark_schame_created st (iter (get_valid_subclasses st c))).
Proof.
  intros Hsize. unfold as_tagged_union. rewrite (pop_not_single iter _ Hsize).
  pose proof (foldl_mark_same_decls (iter (get_valid_subclasses st c)) st) as Hsame.
  f_equal. f_equal.
  - apply dict_fill_ext. intros d. symmetry. by apply same_decls_declared_type.
  - symmetry. by apply same_decls_varname_type.
Qed.

Lemma plugin_compile_many (st : state) (c : cls) :
  size (get_valid_subclasses st c) ≠ 1 →
  plugin_get_pydantic_core_schema iter st c =
    (tagged_union_schema
       (dict_fill (get_declared_type st) handler [] (iter (get_valid_subclasses st c)))
       (plugantic_varname_type st c),
     foldl mark_schame_created (mark_schame_created st c) (iter (get_valid_subclasses st c))).
Proof.
  intros Hsize. unfold plugin_get_pydantic_core_schema.
  pose proof (mark_same_decls st c) as Hsame.
  rewrite as_tagged_union_many; rewrite <- (same_decls_valid_subclasses _ _ Hsame); [|done].
  f_equal. f_equal.
  - apply dict_fill_ext. intros d. symmetry. by apply same_decls_declared_type.
  - symmetry. by apply same_decls_varname_type.
Qed.

End PluginCompile.

(** *** Compiling a combinator *)

Lemma foldl_combined_step (st st0 : state)
    (choices : list (string * list (option string * core_schema))) (l : list cls) :
  same_decls st st0 →
  foldl combined_step (choices, st0) l =
    (foldl (group_step st) choices l, foldl mark_schame_created st0 l).
Proof.
  revert choices st0. induction l as [|x l IH]; intros choices st0 Hsame; [done|].
  cbn [foldl]. unfold combined_step at 2. cbn [fst snd].
  assert (Hsame' : same_decls st (mark_schame_created st0 x)).
  { eapply same_decls_trans; [done|apply mark_same_decls]. }
  rewrite IH by done. cbn [foldl]. unfold group_step at 3.
  by rewrite <- (same_decls_varname_type _ _ Hsame' x), <- (same_decls_declared_type _ _ Hsame' x).
Qed.

Section CombinedCompile.
Context (iter : gset cls → list cls) (Hiter : set_iteration iter).

Lemma combined_compile_many (st : state) (e : combined) :
  size (evaluate st e) ≠ 1 →
  combined_get_pydantic_core_schema iter st e =
    (match unions_of (group_fill st (iter (evaluate st e))) with
     | [u] => u
     | unions => union_schema unions
     end,
     foldl mark_schame_created st (iter (evaluate st e))).
Proof.
  intros Hsize. unfold combined_get_pydantic_core_schema.
  rewrite (pop_not_single iter _ Hsize).
  rewrite (foldl_combined_step st st) by apply same_decls_refl.
  fold (group_fill st (iter (evaluate st e))).
  by destruct (unions_of (group_fill st (iter (evaluate st e)))) as [|u [|u' us]].
Qed.

End CombinedCompile.

(** C3, as the code has it: when the resolved variant set is empty,
    compiling a bare class returns a tagged union without choices under the
    discriminator name of the class, and compiling a combinator returns a
    union without members; neither raises. *)
Theorem compile_empty (iter : gset cls → list cls) (st : state) (e : combined) :
  set_iteration iter →
  evaluate st e = ∅ →
  get_pydantic_core_schema iter st e =
    match e with
    | Plugin c => (tagged_union_schema [] (plugantic_varname_type st c), mark_schame_created st c)
    | _ => (union_schema [], st)
    end.
Proof.
  intros Hiter Hempty.
  assert (Hsize : size (evaluate st e) ≠ 1) by (rewrite Hempty, size_empty; lia).
  destruct e as [c|items|items].
  - cbn [get_pydantic_core_schema]. cbn [evaluate] in Hempty, Hsize.
    rewrite (plugin_compile_many iter st c Hsize), Hempty, (iter_empty iter Hiter). done.
  - cbn [get_pydantic_core_schema].
    rewrite (combined_compile_many iter st _ Hsize), Hempty, (iter_empty iter Hiter). done.
  - cbn [get_pydantic_core_schema].
    rewrite (combined_compile_many iter st _ Hsize), Hempty, (iter_empty iter Hiter). done.
Qed.

(** *** Grouping by discriminator name *)

Section Groups.
Context (st : state).
Implicit Types (choices : list (string * list (option string * core_schema))).
Implicit Types (l : list cls) (d : string) (k : option string).

Lemma group_fill_snoc l x : group_fill st (l ++ [x]) = group_step st (group_fill st l) x.
Proof. unfold group_fill. by rewrite foldl_app. Qed.

Lemma dict_get_group_step_eq choices x :
  dict_get (plugantic_varname_type st x) (group_step st choices x) =
    Some (dict_set (get_declared_type st x) (handler x)
            (default [] (dict_get (plugantic_varname_type st x) choices))).
Proof. unfold group_step, setdefault_setitem. apply dict_get_dict_set_eq. Qed.

Lemma dict_get_group_step_ne choices x d :
  d ≠ plugantic_varname_type st x →
  dict_get d (group_step st choices x) = dict_get d choices.
Proof. intros Hne. unfold group_step, setdefault_setitem. by apply dict_get_dict_set_ne. Qed.

Lemma group_fill_groups l : groups_of st l (group_fill st l).
Proof.
  induction l as [|x l IH] using rev_ind.
  - split; try done. constructor.
  - rewrite group_fill_snoc. set (choices := group_fill st l) in *.
    destruct IH as [Hnd Hnames Hvnd Hvals Hsch].
    assert (Hinner0 : NoDup (default [] (dict_get (plugantic_varname_type st x) choices)).*1).
    { destruct (dict_get (plugantic_varname_type st x) choices) as [inner0|] eqn:E.
      - by eapply Hvnd.
      - constructor. }
    split.
    + unfold group_step, setdefault_setitem. by apply NoDup_dict_set_keys.
    + intros d. unfold group_step, setdefault_setitem.
      rewrite elem_of_dict_set_keys, Hnames, fmap_app, elem_of_app.
      rewrite fmap_cons, fmap_nil, list_elem_of_singleton. tauto.
    + intros d inner. destruct (decide (d = plugantic_varname_type st x)) as [->|Hne].
      * rewrite dict_get_group_step_eq. intros [= <-]. by apply NoDup_dict_set_keys.
      * rewrite dict_get_group_step_ne by done. apply Hvnd.
    + intros d inner. destruct (decide (d = plugantic_varname_type st x)) as [->|Hne].
      * rewrite dict_get_group_step_eq. intros [= <-] k.
        rewrite elem_of_dict_set_keys.
        destruct (dict_get (plugantic_varname_type st x) choices) as [inner0|] eqn:E; simpl.
        -- rewrite (Hvals _ _ E k). split.
           ++ intros [->|(y & ? & ? & ?)].
              ** exists x. split; [|done]. apply elem_of_app. right. left.
              ** exists y. split; [|done]. apply elem_of_app. by left.
           ++ intros (y & [Hy|Hy%list_elem_of_singleton]%elem_of_app & ? & ?).
              ** right. by exists y.
              ** left. by subst.
        -- split.
           ++ intros [->|Hk]; [|by apply elem_of_nil in Hk].
              exists x. split; [|done]. apply elem_of_app. right. left.
           ++ intros (y & [Hy|Hy%list_elem_of_singleton]%elem_of_app & Hd & ?).
              ** exfalso.
                 assert (Hs : is_Some (dict_get (plugantic_varname_type st x) choices)).
                 { apply dict_get_is_Some, Hnames, list_elem_of_fmap. by exists y. }
                 rewrite E in Hs. by destruct Hs.
              ** left. by subst.
      * rewrite dict_get_group_step_ne by done. intros E k.
        rewrite (Hvals _ _ E k). split.
        -- intros (y & ? & ? & ?). exists y. split; [|done]. apply elem_of_app. by left.
        -- intros (y & [Hy|Hy%list_elem_of_singleton]%elem_of_app & ? & ?).
           ++ by exists y.
           ++ subst. done.
    + intros d inner k s. destruct (decide (d = plugantic_varname_type st x)) as [->|Hne].
      * rewrite dict_get_group_step_eq. intros [= <-].
        destruct (decide (k = get_declared_type st x)) as [->|Hnek].
        -- rewrite dict_get_dict_set_eq. intros [= <-].
           exists x. split; [|done]. apply elem_of_app. right. left.
        -- rewrite dict_get_dict_set_ne by done.
           destruct (dict_get (plugantic_varname_type st x) choices) as [inner0|] eqn:E;
             simpl; [|done].
           intros Hk. destruct (Hsch _ _ _ _ E Hk) as (y & ? & ?).
           exists y. split; [|done]. apply elem_of_app. by left.
      * rewrite dict_get_group_step_ne by done. intros E Hk.
        destruct (Hsch _ _ _ _ E Hk) as (y & ? & ?).
        exists y. split; [|done]. apply elem_of_app. by left.
Qed.

End Groups.

Section GroupKeys.
Implicit Types (choices : list (string * list (option string * core_schema))).




End GroupKeys.

Section CompiledGroups.
Context (iter : gset cls → list cls) (Hiter : set_iteration iter).

Lemma list_to_set_iter {K : Type} {HeqK : EqDecision K} {HcountK : Countable K}
    (f : cls → K) (s : gset cls) :
  (list_to_set (f <$> iter s) : gset K) = set_map f s.
Proof using Hiter.
  apply set_eq. intros k.
  rewrite elem_of_list_to_set, list_elem_of_fmap, elem_of_map.
  split; intros (x & ? & ?); exists x; split; try done; by apply (elem_of_iter iter Hiter).
Qed.


Lemma tagged_unions_groups (choices : list (string * list (option string * core_schema))) :
  tagged_unions (match unions_of choices with
                 | [u] => u
                 | unions => union_schema unions
                 end) = choices.
Proof.
  assert (Hflat : ∀ ch, tagged_unions (union_schema (unions_of ch)) = ch).
  { induction ch as [|[d inner] ch IH]; [done|].
    cbn [unions_of map tagged_unions flat_map fst snd app]. f_equal. exact IH. }
  destruct choices as [|[d inner] [|di choices]]; [done|done|].
  apply (Hflat ((d, inner) :: di :: choices)).
Qed.


End CompiledGroups.


(** The combinator path groups by discriminator name: with two or more
    names in use among the resolved variants it returns a union with one
    tagged union per name, each under its name and holding, per value, the
    classes of that name. *)
Theorem combined_partitions (iter : gset cls → list cls) (st : state) (e : combined) :
  set_iteration iter →
  2 ≤ size (discriminator_names st (evaluate st e)) →
  ∃ choices,
    (combined_get_pydantic_core_schema iter st e).1 = union_schema (unions_of choices) ∧
    length (unions_of choices) = size (discriminator_names st (evaluate st e)) ∧
    NoDup choices.*1 ∧
    (∀ d, d ∈ choices.*1 ↔ d ∈ discriminator_names st (evaluate st e)) ∧
    (∀ d inner k, (d, inner) ∈ choices →
       k ∈ inner.*1 ↔
       ∃ x, x ∈ evaluate st e ∧ plugantic_varname_type st x = d ∧ get_declared_type st x = k).
Proof.
  intros Hiter Hnames.
  assert (Hsize : size (evaluate st e) ≠ 1).
  { intros Hsize. apply size_1_elem_of in Hsize as [x Hx]. apply leibniz_equiv in Hx.
    rewrite Hx in Hnames. unfold discriminator_names in Hnames.
    rewrite set_map_singleton_L, size_singleton in Hnames. lia. }
  exists (group_fill st (iter (evaluate st e))).
  destruct (group_fill_groups st (iter (evaluate st e))) as [Hnd Hn Hvnd Hvals _].
  assert (Hlen : length (group_fill st (iter (evaluate st e)))
                 = size (discriminator_names st (evaluate st e))).
  { rewrite <- (length_fmap fst). unfold discriminator_names.
    rewrite <- (list_to_set_iter iter Hiter). by apply length_NoDup_keys. }
  split_and!.
  - rewrite (combined_compile_many iter st e Hsize). cbn [fst].
    destruct (group_fill st (iter (evaluate st e))) as [|di [|di' choices]]; [done| |done].
    simpl in Hlen. lia.
  - unfold unions_of. by rewrite length_map.
  - done.
  - intros d. rewrite Hn. unfold discriminator_names.
    by rewrite <- (list_to_set_iter iter Hiter), elem_of_list_to_set.
  - intros d inner k Hin. apply elem_of_dict_get in Hin; [|done].
    rewrite (Hvals _ _ Hin k). split; intros (x & ? & ?); exists x; split; try done;
      by apply (elem_of_iter iter Hiter).
Qed.

(** ** Method resolution order *)

Lemma find_candidate_head (all seqs : list (list cls)) (x : cls) :
  find_candidate all seqs = Some x → ∃ s, s ∈ seqs ∧ head s = Some x.
Proof.
  induction seqs as [|s seqs IH]; simpl; [done|].
  destruct s as [|y s].
  - intros (s' & ? & ?)%IH. exists s'. split; [by right|done].
  - destruct (good_head all y).
    + intros [= ->]. exists (x :: s). split; [left|done].
    + intros (s' & ? & ?)%IH. exists s'. split; [by right|done].
Qed.

Lemma elem_of_drop_head (x y : cls) (s : list cls) :
  y ∈ s ↔ (head s = Some x ∧ y = x) ∨ y ∈ drop_head x s.
Proof.
  destruct s as [|z s]; simpl.
  - split; [by intros ?%elem_of_nil|]. by intros [[? _]|?%elem_of_nil].
  - destruct (decide (z = x)) as [->|Hne].
    + rewrite elem_of_cons. split; [intros [->|?]; auto|]. intros [[_ ->]|?]; auto.
    + split; [by right|]. intros [[[= ?] _]|?]; [done|done].
Qed.

(** A successful merge keeps exactly the classes of the merged sequences. *)
Lemma pmerge_elem_of (fuel : nat) (seqs : list (list cls)) (l : list cls) (x : cls) :
  pmerge fuel seqs = Merged l → x ∈ l ↔ ∃ s, s ∈ seqs ∧ x ∈ s.
Proof.
  revert seqs l. induction fuel as [|fuel IH]; intros seqs l; simpl.
  - destruct (forallb is_nil seqs) eqn:E; [|done]. intros [= <-].
    split; [by intros ?%elem_of_nil|]. intros (s & Hs & Hx).
    rewrite forallb_forall in E. apply list_elem_of_In, E in Hs.
    destruct s; [by apply elem_of_nil in Hx|done].
  - destruct (forallb is_nil seqs) eqn:E.
    + intros [= <-]. split; [by intros ?%elem_of_nil|]. intros (s & Hs & Hx).
      rewrite forallb_forall in E. apply list_elem_of_In, E in Hs.
      destruct s; [by apply elem_of_nil in Hx|done].
    + destruct (find_candidate seqs seqs) as [h|] eqn:Eh; [|done].
      destruct (pmerge fuel (map (drop_head h) seqs)) as [l'| |] eqn:El; [|done|done].
      intros [= <-]. rewrite elem_of_cons, (IH _ _ El). split.
      * intros [->|(s' & Hs' & Hx)].
        -- apply find_candidate_head in Eh as (s & Hs & Hh). exists s. split; [done|].
           destruct s; [done|]. injection Hh as ->. left.
        -- apply list_elem_of_fmap in Hs' as (s & -> & Hs). exists s. split; [done|].
           apply (elem_of_drop_head h). by right.
      * intros (s & Hs & Hx). apply (elem_of_drop_head h) in Hx as [[_ ->]|Hx]; [by left|].
        right. exists (drop_head h s). split; [|done].
        apply list_elem_of_fmap. by exists s.
Qed.

(** Each step of the merge takes one class away, so the total length of
    the sequences is fuel enough. *)
Lemma total_length_drop_head (h : cls) (seqs : list (list cls)) :
  (∃ s, s ∈ seqs ∧ head s = Some h) →
  total_length (map (drop_head h) seqs) < total_length seqs.
Proof.
  intros (s & Hs & Hh).
  assert (Hle : ∀ seqs', total_length (map (drop_head h) seqs') ≤ total_length seqs').
  { induction seqs' as [|s' seqs' IH]; simpl; [done|].
    assert (length (drop_head h s') ≤ length s'); [|lia].
    destruct s' as [|y s']; simpl; [done|]. destruct (decide (y = h)); simpl; lia. }
  induction seqs as [|s' seqs IH]; [by apply elem_of_nil in Hs|].
  apply elem_of_cons in Hs as [Heq|Hs]; simpl.
  - subst s'. specialize (Hle seqs). destruct s as [|y s]; [done|]. injection Hh as ->.
    simpl. rewrite decide_True by done. lia.
  - specialize (IH Hs).
    assert (length (drop_head h s') ≤ length s'); [|lia].
    destruct s' as [|y s']; simpl; [done|]. destruct (decide (y = h)); simpl; lia.
Qed.

Lemma pmerge_fuel (fuel : nat) (seqs : list (list cls)) :
  total_length seqs ≤ fuel → pmerge fuel seqs ≠ OutOfFuel.
Proof.
  revert seqs. induction fuel as [|fuel IH]; intros seqs Hlen; simpl.
  - destruct (forallb is_nil seqs) eqn:E; [done|]. exfalso.
    assert (Hall : ∀ s, s ∈ seqs → length s = 0).
    { clear E. induction seqs as [|s seqs IHs]; [by intros ? ?%elem_of_nil|].
      simpl in Hlen. intros s' [->|?]%elem_of_cons; [lia|]. apply IHs; [lia|done]. }
    apply not_true_iff_false in E. apply E. apply forallb_forall.
    intros s Hs%list_elem_of_In. apply Hall in Hs. by destruct s.
  - destruct (forallb is_nil seqs) eqn:E; [done|].
    destruct (find_candidate seqs seqs) as [h|] eqn:Eh; [|done].
    pose proof (total_length_drop_head h seqs (find_candidate_head _ _ _ Eh)) as Hlt.
    specialize (IH (map (drop_head h) seqs) ltac:(lia)).
    by destruct (pmerge fuel (map (drop_head h) seqs)).
Qed.

(** The MRO of a new class starts with the class and holds its bases,
    which are all classes of the table. *)
Lemma compute_mro_Some (st : state) (c : cls) (bs m : list cls) :
  compute_mro st c bs = Some m →
  head m = Some c ∧ Forall (λ b, b < length st) bs ∧ (∀ b, b ∈ bs → b ∈ m).
Proof.
  unfold compute_mro.
  destruct (bool_decide (bs = []) || negb (forallb (λ b, bool_decide (b < length st)) bs)
            || negb (bool_decide (NoDup bs))) eqn:E; [done|].
  apply orb_false_iff in E as [E _]. apply orb_false_iff in E as [_ E].
  apply negb_false_iff in E. rewrite forallb_forall in E.
  destruct (pmerge _ _) as [l| |] eqn:El; [|done|done].
  intros [= <-]. split; [done|]. split.
  - apply Forall_forall. intros b Hb%list_elem_of_In. apply E in Hb.
    by apply bool_decide_eq_true in Hb.
  - intros b Hb. right. apply (pmerge_elem_of _ _ _ b El). exists bs. split; [|done].
    apply elem_of_app. right. left.
Qed.

(** ** Class creation *)

Lemma alter_last (f : PyClass → PyClass) (st : state) (k : PyClass) :
  alter f (length st) (st ++ [k]) = st ++ [f k].
Proof. induction st as [|k0 st IH]; simpl; [done|]. by rewrite <- IH. Qed.

Lemma same_core_trans (k1 k2 k3 : PyClass) : same_core k1 k2 → same_core k2 k3 → same_core k1 k3.
Proof. intros (?&?&?) (?&?&?). repeat split; congruence. Qed.

Lemma extends_by_refl (st : state) (k : PyClass) : extends_by st k (st ++ [k]).
Proof. exists k. by repeat split. Qed.

Lemma extends_by_alter (f : PyClass → PyClass) (st : state) (k : PyClass) (st' : state) :
  (∀ k', same_core k' (f k')) →
  extends_by st k st' → extends_by st k (alter f (length st) st').
Proof.
  intros Hf (k' & -> & Hk). rewrite alter_last. exists (f k'). split; [done|].
  eapply same_core_trans; [done|apply Hf].
Qed.

Lemma extends_by_create_annotation (st : state) (k : PyClass) (st' : state)
    (name : string) (value : annotation) (b1 b2 : bool) :
  extends_by st k st' → extends_by st k (create_annotation st' (length st) name value b1 b2).
Proof.
  intros H. unfold create_annotation.
  destruct (_ && b1); [done|]. destruct (_ && negb b2); [done|].
  apply extends_by_alter; [|done]. intros k'. by repeat split.
Qed.

Lemma extends_by_create_field_default (st : state) (k : PyClass) (st' : state)
    (name value : string) :
  extends_by st k st' → extends_by st k (create_field_default st' (length st) name value).
Proof.
  intros H. unfold create_field_default.
  assert (Hassign : ∀ v, extends_by st k
            (if bool_decide (getattr st' (length st) name = Some v) then st'
             else alter (set_attr name v) (length st) st')).
  { intros v. destruct (bool_decide _); [done|].
    apply extends_by_alter; [|done]. intros k'. by repeat split. }
  destruct (getattr st' (length st) name) as [[v|fi]|]; try apply Hassign.
  destruct (bool_decide _); [done|apply Hassign].
Qed.

Lemma extends_by_ensure_varname_default (st : state) (k : PyClass) (st' : state) :
  extends_by st k st' → extends_by st k (ensure_varname_default st' (length st)).
Proof.
  intros H. unfold ensure_varname_default.
  destruct (negb _); [done|]. destruct (get_declared_type st' (length st)); [|done].
  by apply extends_by_create_field_default.
Qed.

(** [__init_subclass__] raises exactly when the schema-usage check is
    positive; otherwise it leaves the older classes alone and gives the
    new class its own, cleared, schema-created flag. *)
Lemma init_subclass_Raise (st : state) (c : cls) (varname_type value : option string) :
  check_plugantic_schema_usage st c = true →
  init_subclass st c varname_type value = Raise (ValueError "Schema has already been created").
Proof. intros H. unfold init_subclass. by rewrite H. Qed.

Lemma init_subclass_Return (st : state) (k : PyClass) (varname_type value : option string) :
  check_plugantic_schema_usage (st ++ [k]) (length st) = false →
  ∃ st', init_subclass (st ++ [k]) (length st) varname_type value = Return st' ∧
         extends_by st (set_was_schema_created false k) st'.
Proof.
  intros H. unfold init_subclass. rewrite H.
  destruct (match plugantic_config (st ++ [k]) (length st) with
            | Some cfg =>
                if config_truthy cfg
                then (py_or (cfg_varname_type cfg) varname_type, py_or (cfg_value cfg) value)
                else (varname_type, value)
            | None => (varname_type, value)
            end) as [vt v].
  eexists. split; [done|].
  apply extends_by_ensure_varname_default.
  assert (H1 : extends_by st (set_was_schema_created false k)
                 (alter (set_was_schema_created false) (length st) (st ++ [k]))).
  { rewrite alter_last. apply extends_by_refl. }
  assert (H2 : extends_by st (set_was_schema_created false k)
                 match vt with
                 | Some v0 => alter (set_varname_type v0) (length st)
                                (alter (set_was_schema_created false) (length st) (st ++ [k]))
                 | None => alter (set_was_schema_created false) (length st) (st ++ [k])
                 end).
  { destruct vt; [|done]. apply extends_by_alter; [|done]. intros k'. by repeat split. }
  destruct v; [|done]. by apply extends_by_create_annotation.
Qed.

Lemma init_subclass_inv (st : state) (c : cls) (varname_type value : option string) (st' : state) :
  init_subclass st c varname_type value = Return st' →
  check_plugantic_schema_usage st c = false.
Proof. unfold init_subclass. by destruct (check_plugantic_schema_usage st c). Qed.

(** A class statement that succeeds appends one class to the table. *)
Lemma declare_Return (st : state) (s : class_statement) (c : cls) (st1 : state) :
  declare st s = Return (c, st1) →
  c = length st ∧
  ∃ m, compute_mro st (length st) (stmt_bases s) = Some m ∧
       check_plugantic_schema_usage (st ++ [new_class s m]) (length st) = false ∧
       extends_by st (set_was_schema_created false (new_class s m)) st1.
Proof.
  unfold declare. destruct (compute_mro st (length st) (stmt_bases s)) as [m|] eqn:Em; [|done].
  destruct (init_subclass _ _ _ _) as [st'|] eqn:Ei; [|done].
  intros [= <- <-]. split; [done|]. exists m. split; [done|].
  pose proof (init_subclass_inv _ _ _ _ _ Ei) as Hcheck. split; [done|].
  destruct (init_subclass_Return st (new_class s m) (stmt_varname_type s) (stmt_value s) Hcheck)
    as (st'' & Ei' & Hext).
  rewrite Ei in Ei'. injection Ei' as <-.
  apply extends_by_alter; [|done]. intros k'. by repeat split.
Qed.

Lemma declare_succeeds (st : state) (s : class_statement) (m : list cls) :
  compute_mro st (length st) (stmt_bases s) = Some m →
  check_plugantic_schema_usage (st ++ [new_class s m]) (length st) = false →
  ∃ st1, declare st s = Return (length st, st1).
Proof.
  intros Em Hcheck. unfold declare. rewrite Em.
  destruct (init_subclass_Return st (new_class s m) (stmt_varname_type s) (stmt_value s) Hcheck)
    as (st' & -> & _).
  eauto.
Qed.

Lemma declare_raises (st : state) (s : class_statement) (m : list cls) :
  compute_mro st (length st) (stmt_bases s) = Some m →
  check_plugantic_schema_usage (st ++ [new_class s m]) (length st) = true →
  declare st s = Raise (ValueError "Schema has already been created").
Proof.
  intros Em Hcheck. unfold declare. rewrite Em.
  by rewrite (init_subclass_Raise _ _ _ _ Hcheck).
Qed.

(** ** Well-formed class tables *)

Lemma class_table_okb_spec (st : state) : class_table_okb st = true ↔ class_table_ok st.
Proof.
  unfold class_table_okb, class_table_ok. rewrite forallb_forall. split.
  - intros H c k Hk. apply (bool_decide_eq_true_1 (class_ok c k)).
    apply (H (c, k)). apply list_elem_of_In, elem_of_lookup_imap. eauto.
  - intros H [c k] Hin. apply bool_decide_eq_true_2.
    apply list_elem_of_In, elem_of_lookup_imap in Hin as (c' & k' & [= <- <-] & Hk). by apply H.
Qed.

Lemma class_table_ok_initial : class_table_ok initial_state.
Proof. apply class_table_okb_spec. reflexivity. Qed.

Lemma class_table_ok_bases_older (st : state) : class_table_ok st → bases_older st.
Proof.
  intros Hok c b Hb. unfold bases in Hb.
  destruct (st !! c) as [k|] eqn:E; simpl in Hb; [|by apply elem_of_nil in Hb].
  destruct (Hok _ _ E) as (_ & _ & Hbs). rewrite Forall_forall in Hbs. by apply Hbs.
Qed.

Lemma class_table_ok_mro (st : state) (c : cls) :
  class_table_ok st → c < length st → ∃ l, mro st c = c :: l.
Proof.
  intros Hok Hc. apply lookup_lt_is_Some in Hc as [k Hk].
  destruct (Hok _ _ Hk) as (Hm & _). unfold mro. rewrite Hk. simpl.
  destruct (cls_mro k) as [|c' l]; [done|]. injection Hm as ->. eauto.
Qed.

Lemma class_table_ok_alter (f : PyClass → PyClass) (c : cls) (st : state) :
  (∀ d k, class_ok d k → class_ok d (f k)) →
  class_table_ok st → class_table_ok (alter f c st).
Proof.
  intros Hf Hok d k. rewrite list_lookup_alter. destruct (decide (c = d)) as [->|Hne].
  - destruct (st !! d) as [k0|] eqn:E; simpl; [|done]. intros [= <-]. by apply Hf, Hok.
  - apply Hok.
Qed.

Lemma class_table_ok_mark (st : state) (c : cls) :
  class_table_ok st → class_table_ok (mark_schame_created st c).
Proof.
  apply class_table_ok_alter. intros d k (? & ? & ?). split; [done|]. split; [|done].
  simpl. eauto.
Qed.

Lemma class_table_ok_foldl_mark (l : list cls) (st : state) :
  class_table_ok st → class_table_ok (foldl mark_schame_created st l).
Proof.
  revert st. induction l as [|c l IH]; intros st Hok; simpl; [done|].
  by apply IH, class_table_ok_mark.
Qed.

Lemma class_table_ok_extends (st : state) (k : PyClass) (st1 : state) :
  class_table_ok st → class_ok (length st) k → extends_by st k st1 → class_table_ok st1.
Proof.
  intros Hok Hk (k' & -> & Hb & Hm & Hf) d kd Hd.
  destruct (decide (d < length st)) as [Hlt|Hge].
  - rewrite lookup_app_l in Hd by done. by apply Hok.
  - rewrite lookup_app_r in Hd by lia.
    destruct (d - length st) as [|n] eqn:En; simpl in Hd; [|done].
    injection Hd as <-. assert (d = length st) as -> by lia.
    destruct Hk as (? & ? & ?). unfold class_ok. by rewrite <- Hb, <- Hm, <- Hf.
Qed.

(** The state after a compilation is the state before it with some
    classes marked. *)
Lemma compile_state (iter : gset cls → list cls) (st : state) (e : combined) :
  ∃ l, (get_pydantic_core_schema iter st e).2 = foldl mark_schame_created st l.
Proof.
  assert (Hcombined : ∃ l, (combined_get_pydantic_core_schema iter st e).2
                           = foldl mark_schame_created st l).
  { unfold combined_get_pydantic_core_schema.
    destruct (if decide (size (evaluate st e) = 1) then head (iter (evaluate st e)) else None)
      as [subcls|].
    - by exists [subcls].
    - rewrite (foldl_combined_step st st) by apply same_decls_refl.
      exists (iter (evaluate st e)). by destruct (unions_of _) as [|u [|u' us]]. }
  destruct e as [c|items|items]; [|exact Hcombined|exact Hcombined].
  cbn [get_pydantic_core_schema]. unfold plugin_get_pydantic_core_schema, as_tagged_union.
  set (st0 := mark_schame_created st c).
  destruct (if decide (size (get_valid_subclasses st0 c) = 1)
            then head (iter (get_valid_subclasses st0 c)) else None) as [subcls|].
  - by exists [c; subcls].
  - by exists (c :: iter (get_valid_subclasses st0 c)).
Qed.

Lemma declare_class_table_ok (st : state) (s : class_statement) (c : cls) (st1 : state) :
  class_table_ok st → declare st s = Return (c, st1) → class_table_ok st1.
Proof.
  intros Hok (-> & m & Em & _ & Hext)%declare_Return.
  eapply class_table_ok_extends; [done| |done].
  apply compute_mro_Some in Em as (Hm & Hbs & _).
  split; [done|]. split; [simpl; eauto|done].
Qed.

(** Every class table a program can build is well formed. *)
Lemma reachable_class_table_ok (st : state) : reachable st → class_table_ok st.
Proof.
  induction 1 as [|st s c st' _ IH Hd|iter st e _ IH].
  - apply class_table_ok_initial.
  - by eapply declare_class_table_ok.
  - destruct (compile_state iter st e) as [l ->]. by apply class_table_ok_foldl_mark.
Qed.

(** ** Lifecycle guard *)




Section CompileMarks.
Context (iter : gset cls → list cls) (Hiter : set_iteration iter).


End CompileMarks.

Lemma same_decls_compute_mro (st st' : state) (c : cls) (bs : list cls) :
  same_decls st st' → compute_mro st c bs = compute_mro st' c bs.
Proof.
  intros H. unfold compute_mro. rewrite (same_decls_length _ _ H).
  assert (Hm : map (mro st) bs = map (mro st') bs).
  { apply map_ext. intros b. by apply same_decls_mro. }
  by rewrite Hm.
Qed.

(** The flag a class of a well-formed table answers with is its own. *)
Lemma was_schema_created_app (st : state) (knew : PyClass) (v : cls) (k : PyClass) (b : bool) :
  class_table_ok st → st !! v = Some k → was_schema_created_own k = Some b →
  plugantic_was_schema_created (st ++ [knew]) v = b.
Proof.
  intros Hok Hk Hb. unfold plugantic_was_schema_created, class_attr, mro.
  rewrite (lookup_app_l_Some _ _ _ _ Hk). simpl.
  destruct (Hok _ _ Hk) as (Hm & _).
  destruct (cls_mro k) as [|v' l]; [done|]. injection Hm as ->.
  simpl. rewrite (lookup_app_l_Some _ _ _ _ Hk). simpl. by rewrite Hb.
Qed.

Lemma first_some_not_true {A : Type} (f : A → option bool) (l : list A) :
  (∀ x, x ∈ l → f x ≠ Some true) → default false (first_some f l) = false.
Proof.
  induction l as [|x l IH]; intros H; simpl; [done|].
  destruct (f x) as [[|]|] eqn:E; simpl.
  - exfalso. apply (H x); [left|done].
  - done.
  - apply IH. intros y Hy. apply H. by right.
Qed.

(** No class of the MRO of a new class being marked, the schema-usage
    check on the new class is negative. *)
Lemma check_new_class_unmarked (st : state) (s : class_statement) (m : list cls) :
  class_table_ok st →
  (∀ d k, d ∈ m → st !! d = Some k → was_schema_created_own k ≠ Some true) →
  check_plugantic_schema_usage (st ++ [new_class s m]) (length st) = false.
Proof.
  intros Hok Hun. unfold check_plugantic_schema_usage.
  destruct (negb _); [done|].
  assert (Hmro : mro (st ++ [new_class s m]) (length st) = m).
  { unfold mro. by rewrite list_lookup_middle. }
  rewrite Hmro. apply not_true_iff_false. intros Hex.
  apply existsb_exists in Hex as (d & Hd%list_elem_of_In & Hflag).
  assert (Hown : ∀ d', d' ∈ m →
            (st ++ [new_class s m]) !! d' ≫= was_schema_created_own ≠ Some true).
  { intros d' Hd'. destruct (decide (d' < length st)) as [Hlt|Hge].
    - rewrite lookup_app_l by done. destruct (st !! d') as [k'|] eqn:E; simpl; [|done].
      by eapply Hun.
    - rewrite lookup_app_r by lia. by destruct (d' - length st) as [|[|n]]. }
  destruct (decide (d < length st)) as [Hlt|Hge].
  - apply lookup_lt_is_Some in Hlt as [k Hk].
    destruct (Hok _ _ Hk) as (_ & [b Hb] & _).
    rewrite (was_schema_created_app st _ d k b Hok Hk Hb) in Hflag. subst b.
    by eapply Hun.
  - unfold plugantic_was_schema_created, class_attr in Hflag.
    destruct (decide (d = length st)) as [->|Hne].
    + rewrite Hmro in Hflag. by rewrite first_some_not_true in Hflag.
    + unfold mro in Hflag. rewrite lookup_app_r in Hflag by lia.
      by destruct (d - length st) as [|[|n]] eqn:En; [lia| |].
Qed.

(** A marked class among the bases makes the check positive, unless the
    check is switched off. *)
Lemma check_new_class_marked (st : state) (s : class_statement) (m : list cls)
    (v : cls) (k : PyClass) :
  class_table_ok st → v ∈ m → st !! v = Some k → was_schema_created_own k = Some true →
  plugantic_check_schema_usage (st ++ [new_class s m]) (length st) = true →
  check_plugantic_schema_usage (st ++ [new_class s m]) (length st) = true.
Proof.
  intros Hok Hv Hk Hf Hcheck. unfold check_plugantic_schema_usage. rewrite Hcheck. simpl.
  assert (Hmro : mro (st ++ [new_class s m]) (length st) = m).
  { unfold mro. by rewrite list_lookup_middle. }
  rewrite Hmro. apply existsb_exists. exists v. split; [by apply list_elem_of_In|].
  by eapply was_schema_created_app.
Qed.

Lemma bases_extends_old (st : state) (k : PyClass) (st1 : state) (d : cls) :
  extends_by st k st1 → d < length st → bases st1 d = bases st d.
Proof. intros (k' & -> & _) Hd. unfold bases. by rewrite lookup_app_l. Qed.

Lemma bases_extends_new (st : state) (k : PyClass) (st1 : state) :
  extends_by st k st1 → bases st1 (length st) = cls_bases k.
Proof.
  intros (k' & -> & Hb & _). unfold bases. by rewrite list_lookup_middle, Hb.
Qed.

Lemma descendant_extends (st : state) (k : PyClass) (st1 : state) (v root : cls) :
  extends_by st k st1 → descendant st v root → descendant st1 v root.
Proof.
  intros Hext. unfold descendant. apply rtc_subrel. intros d b Hdb.
  unfold direct_base. rewrite (bases_extends_old _ _ _ _ Hext); [done|].
  by eapply direct_base_lt_length.
Qed.


(** ** Hierarchy index: the valid subclasses *)

Lemma is_valid_subclass_spec (st : state) (c : cls) :
  is_valid_subclass st c = true ↔ ∃ lit, get_declared_type st c = Some lit ∧ lit ≠ "".
Proof.
  unfold is_valid_subclass. destruct (get_declared_type st c) as [lit|]; simpl.
  - unfold str_truthy. destruct (String.eqb_spec lit ""); simpl.
    + split; [done|]. by intros (? & [= <-] & ?).
    + split; [eauto|done].
  - split; [done|]. by intros (? & ? & ?).
Qed.

(** C2, as the code has it: a class is among the valid subclasses of
    [root] exactly when the literal it declares for its discriminator is
    not the empty string and it is [root] or a descendant of [root].  The
    result is a set, so a class reached along several paths is in it once,
    and it is empty when no class below [root] declares such a literal. *)
Theorem valid_subclasses_spec (st : state) (root v : cls) :
  bases_older st →
  (v ∈ get_valid_subclasses st root ↔
     (∃ lit, get_declared_type st v = Some lit ∧ lit ≠ "") ∧ descendant st v root) ∧
  NoDup (elements (get_valid_subclasses st root)) ∧
  ((∀ d, descendant st d root → ¬ ∃ lit, get_declared_type st d = Some lit ∧ lit ≠ "") →
   get_valid_subclasses st root = ∅).
Proof.
  intros Hwf. split_and!.
  - by rewrite get_valid_subclasses_spec, is_valid_subclass_spec.
  - apply NoDup_elements.
  - intros Hnone. apply set_eq. intros d.
    rewrite get_valid_subclasses_spec, is_valid_subclass_spec by done.
    split; [|by intros ?%elem_of_empty]. intros [Hlit Hd]. by destruct (Hnone d Hd).
Qed.

(** ** Discriminator bookkeeping *)

Lemma getattr_alter_set_attr (st : state) (c : cls) (name : string) (a : attr) :
  class_table_ok st → c < length st →
  getattr (alter (set_attr name a) c st) c name = Some a.
Proof.
  intros Hok Hc. destruct (class_table_ok_mro st c Hok Hc) as [l Hl].
  apply lookup_lt_is_Some in Hc as [k Hk].
  unfold getattr, class_attr, mro. rewrite list_lookup_alter, decide_True by done.
  rewrite Hk. simpl. unfold mro in Hl. rewrite Hk in Hl. simpl in Hl. rewrite Hl. simpl.
  rewrite list_lookup_alter, decide_True by done. rewrite Hk. simpl.
  by rewrite lookup_insert_eq.
Qed.

Lemma merge_field_infos_default (fi : gmap string pyval) (v : pyval) :
  merge_field_infos fi (Field v) !! "default" = Some v.
Proof.
  unfold merge_field_infos, Field. apply lookup_union_Some_l. apply lookup_singleton_eq.
Qed.

Lemma merge_field_infos_other (fi : gmap string pyval) (v : pyval) (key : string) :
  key ≠ "default" → merge_field_infos fi (Field v) !! key = fi !! key.
Proof.
  intros Hne. unfold merge_field_infos, Field. apply lookup_union_r.
  by apply lookup_singleton_ne.
Qed.

(** On a field info, [_create_field_default] merges the default in. *)
Lemma create_field_default_field_info (st : state) (c : cls) (name value : string)
    (fi : gmap string pyval) :
  class_table_ok st → c < length st →
  getattr st c name = Some (AttrFieldInfo fi) →
  ∃ fi', getattr (create_field_default st c name value) c name = Some (AttrFieldInfo fi') ∧
         fi' !! "default" = Some (VStr value) ∧
         ∀ key, key ≠ "default" → fi' !! key = fi !! key.
Proof.
  intros Hok Hc Hattr. unfold create_field_default. rewrite Hattr.
  destruct (bool_decide (fi !! "default" = Some (VStr value))) eqn:E.
  - apply bool_decide_eq_true in E. exists fi. by rewrite Hattr.
  - exists (merge_field_infos fi (Field (VStr value))).
    split; [|split; [apply merge_field_infos_default|apply merge_field_infos_other]].
    destruct (bool_decide (Some (AttrFieldInfo fi)
                = Some (AttrFieldInfo (merge_field_infos fi (Field (VStr value)))))) eqn:E'.
    + apply bool_decide_eq_true in E'. by rewrite Hattr.
    + by apply getattr_alter_set_attr.
Qed.


(** What [_ensure_varname_default] registers for a non-empty literal. *)
Lemma ensure_varname_default_registers (st : state) (c : cls) (lit : string) :
  class_table_ok st → c < length st →
  get_declared_type st c = Some lit → lit ≠ "" →
  getattr (ensure_varname_default st c) c (plugantic_varname_type st c) ≫= attr_default
    = Some (VStr lit).
Proof.
  intros Hok Hc Hlit Hne. unfold ensure_varname_default. rewrite Hlit. simpl.
  assert (Ht : str_truthy lit = true).
  { unfold str_truthy. by destruct (String.eqb_spec lit ""). }
  rewrite Ht. simpl. set (name := plugantic_varname_type st c).
  destruct (getattr st c name) as [[v|fi]|] eqn:Hattr.
  - unfold create_field_default. rewrite Hattr.
    destruct (bool_decide (Some (AttrValue v) = Some (AttrValue (VStr lit)))) eqn:E.
    + apply bool_decide_eq_true in E. by rewrite Hattr, E.
    + by rewrite getattr_alter_set_attr.
  - destruct (create_field_default_field_info st c name lit fi Hok Hc Hattr)
      as (fi' & -> & Hd & _). done.
  - unfold create_field_default. rewrite Hattr.
    rewrite bool_decide_eq_false_2 by done. by rewrite getattr_alter_set_attr.
Qed.

Lemma get_declared_type_annotation (st : state) (c : cls) (lit : string) :
  get_declared_type st c = Some lit ↔
  ∃ rest, get_declared_annotation st c (plugantic_varname_type st c) = Some (Literal lit rest).
Proof.
  unfold get_declared_type.
  destruct (get_declared_annotation st c (plugantic_varname_type st c)) as [[a0 l|r]|]; simpl.
  - split; [intros [= ->]; eauto|]. by intros (rest & [= -> _]).
  - split; [done|]. by intros (? & ?).
  - split; [done|]. by intros (? & ?).
Qed.


(** C10, as the code has it: for a class whose discriminator field is
    annotated with a [Literal] of two or more values, the declared type is
    the first value alone.  When that value is not the empty string it is
    the default that is registered; and in every tagged union compiled from
    a resolved set that holds the class, the first value is a key, and the
    schema of the class is filed under no other key. *)
Theorem literal_first_argument (iter : gset cls → list cls) (st : state) (c : cls)
    (a b : string) (rest : list string) :
  set_iteration iter →
  class_table_ok st → c < length st →
  get_declared_annotation st c (plugantic_varname_type st c) = Some (Literal a (b :: rest)) →
  get_declared_type st c = Some a ∧
  (a ≠ "" →
   getattr (ensure_varname_default st c) c (plugantic_varname_type st c) ≫= attr_default
     = Some (VStr a)) ∧
  (∀ e, c ∈ evaluate st e → size (evaluate st e) ≠ 1 →
     (∃ d choices, (d, choices) ∈ tagged_unions (get_pydantic_core_schema iter st e).1 ∧
                   Some a ∈ choices.*1) ∧
     (∀ d choices k, (d, choices) ∈ tagged_unions (get_pydantic_core_schema iter st e).1 →
                     (k, handler c) ∈ choices → k = Some a)).
Proof.
  intros Hiter Hok Hc Hann.
  assert (Hdecl : get_declared_type st c = Some a).
  { apply get_declared_type_annotation. eauto. }
  split; [done|]. split; [intros Hne; by apply ensure_varname_default_registers|].
  intros e Hin Hsize. apply (elem_of_iter iter Hiter) in Hin.
  assert (Hcombined :
    (∃ d choices, (d, choices) ∈ tagged_unions (combined_get_pydantic_core_schema iter st e).1 ∧
                  Some a ∈ choices.*1) ∧
    (∀ d choices k, (d, choices) ∈ tagged_unions (combined_get_pydantic_core_schema iter st e).1 →
                    (k, handler c) ∈ choices → k = Some a)).
  { rewrite (combined_compile_many iter st e Hsize). cbn [fst]. rewrite tagged_unions_groups.
    destruct (group_fill_groups st (iter (evaluate st e))) as [Hnd Hnames Hvnd Hvals Hsch].
    split.
    - assert (Hs : is_Some (dict_get (plugantic_varname_type st c)
                              (group_fill st (iter (evaluate st e))))).
      { apply dict_get_is_Some, Hnames, list_elem_of_fmap. by exists c. }
      destruct Hs as [inner Hinner]. exists (plugantic_varname_type st c), inner.
      split; [by apply dict_get_elem_of|]. apply (Hvals _ _ Hinner). by exists c.
    - intros d choices k Hd Hk. apply elem_of_dict_get in Hd; [|done].
      apply elem_of_dict_get in Hk; [|by eapply Hvnd].
      destruct (Hsch _ _ _ _ Hd Hk) as (x & _ & _ & <- & [= <-]). done. }
  destruct e as [root|items|items]; [|exact Hcombined|exact Hcombined].
  clear Hcombined. cbn [get_pydantic_core_schema]. cbn [evaluate] in Hin, Hsize.
  rewrite (plugin_compile_many iter st root Hsize). cbn [fst tagged_unions]. split.
  - eexists _, _. split; [left|]. apply elem_of_dict_fill_keys. right.
    apply list_elem_of_fmap. by exists c.
  - intros d choices k [= _ ->]%list_elem_of_singleton Hk.
    apply elem_of_dict_get in Hk; [|apply NoDup_dict_fill; constructor].
    apply dict_get_dict_fill in Hk as [Hk|(x & _ & <- & [= ->])]; [done|done].
Qed.

(** * The properties on the sample programs *)

Lemma sorted_iteration_ok : set_iteration sorted_iteration.
Proof. intros s. reflexivity. Defined.

(** Closed decidable facts are settled by evaluation. *)
Ltac by_evaluation :=
  match goal with
  | |- ?P => apply (bool_decide_unpack P); vm_compute; exact I
  end.

Lemma valid_subclasses_spec_witness :
  bases_older zoo ∧
  ((4 ∈ get_valid_subclasses zoo 1 ↔
      (∃ lit, get_declared_type zoo 4 = Some lit ∧ lit ≠ "") ∧ descendant zoo 4 1) ∧
   NoDup (elements (get_valid_subclasses zoo 1)) ∧
   ((∀ d, descendant zoo d 1 → ¬ ∃ lit, get_declared_type zoo d = Some lit ∧ lit ≠ "") →
    get_valid_subclasses zoo 1 = ∅)).
Proof.
  assert (H : bases_older zoo) by (apply bases_olderb_spec; vm_compute; reflexivity).
  split; [exact H|]. exact (valid_subclasses_spec zoo 1 4 H).
Defined.

(** In [zoo], [DogCat] is below [Animal] along two paths and is counted
    once among its three valid subclasses. *)
Lemma zoo_valid_subclasses : get_valid_subclasses zoo 1 = {[ 2; 3; 4 ]}.
Proof. by_evaluation. Qed.

(** C2 fails as stated: [Nameless] declares the literal [""] and is a
    subclass of [Animal], yet it is not among the valid subclasses. *)
Lemma valid_subclasses_counterexample :
  ¬ (2 ∈ get_valid_subclasses nameless 1 ↔
     has_declared_literal nameless 2 ∧ descendant nameless 2 1).
Proof.
  intros [_ H].
  assert (Hin : 2 ∈ get_valid_subclasses nameless 1).
  { apply H. split.
    - exists "". vm_compute. reflexivity.
    - apply rtc_once. unfold direct_base. by_evaluation. }
  revert Hin. by_evaluation.
Qed.

Lemma compile_empty_witness :
  set_iteration sorted_iteration ∧
  evaluate nameless (PluganticCombinedAnd [Plugin 1; Plugin 2]) = ∅ ∧
  get_pydantic_core_schema sorted_iteration nameless (PluganticCombinedAnd [Plugin 1; Plugin 2])
    = (union_schema [], nameless).
Proof.
  assert (H : evaluate nameless (PluganticCombinedAnd [Plugin 1; Plugin 2]) = ∅)
    by by_evaluation.
  split; [exact sorted_iteration_ok|]. split; [exact H|].
  exact (compile_empty sorted_iteration nameless _ sorted_iteration_ok H).
Defined.

(** C3 fails as stated: no class below [Animal] is a valid subclass in
    [nameless], and compiling [Animal], or [Animal & Nameless], returns a
    union without choices instead of raising. *)
Lemma compile_empty_counterexample :
  evaluate nameless (Plugin 1) = ∅ ∧
  (get_pydantic_core_schema sorted_iteration nameless (Plugin 1)).1
    = tagged_union_schema [] "type" ∧
  evaluate nameless (PluganticCombinedAnd [Plugin 1; Plugin 2]) = ∅ ∧
  (get_pydantic_core_schema sorted_iteration nameless
     (PluganticCombinedAnd [Plugin 1; Plugin 2])).1 = union_schema [].
Proof.
  split_and!.
  - by_evaluation.
  - vm_compute. reflexivity.
  - by_evaluation.
  - vm_compute. reflexivity.
Qed.

(** C4 on the bare path: the valid subclasses of [Base] in [mixed] use the
    two discriminator names [type] and [kind], and compiling [Base] returns
    one tagged union under [type] that holds both, where compiling the
    combinator [B | K] returns a union of one tagged union per name. *)
Theorem bare_compile_mixed_names :
  evaluate mixed (Plugin 1) = {[ 2; 3 ]} ∧
  discriminator_names mixed (evaluate mixed (Plugin 1)) = {[ "type"; "kind" ]} ∧
  (get_pydantic_core_schema sorted_iteration mixed (Plugin 1)).1
    = tagged_union_schema [(Some "b", handler 2); (Some "k", handler 3)] "type" ∧
  (get_pydantic_core_schema sorted_iteration mixed
     (PluganticCombinedOr [Plugin 2; Plugin 3])).1
    = union_schema [tagged_union_schema [(Some "b", handler 2)] "type";
                    tagged_union_schema [(Some "k", handler 3)] "kind"].
Proof.
  split_and!.
  - by_evaluation.
  - by_evaluation.
  - vm_compute. reflexivity.
  - vm_compute. reflexivity.
Qed.

Lemma combined_partitions_witness :
  set_iteration sorted_iteration ∧
  2 ≤ size (discriminator_names mixed (evaluate mixed (PluganticCombinedOr [Plugin 2; Plugin 3]))) ∧
  ∃ choices,
    (combined_get_pydantic_core_schema sorted_iteration mixed
       (PluganticCombinedOr [Plugin 2; Plugin 3])).1 = union_schema (unions_of choices) ∧
    length (unions_of choices) = 2.
Proof.
  assert (H : size (discriminator_names mixed
                      (evaluate mixed (PluganticCombinedOr [Plugin 2; Plugin 3]))) = 2)
    by (vm_compute; reflexivity).
  split; [exact sorted_iteration_ok|]. split; [rewrite H; lia|].
  destruct (combined_partitions sorted_iteration mixed (PluganticCombinedOr [Plugin 2; Plugin 3])
              sorted_iteration_ok) as (choices & Hs & Hl & _).
  - rewrite H. lia.
  - exists choices. split; [exact Hs|]. by rewrite Hl, H.
Defined.



Lemma compile_single_witness :
  set_iteration sorted_iteration ∧
  evaluate zoo (Plugin 4) = {[ 4 ]} ∧
  (get_pydantic_core_schema sorted_iteration zoo (Plugin 4)).1 = handler 4 ∧
  evaluate zoo (PluganticCombinedAnd [Plugin 2; Plugin 3]) = {[ 4 ]} ∧
  (get_pydantic_core_schema sorted_iteration zoo (PluganticCombinedAnd [Plugin 2; Plugin 3])).1
    = handler 4.
Proof.
  assert (H1 : evaluate zoo (Plugin 4) = {[ 4 ]}) by by_evaluation.
  assert (H2 : evaluate zoo (PluganticCombinedAnd [Plugin 2; Plugin 3]) = {[ 4 ]})
    by by_evaluation.
  split; [exact sorted_iteration_ok|]. split; [exact H1|].
  split; [exact (compile_single sorted_iteration zoo _ 4 sorted_iteration_ok H1)|].
  split; [exact H2|].
  exact (compile_single sorted_iteration zoo _ 4 sorted_iteration_ok H2).
Defined.






Lemma literal_first_argument_witness :
  set_iteration sorted_iteration ∧
  class_table_ok (annotated "circle" ["disc"]) ∧ 1 < length (annotated "circle" ["disc"]) ∧
  get_declared_annotation (annotated "circle" ["disc"]) 1
      (plugantic_varname_type (annotated "circle" ["disc"]) 1)
    = Some (Literal "circle" ["disc"]) ∧
  get_declared_type (annotated "circle" ["disc"]) 1 = Some "circle" ∧
  getattr (ensure_varname_default (annotated "circle" ["disc"]) 1) 1
      (plugantic_varname_type (annotated "circle" ["disc"]) 1) ≫= attr_default
    = Some (VStr "circle").
Proof.
  assert (Hok : class_table_ok (annotated "circle" ["disc"]))
    by (apply class_table_okb_spec; vm_compute; reflexivity).
  assert (Hc : 1 < length (annotated "circle" ["disc"])) by (vm_compute; lia).
  assert (Hann : get_declared_annotation (annotated "circle" ["disc"]) 1
                   (plugantic_varname_type (annotated "circle" ["disc"]) 1)
                 = Some (Literal "circle" ["disc"])) by (vm_compute; reflexivity).
  split; [exact sorted_iteration_ok|]. do 3 (split; [assumption|]).
  destruct (literal_first_argument sorted_iteration (annotated "circle" ["disc"]) 1
              "circle" "disc" [] sorted_iteration_ok Hok Hc Hann) as (Hdecl & Hdef & _).
  split; [exact Hdecl|]. apply Hdef. discriminate.
Defined.

(** C10 fails as stated: with [Literal["", "x"]] the first value is the
    declared type, but no default is registered for the field, whose field
    info is left without one. *)
Lemma literal_first_argument_counterexample :
  get_declared_annotation (annotated "" ["x"]) 1 (plugantic_varname_type (annotated "" ["x"]) 1)
    = Some (Literal "" ["x"]) ∧
  get_declared_type (annotated "" ["x"]) 1 = Some "" ∧
  getattr (ensure_varname_default (annotated "" ["x"]) 1) 1
      (plugantic_varname_type (annotated "" ["x"]) 1) ≫= attr_default = None.
Proof. split_and!; vm_compute; reflexivity. Qed.

(** * Further properties *)

(** ** Combinators with any number of operands *)

Lemma elem_of_foldl_intersection_items (ev : combined → gset cls) (l : list combined)
    (s : gset cls) (v : cls) :
  v ∈ foldl (λ acc item, acc ∩ ev item) s l ↔ v ∈ s ∧ ∀ item, item ∈ l → v ∈ ev item.
Proof.
  revert s. induction l as [|a l IH]; intros s; simpl.
  - split; [|by intros [? _]]. intros Hv. split; [done|]. by intros item ?%elem_of_nil.
  - rewrite IH, elem_of_intersection. split.
    + intros [[Hs Ha] Hl]. split; [done|]. intros item [->|?]%elem_of_cons; auto.
    + intros [Hs Hl]. split; [split; [done|]|].
      * apply Hl. left.
      * intros item Hitem. apply Hl. by right.
Qed.

Lemma elem_of_foldl_union_items (ev : combined → gset cls) (l : list combined)
    (s : gset cls) (v : cls) :
  v ∈ foldl (λ acc item, acc ∪ ev item) s l ↔ v ∈ s ∨ ∃ item, item ∈ l ∧ v ∈ ev item.
Proof.
  revert s. induction l as [|a l IH]; intros s; simpl.
  - split; [by left|]. intros [?|(item & Hitem & _)]; [done|]. by apply elem_of_nil in Hitem.
  - rewrite IH, elem_of_union. split.
    + intros [[?|?]|(item & Hitem & Hv)]; [by left| |].
      * right. exists a. split; [left|done].
      * right. exists item. split; [by right|done].
    + intros [?|(item & Hitem & Hv)]; [by left; left|].
      apply elem_of_cons in Hitem as [->|Hitem]; [by left; right|].
      right. by exists item.
Qed.

Lemma elem_of_evaluate_and (st : state) (items : list combined) (v : cls) :
  v ∈ evaluate st (PluganticCombinedAnd items) ↔
  items ≠ [] ∧ ∀ item, item ∈ items → v ∈ evaluate st item.
Proof.
  destruct items as [|A items].
  - split; [by intros ?%elem_of_empty|]. by intros [? _].
  - rewrite evaluate_and_chain, elem_of_foldl_intersection_items. split.
    + intros [HA Hl]. split; [done|]. intros item [->|?]%elem_of_cons; auto.
    + intros [_ Hl]. split; [apply Hl; left|]. intros item Hitem. apply Hl. by right.
Qed.

Lemma elem_of_evaluate_or (st : state) (items : list combined) (v : cls) :
  v ∈ evaluate st (PluganticCombinedOr items) ↔
  ∃ item, item ∈ items ∧ v ∈ evaluate st item.
Proof.
  destruct items as [|A items].
  - split; [by intros ?%elem_of_empty|]. by intros (item & ?%elem_of_nil & _).
  - rewrite evaluate_or_chain, elem_of_foldl_union_items. split.
    + intros [HA|(item & Hitem & Hv)].
      * exists A. split; [left|done].
      * exists item. split; [by right|done].
    + intros (item & [->|Hitem]%elem_of_cons & Hv); [by left|].
      right. by exists item.
Qed.

(** X1: a class is in the set of an AND with any number of operands
    exactly when there is at least one operand and the class is in the set
    of every operand; it is in the set of an OR exactly when it is in the
    set of some operand.  Without operands both sets are empty. *)
Theorem evaluate_items (st : state) (items : list combined) (v : cls) :
  (v ∈ evaluate st (PluganticCombinedAnd items) ↔
     items ≠ [] ∧ ∀ item, item ∈ items → v ∈ evaluate st item) ∧
  (v ∈ evaluate st (PluganticCombinedOr items) ↔
     ∃ item, item ∈ items ∧ v ∈ evaluate st item).
Proof. split; [apply elem_of_evaluate_and|apply elem_of_evaluate_or]. Qed.

Lemma evaluate_and_binary (st : state) (A B : combined) :
  evaluate st (PluganticCombinedAnd [A; B]) = evaluate st A ∩ evaluate st B.
Proof. by rewrite evaluate_and_chain. Qed.

Lemma evaluate_or_binary (st : state) (A B : combined) :
  evaluate st (PluganticCombinedOr [A; B]) = evaluate st A ∪ evaluate st B.
Proof. by rewrite evaluate_or_chain. Qed.

(** X2: how the combinators compose.  Nesting to the left, nesting to the
    right and one node with three operands resolve to the same set; an
    operand combined with itself, and a node with a single operand, resolve
    to the set of the operand; AND and OR absorb and distribute over each
    other. *)
Theorem combinator_laws (st : state) (A B C : combined) :
  evaluate st (PluganticCombinedAnd [PluganticCombinedAnd [A; B]; C])
    = evaluate st (PluganticCombinedAnd [A; B; C]) ∧
  evaluate st (PluganticCombinedAnd [A; PluganticCombinedAnd [B; C]])
    = evaluate st (PluganticCombinedAnd [A; B; C]) ∧
  evaluate st (PluganticCombinedOr [PluganticCombinedOr [A; B]; C])
    = evaluate st (PluganticCombinedOr [A; B; C]) ∧
  evaluate st (PluganticCombinedOr [A; PluganticCombinedOr [B; C]])
    = evaluate st (PluganticCombinedOr [A; B; C]) ∧
  evaluate st (PluganticCombinedAnd [A; A]) = evaluate st A ∧
  evaluate st (PluganticCombinedOr [A; A]) = evaluate st A ∧
  evaluate st (PluganticCombinedAnd [A]) = evaluate st A ∧
  evaluate st (PluganticCombinedOr [A]) = evaluate st A ∧
  evaluate st (PluganticCombinedAnd [A; PluganticCombinedOr [A; B]]) = evaluate st A ∧
  evaluate st (PluganticCombinedOr [A; PluganticCombinedAnd [A; B]]) = evaluate st A ∧
  evaluate st (PluganticCombinedAnd [PluganticCombinedOr [A; B]; C])
    = evaluate st (PluganticCombinedOr [PluganticCombinedAnd [A; C];
                                         PluganticCombinedAnd [B; C]]) ∧
  evaluate st (PluganticCombinedOr [PluganticCombinedAnd [A; B]; C])
    = evaluate st (PluganticCombinedAnd [PluganticCombinedOr [A; C];
                                          PluganticCombinedOr [B; C]]).
Proof.
  rewrite !evaluate_and_chain, !evaluate_or_chain. cbn [foldl].
  rewrite !evaluate_and_chain, !evaluate_or_chain. cbn [foldl].
  generalize (evaluate st A) (evaluate st B) (evaluate st C). intros a b c.
  split_and!; apply set_eq; intros x;
    rewrite ?elem_of_intersection, ?elem_of_union, ?elem_of_intersection, ?elem_of_union;
    tauto.
Qed.

(** ** What a resolved set holds *)

Lemma elem_of_leaves_and (items : list combined) (c : cls) :
  c ∈ leaves (PluganticCombinedAnd items) ↔ ∃ item, item ∈ items ∧ c ∈ leaves item.
Proof.
  cbn [leaves]. rewrite list_elem_of_In, in_concat. split.
  - intros (l & Hl & Hc). apply in_map_iff in Hl as (item & <- & Hitem).
    exists item. by rewrite !list_elem_of_In.
  - intros (item & Hitem & Hc). exists (leaves item). rewrite <- !list_elem_of_In.
    split; [|done]. apply list_elem_of_In, in_map, list_elem_of_In, Hitem.
Qed.

Lemma elem_of_leaves_or (items : list combined) (c : cls) :
  c ∈ leaves (PluganticCombinedOr items) ↔ ∃ item, item ∈ items ∧ c ∈ leaves item.
Proof. apply (elem_of_leaves_and items c). Qed.

Lemma evaluate_members (st : state) (e : combined) (v : cls) :
  bases_older st →
  v ∈ evaluate st e →
  is_valid_subclass st v = true ∧ ∃ root, root ∈ leaves e ∧ descendant st v root.
Proof.
  intros Hwf. revert v. induction e as [c|items IH|items IH] using combined_ind_items; intros v.
  - cbn [evaluate]. rewrite get_valid_subclasses_spec by done. intros [? ?].
    split; [done|]. exists c. split; [left|done].
  - rewrite elem_of_evaluate_and. intros [Hne Hall].
    destruct items as [|A items]; [done|].
    apply Forall_cons in IH as [IHA _].
    destruct (IHA v (Hall A ltac:(left))) as (Hvalid & root & Hroot & Hd).
    split; [done|]. exists root. split; [|done].
    apply elem_of_leaves_and. exists A. split; [left|done].
  - rewrite elem_of_evaluate_or. intros (item & Hitem & Hv).
    rewrite Forall_forall in IH.
    destruct (IH item Hitem v Hv) as (Hvalid & root & Hroot & Hd).
    split; [done|]. exists root. split; [|done].
    apply elem_of_leaves_or. by exists item.
Qed.

(** X3: whatever the expression, a class of its resolved set is a valid
    subclass, so it declares a non-empty literal, and it is one of the
    classes the expression is built from or a descendant of one. *)
Theorem resolved_set_members (st : state) (e : combined) (v : cls) :
  bases_older st →
  v ∈ evaluate st e →
  (∃ lit, get_declared_type st v = Some lit ∧ lit ≠ "") ∧
  ∃ root, root ∈ leaves e ∧ descendant st v root.
Proof.
  intros Hwf Hv. destruct (evaluate_members st e v Hwf Hv) as [Hvalid Hroot].
  split; [by apply is_valid_subclass_spec|done].
Qed.

Lemma resolved_set_members_witness :
  bases_older zoo ∧
  4 ∈ evaluate zoo (PluganticCombinedAnd [Plugin 2; PluganticCombinedOr [Plugin 3; Plugin 1]]) ∧
  (∃ lit, get_declared_type zoo 4 = Some lit ∧ lit ≠ "") ∧
  ∃ root, root ∈ leaves (PluganticCombinedAnd [Plugin 2; PluganticCombinedOr [Plugin 3; Plugin 1]])
          ∧ descendant zoo 4 root.
Proof.
  assert (H : bases_older zoo) by (apply bases_olderb_spec; vm_compute; reflexivity).
  assert (Hv : 4 ∈ evaluate zoo
                 (PluganticCombinedAnd [Plugin 2; PluganticCombinedOr [Plugin 3; Plugin 1]]))
    by by_evaluation.
  split; [exact H|]. split; [exact Hv|].
  exact (resolved_set_members zoo _ 4 H Hv).
Defined.

(** ** What a compilation changes *)

Lemma same_decls_sym (st st' : state) : same_decls st st' → same_decls st' st.
Proof.
  induction 1 as [|k k' st st' (?&?&?&?&?) _ IH]; constructor; [|done].
  by repeat split.
Qed.

Lemma same_decls_group_fill (st st' : state) (l : list cls) :
  same_decls st st' → group_fill st l = group_fill st' l.
Proof.
  intros H. unfold group_fill. generalize ([] : list (string * list (option string * core_schema))).
  induction l as [|x l IH]; intros choices; [done|]. cbn [foldl]. rewrite IH. f_equal.
  unfold group_step.
  by rewrite (same_decls_varname_type _ _ H), (same_decls_declared_type _ _ H).
Qed.

Lemma same_decls_compiled_schema (iter : gset cls → list cls) (st st' : state) (e : combined) :
  same_decls st st' → compiled_schema iter st e = compiled_schema iter st' e.
Proof.
  intros H. unfold compiled_schema. rewrite (same_decls_evaluate _ _ e H).
  destruct (if decide (size (evaluate st' e) = 1) then head (iter (evaluate st' e)) else None);
    [done|].
  destruct e as [c|items|items].
  - rewrite (same_decls_varname_type _ _ H). f_equal.
    apply dict_fill_ext. intros d. by apply same_decls_declared_type.
  - by rewrite (same_decls_group_fill _ _ _ H).
  - by rewrite (same_decls_group_fill _ _ _ H).
Qed.

Lemma same_decls_marked_by (iter : gset cls → list cls) (st st' : state) (e : combined) :
  same_decls st st' → marked_by iter st e = marked_by iter st' e.
Proof. intros H. unfold marked_by. by rewrite (same_decls_evaluate _ _ e H). Qed.

(** Both compilation paths in one equation. *)
Lemma compile_normal_form (iter : gset cls → list cls) (st : state) (e : combined) :
  get_pydantic_core_schema iter st e =
    (compiled_schema iter st e, foldl mark_schame_created st (marked_by iter st e)).
Proof.
  assert (Hcombined : combined_get_pydantic_core_schema iter st e =
            (match (if decide (size (evaluate st e) = 1)
                    then head (iter (evaluate st e)) else None) with
             | Some subcls => handler subcls
             | None => match unions_of (group_fill st (iter (evaluate st e))) with
                       | [u] => u
                       | unions => union_schema unions
                       end
             end,
             foldl mark_schame_created st
               match (if decide (size (evaluate st e) = 1)
                      then head (iter (evaluate st e)) else None) with
               | Some subcls => [subcls]
               | None => iter (evaluate st e)
               end)).
  { unfold combined_get_pydantic_core_schema.
    destruct (if decide (size (evaluate st e) = 1) then head (iter (evaluate st e)) else None);
      [done|].
    rewrite (foldl_combined_step st st) by apply same_decls_refl.
    fold (group_fill st (iter (evaluate st e))).
    by destruct (unions_of (group_fill st (iter (evaluate st e)))) as [|u [|u' us]]. }
  destruct e as [c|items|items]; [|exact Hcombined|exact Hcombined].
  clear Hcombined. cbn [get_pydantic_core_schema]. unfold compiled_schema, marked_by.
  cbn [evaluate foldl]. unfold plugin_get_pydantic_core_schema, as_tagged_union.
  pose proof (mark_same_decls st c) as Hsame.
  rewrite <- (same_decls_valid_subclasses _ _ Hsame).
  destruct (if decide (size (get_valid_subclasses st c) = 1)
            then head (iter (get_valid_subclasses st c)) else None); [done|].
  pose proof (foldl_mark_same_decls (iter (get_valid_subclasses st c))
                (mark_schame_created st c)) as Hsame'.
  pose proof (same_decls_trans _ _ _ Hsame Hsame') as Hsame''.
  f_equal. rewrite <- (same_decls_varname_type _ _ Hsame''). f_equal.
  apply dict_fill_ext. intros d. symmetry. by apply same_decls_declared_type.
Qed.

Lemma set_was_schema_created_idemp (k : PyClass) :
  set_was_schema_created true (set_was_schema_created true k) = set_was_schema_created true k.
Proof. done. Qed.

(** The class table after marking the classes of a list. *)
Lemma foldl_mark_lookup (l : list cls) (st : state) (d : cls) :
  foldl mark_schame_created st l !! d =
    if decide (d ∈ l) then set_was_schema_created true <$> st !! d else st !! d.
Proof.
  revert st. induction l as [|a l IH]; intros st.
  - cbn [foldl]. destruct (decide (d ∈ [])) as [Hd|_]; [by apply elem_of_nil in Hd|done].
  - cbn [foldl]. rewrite IH. unfold mark_schame_created at 1 2.
    rewrite list_lookup_alter.
    destruct (decide (d ∈ l)) as [Hl|Hl]; destruct (decide (d ∈ a :: l)) as [Hal|Hal];
      destruct (decide (a = d)) as [->|Hne]; try done.
    + destruct (st !! d); [|done]. simpl. by rewrite set_was_schema_created_idemp.
    + exfalso. apply Hal. by apply elem_of_cons; right.
    + exfalso. apply Hal. by apply elem_of_cons; right.
    + apply elem_of_cons in Hal as [?|?]; congruence.
    + exfalso. apply Hal. apply elem_of_cons. by left.
Qed.

Lemma foldl_mark_idemp (l : list cls) (st : state) :
  foldl mark_schame_created (foldl mark_schame_created st l) l = foldl mark_schame_created st l.
Proof.
  apply list_eq. intros d. rewrite !foldl_mark_lookup.
  destruct (decide (d ∈ l)); [|done].
  destruct (st !! d); [|done]. simpl. by rewrite set_was_schema_created_idemp.
Qed.

Lemma compile_same_decls (iter : gset cls → list cls) (st : state) (e : combined) :
  same_decls st (get_pydantic_core_schema iter st e).2.
Proof. rewrite compile_normal_form. apply foldl_mark_same_decls. Qed.

(** X4: a compilation changes nothing but schema-created flags: the class
    table keeps its length, every expression resolves to the same set as
    before, every class keeps its discriminator name and declared type,
    and any later compilation returns the schema it would have returned
    before. *)
Theorem compile_frame (iter iter' : gset cls → list cls) (st : state) (e e' : combined)
    (c : cls) :
  length (get_pydantic_core_schema iter st e).2 = length st ∧
  evaluate (get_pydantic_core_schema iter st e).2 e' = evaluate st e' ∧
  plugantic_varname_type (get_pydantic_core_schema iter st e).2 c = plugantic_varname_type st c ∧
  get_declared_type (get_pydantic_core_schema iter st e).2 c = get_declared_type st c ∧
  (get_pydantic_core_schema iter' (get_pydantic_core_schema iter st e).2 e').1
    = (get_pydantic_core_schema iter' st e').1.
Proof.
  pose proof (compile_same_decls iter st e) as H.
  split_and!.
  - symmetry. by apply same_decls_length.
  - symmetry. by apply same_decls_evaluate.
  - symmetry. by apply same_decls_varname_type.
  - symmetry. by apply same_decls_declared_type.
  - rewrite (compile_normal_form iter' (get_pydantic_core_schema iter st e).2 e').
    rewrite (compile_normal_form iter' st e'). cbn [fst].
    symmetry. by apply same_decls_compiled_schema.
Qed.

(** X5: compiling the same expression again returns the same schema and
    leaves the class table as the first compilation left it. *)
Theorem compile_twice (iter : gset cls → list cls) (st : state) (e : combined) :
  get_pydantic_core_schema iter (get_pydantic_core_schema iter st e).2 e
    = get_pydantic_core_schema iter st e.
Proof.
  pose proof (compile_same_decls iter st e) as H.
  rewrite (compile_normal_form iter (get_pydantic_core_schema iter st e).2).
  rewrite <- (same_decls_compiled_schema iter _ _ e H), <- (same_decls_marked_by iter _ _ e H).
  rewrite (compile_normal_form iter st e). cbn [snd]. by rewrite foldl_mark_idemp.
Qed.

Lemma elem_of_marked_by (iter : gset cls → list cls) (st : state) (e : combined) (d : cls) :
  set_iteration iter →
  d ∈ marked_by iter st e ↔ d ∈ evaluate st e ∨ e = Plugin d.
Proof.
  intros Hiter.
  assert (Hmarked : d ∈ match (if decide (size (evaluate st e) = 1)
                                then head (iter (evaluate st e)) else None) with
                        | Some subcls => [subcls]
                        | None => iter (evaluate st e)
                        end ↔ d ∈ evaluate st e).
  { destruct (decide (size (evaluate st e) = 1)) as [Hsize|Hsize].
    - apply size_1_elem_of in Hsize as [x Hx]. apply leibniz_equiv in Hx.
      rewrite Hx, (iter_singleton iter Hiter). cbn [head].
      by rewrite list_elem_of_singleton, elem_of_singleton.
    - apply (elem_of_iter iter Hiter). }
  unfold marked_by. destruct e as [c|items|items].
  - rewrite elem_of_cons, Hmarked. split; [intros [->|?]; auto|].
    intros [?|[= ->]]; auto.
  - rewrite Hmarked. split; [auto|]. by intros [?|?].
  - rewrite Hmarked. split; [auto|]. by intros [?|?].
Qed.

Lemma compile_marks_list_unmarked (iter : gset cls → list cls) (st : state) (e : combined)
    (d : cls) (k : PyClass) :
  set_iteration iter →
  st !! d = Some k →
  ¬ (d ∈ evaluate st e ∨ e = Plugin d) →
  (get_pydantic_core_schema iter st e).2 !! d = Some k.
Proof.
  intros Hiter Hk Hd. rewrite compile_normal_form. cbn [snd]. rewrite foldl_mark_lookup, Hk.
  rewrite decide_False; [done|]. by rewrite elem_of_marked_by.
Qed.

(** X6: a compilation marks the classes of the resolved set, on the bare
    path also the class it was asked for, and no other class: every other
    class object is left as it was. *)
Theorem compile_marks_exactly (iter : gset cls → list cls) (st : state) (e : combined)
    (d : cls) (k : PyClass) :
  set_iteration iter →
  st !! d = Some k →
  (d ∈ evaluate st e ∨ e = Plugin d →
   (get_pydantic_core_schema iter st e).2 !! d = Some (set_was_schema_created true k)) ∧
  (¬ (d ∈ evaluate st e ∨ e = Plugin d) →
   (get_pydantic_core_schema iter st e).2 !! d = Some k).
Proof.
  intros Hiter Hk. rewrite compile_normal_form. cbn [snd]. rewrite foldl_mark_lookup, Hk.
  split; intros Hd.
  - rewrite decide_True; [done|]. by apply elem_of_marked_by.
  - rewrite decide_False; [done|]. by rewrite elem_of_marked_by.
Qed.

Lemma compile_marks_exactly_witness :
  set_iteration sorted_iteration ∧
  (∃ k, zoo !! 1 = Some k ∧
        (get_pydantic_core_schema sorted_iteration zoo
           (PluganticCombinedOr [Plugin 2; Plugin 3])).2 !! 1 = Some k) ∧
  (∃ k, zoo !! 2 = Some k ∧
        (get_pydantic_core_schema sorted_iteration zoo
           (PluganticCombinedOr [Plugin 2; Plugin 3])).2 !! 2
          = Some (set_was_schema_created true k)).
Proof.
  split; [exact sorted_iteration_ok|]. split.
  - destruct (zoo !! 1) as [k|] eqn:Hk; [|by vm_compute in Hk].
    exists k. split; [reflexivity|].
    apply (compile_marks_exactly sorted_iteration zoo _ 1 k sorted_iteration_ok Hk).
    intros [Hin|Heq]; [revert Hin; by_evaluation|discriminate Heq].
  - destruct (zoo !! 2) as [k|] eqn:Hk; [|by vm_compute in Hk].
    exists k. split; [reflexivity|].
    apply (compile_marks_exactly sorted_iteration zoo _ 2 k sorted_iteration_ok Hk).
    left. by_evaluation.
Defined.

(** ** What a compiled union holds *)

Lemma tagged_unions_compiled_schema (iter : gset cls → list cls) (st : state) (e : combined)
    (d : string) (choices : list (option string * core_schema)) :
  (d, choices) ∈ tagged_unions (compiled_schema iter st e) →
  match e with
  | Plugin c =>
      d = plugantic_varname_type st c ∧
      choices = dict_fill (get_declared_type st) handler [] (iter (evaluate st e))
  | _ => (d, choices) ∈ group_fill st (iter (evaluate st e))
  end.
Proof.
  unfold compiled_schema.
  destruct (if decide (size (evaluate st e) = 1) then head (iter (evaluate st e)) else None).
  { by intros ?%elem_of_nil. }
  destruct e as [c|items|items].
  - cbn [tagged_unions]. by intros [= -> ->]%list_elem_of_singleton.
  - by rewrite tagged_unions_groups.
  - by rewrite tagged_unions_groups.
Qed.

Lemma compiled_entry_source (iter : gset cls → list cls) (st : state) (e : combined)
    (d : string) (choices : list (option string * core_schema)) (k : option string)
    (s : core_schema) :
  set_iteration iter →
  (d, choices) ∈ tagged_unions (compiled_schema iter st e) →
  (k, s) ∈ choices →
  ∃ x, x ∈ evaluate st e ∧ s = handler x ∧ get_declared_type st x = k ∧
       d = match e with
           | Plugin c => plugantic_varname_type st c
           | _ => plugantic_varname_type st x
           end.
Proof.
  intros Hiter Hd Hk. apply tagged_unions_compiled_schema in Hd.
  assert (Hgroups : (d, choices) ∈ group_fill st (iter (evaluate st e)) →
            ∃ x, x ∈ evaluate st e ∧ s = handler x ∧ get_declared_type st x = k ∧
                 d = plugantic_varname_type st x).
  { intros Hin.
    destruct (group_fill_groups st (iter (evaluate st e))) as [Hnd _ Hvnd _ Hsch].
    apply elem_of_dict_get in Hin; [|done].
    apply elem_of_dict_get in Hk; [|by eapply Hvnd].
    destruct (Hsch _ _ _ _ Hin Hk) as (x & Hx & <- & <- & ->).
    exists x. split; [by apply (elem_of_iter iter Hiter)|done]. }
  destruct e as [c|items|items]; [|by apply Hgroups|by apply Hgroups].
  destruct Hd as [-> ->].
  apply elem_of_dict_get in Hk; [|apply NoDup_dict_fill; constructor].
  apply dict_get_dict_fill in Hk as [Hk|(x & Hx & <- & <-)]; [done|].
  exists x. split; [by apply (elem_of_iter iter Hiter)|done].
Qed.

(** X7: every entry of every tagged union of a compiled schema comes from
    a class of the resolved set: its key is the literal the class declares,
    which is never [None] nor empty, and its value is the schema of that
    class.  On the combinator path the union is the one under the
    discriminator name of the class; on the bare path it is under the name
    of the class the schema was asked of. *)
Theorem compiled_entries (iter : gset cls → list cls) (st : state) (e : combined)
    (d : string) (choices : list (option string * core_schema)) (k : option string)
    (s : core_schema) :
  set_iteration iter →
  bases_older st →
  (d, choices) ∈ tagged_unions (get_pydantic_core_schema iter st e).1 →
  (k, s) ∈ choices →
  ∃ x lit, x ∈ evaluate st e ∧ s = handler x ∧ k = Some lit ∧ lit ≠ "" ∧
           get_declared_type st x = Some lit ∧
           d = match e with
               | Plugin c => plugantic_varname_type st c
               | _ => plugantic_varname_type st x
               end.
Proof.
  intros Hiter Hwf Hd Hk. rewrite compile_normal_form in Hd. cbn [fst] in Hd.
  destruct (compiled_entry_source iter st e d choices k s Hiter Hd Hk)
    as (x & Hx & -> & <- & Hname).
  destruct (evaluate_members st e x Hwf Hx) as [Hvalid _].
  apply is_valid_subclass_spec in Hvalid as (lit & Hlit & Hne).
  exists x, lit. by rewrite Hlit.
Qed.

Lemma compiled_entries_witness :
  set_iteration sorted_iteration ∧ bases_older mixed ∧
  ("kind", [(Some "k", handler 3)])
    ∈ tagged_unions (get_pydantic_core_schema sorted_iteration mixed
                       (PluganticCombinedOr [Plugin 2; Plugin 3])).1 ∧
  (Some "k", handler 3) ∈ [(Some "k", handler 3)] ∧
  ∃ x lit, x ∈ evaluate mixed (PluganticCombinedOr [Plugin 2; Plugin 3]) ∧
           handler 3 = handler x ∧ Some "k" = Some lit ∧ lit ≠ "" ∧
           get_declared_type mixed x = Some lit ∧
           "kind" = plugantic_varname_type mixed x.
Proof.
  assert (Hwf : bases_older mixed) by (apply bases_olderb_spec; vm_compute; reflexivity).
  assert (Hd : ("kind", [(Some "k", handler 3)])
                 ∈ tagged_unions (get_pydantic_core_schema sorted_iteration mixed
                                    (PluganticCombinedOr [Plugin 2; Plugin 3])).1).
  { vm_compute. right. left. }
  assert (Hk : (Some "k", handler 3) ∈ [(Some "k", handler 3)]) by left.
  split; [exact sorted_iteration_ok|]. split; [exact Hwf|]. split; [exact Hd|].
  split; [exact Hk|].
  exact (compiled_entries sorted_iteration mixed _ "kind" _ (Some "k") (handler 3)
           sorted_iteration_ok Hwf Hd Hk).
Defined.

(** ** One discriminator name *)

Lemma group_fill_one_name (st : state) (d : string) (l : list cls)
    (inner : list (option string * core_schema)) :
  (∀ x, x ∈ l → plugantic_varname_type st x = d) →
  foldl (group_step st) [(d, inner)] l = [(d, dict_fill (get_declared_type st) handler inner l)].
Proof.
  revert inner. induction l as [|x l IH]; intros inner Hd; [done|].
  cbn [foldl]. rewrite dict_fill_cons. rewrite <- IH by (intros y Hy; apply Hd; by right).
  f_equal. unfold group_step, setdefault_setitem.
  rewrite (Hd x) by left. cbn [dict_get dict_set]. by rewrite !decide_True.
Qed.

Lemma group_fill_one_name_nonempty (st : state) (d : string) (l : list cls) :
  l ≠ [] →
  (∀ x, x ∈ l → plugantic_varname_type st x = d) →
  group_fill st l = [(d, dict_fill (get_declared_type st) handler [] l)].
Proof.
  intros Hne Hd. destruct l as [|x l]; [done|].
  unfold group_fill. cbn [foldl]. rewrite dict_fill_cons.
  rewrite <- group_fill_one_name by (intros y Hy; apply Hd; by right).
  f_equal. unfold group_step, setdefault_setitem. by rewrite (Hd x) by left.
Qed.

(** With distinct keys a dict comprehension has one entry per member, the
    one of the member. *)
Lemma dict_fill_distinct {K V : Type} {HeqK : EqDecision K} {HcountK : Countable K}
    (key : cls → K) (val : cls → V) (l : list cls) :
  NoDup l →
  (∀ x y, x ∈ l → y ∈ l → key x = key y → x = y) →
  length (dict_fill key val [] l) = length l ∧
  ∀ x, x ∈ l → dict_get (key x) (dict_fill key val [] l) = Some (val x).
Proof.
  intros Hnd Hinj. split.
  - rewrite length_dict_fill, size_list_to_set; [by rewrite length_fmap|].
    by apply NoDup_fmap_2_strong.
  - intros x Hx. apply list_elem_of_split in Hx as (l1 & l2 & ->).
    apply dict_get_dict_fill_last. intros (y & Hkey & Hy)%list_elem_of_fmap.
    apply NoDup_app in Hnd as (_ & _ & Hnd). apply NoDup_cons in Hnd as [Hx _].
    apply Hx. rewrite (Hinj x y); [done| | |done].
    + apply elem_of_app. right. left.
    + apply elem_of_app. right. by right.
Qed.

(** X8: when the resolved set has several classes that all use one
    discriminator name and declare pairwise distinct literals, the
    compiled schema is a single tagged union, not wrapped in a union, with
    exactly one entry per class: the literal of each class leads to the
    schema of that class.  The union is under the shared name on the
    combinator path and under the name of the class asked on the bare
    path. *)
Theorem compile_one_name (iter : gset cls → list cls) (st : state) (e : combined) (d : string) :
  set_iteration iter →
  1 < size (evaluate st e) →
  (∀ x, x ∈ evaluate st e → plugantic_varname_type st x = d) →
  (∀ x y, x ∈ evaluate st e → y ∈ evaluate st e →
          get_declared_type st x = get_declared_type st y → x = y) →
  ∃ choices,
    (get_pydantic_core_schema iter st e).1
      = tagged_union_schema choices
          match e with
          | Plugin c => plugantic_varname_type st c
          | _ => d
          end ∧
    length choices = size (evaluate st e) ∧
    ∀ x, x ∈ evaluate st e → dict_get (get_declared_type st x) choices = Some (handler x).
Proof.
  intros Hiter Hsize Hname Hinj.
  exists (dict_fill (get_declared_type st) handler [] (iter (evaluate st e))).
  destruct (dict_fill_distinct (get_declared_type st) handler (iter (evaluate st e)))
    as [Hlen Hget].
  { apply (NoDup_iter iter Hiter). }
  { intros x y Hx%(elem_of_iter iter Hiter) Hy%(elem_of_iter iter Hiter). by apply Hinj. }
  split; [|split].
  - assert (Hne : iter (evaluate st e) ≠ []).
    { intros Hnil. pose proof (length_iter iter Hiter (evaluate st e)) as Hl.
      rewrite Hnil in Hl. cbn [length] in Hl. lia. }
    assert (Hd : ∀ x, x ∈ iter (evaluate st e) → plugantic_varname_type st x = d).
    { intros x Hx%(elem_of_iter iter Hiter). by apply Hname. }
    rewrite compile_normal_form. cbn [fst]. unfold compiled_schema.
    rewrite (pop_not_single iter) by lia.
    rewrite (group_fill_one_name_nonempty st d _ Hne Hd).
    by destruct e.
  - by rewrite Hlen, (length_iter iter Hiter).
  - intros x Hx. apply Hget. by apply (elem_of_iter iter Hiter).
Qed.

Lemma compile_one_name_witness :
  set_iteration sorted_iteration ∧
  1 < size (evaluate zoo (PluganticCombinedOr [Plugin 2; Plugin 3])) ∧
  (∀ x, x ∈ evaluate zoo (PluganticCombinedOr [Plugin 2; Plugin 3]) →
        plugantic_varname_type zoo x = "type") ∧
  (∀ x y, x ∈ evaluate zoo (PluganticCombinedOr [Plugin 2; Plugin 3]) →
          y ∈ evaluate zoo (PluganticCombinedOr [Plugin 2; Plugin 3]) →
          get_declared_type zoo x = get_declared_type zoo y → x = y) ∧
  ∃ choices,
    (get_pydantic_core_schema sorted_iteration zoo (PluganticCombinedOr [Plugin 2; Plugin 3])).1
      = tagged_union_schema choices "type" ∧
    length choices = 3.
Proof.
  assert (Hev : evaluate zoo (PluganticCombinedOr [Plugin 2; Plugin 3]) = {[ 2; 3; 4 ]})
    by by_evaluation.
  assert (Hmem : ∀ x, x ∈ evaluate zoo (PluganticCombinedOr [Plugin 2; Plugin 3]) →
                      x = 2 ∨ x = 3 ∨ x = 4).
  { intros x. rewrite Hev, !elem_of_union, !elem_of_singleton. tauto. }
  assert (Hsize : 1 < size (evaluate zoo (PluganticCombinedOr [Plugin 2; Plugin 3]))).
  { rewrite Hev. vm_compute. lia. }
  assert (Hname : ∀ x, x ∈ evaluate zoo (PluganticCombinedOr [Plugin 2; Plugin 3]) →
                       plugantic_varname_type zoo x = "type").
  { intros x [->|[->| ->]]%Hmem; vm_compute; reflexivity. }
  assert (Hinj : ∀ x y, x ∈ evaluate zoo (PluganticCombinedOr [Plugin 2; Plugin 3]) →
                        y ∈ evaluate zoo (PluganticCombinedOr [Plugin 2; Plugin 3]) →
                        get_declared_type zoo x = get_declared_type zoo y → x = y).
  { intros x y [->|[->| ->]]%Hmem [->|[->| ->]]%Hmem; vm_compute; intros H;
      first [reflexivity|discriminate H]. }
  split; [exact sorted_iteration_ok|]. split; [exact Hsize|]. split; [exact Hname|].
  split; [exact Hinj|].
  destruct (compile_one_name sorted_iteration zoo (PluganticCombinedOr [Plugin 2; Plugin 3])
              "type" sorted_iteration_ok Hsize Hname Hinj) as (choices & Hs & Hl & _).
  exists choices. split; [exact Hs|]. rewrite Hl, Hev. vm_compute. reflexivity.
Defined.

(** ** The class tables of programs *)

Lemma program_reachable (l : list class_statement) : reachable (program l).
Proof.
  unfold program. assert (H : reachable initial_state) by constructor.
  revert H. generalize initial_state. induction l as [|s l IH]; intros st Hst; [done|].
  cbn [foldl]. apply IH. unfold exec.
  destruct (declare st s) as [[c st']|e] eqn:Hd; [|done]. by eapply reachable_declare.
Qed.

(** The MRO of a new class: the class, its bases and the MROs of its
    bases. *)
Lemma compute_mro_elem_of (st : state) (c : cls) (bs m : list cls) (x : cls) :
  compute_mro st c bs = Some m →
  x ∈ m ↔ x = c ∨ x ∈ bs ∨ ∃ b, b ∈ bs ∧ x ∈ mro st b.
Proof.
  unfold compute_mro. destruct (_ || _); [done|].
  destruct (pmerge _ _) as [l| |] eqn:El; [|done|done].
  intros [= <-]. rewrite elem_of_cons, (pmerge_elem_of _ _ _ x El). split.
  - intros [?|(s & Hs & Hx)]; [by left|]. right.
    apply elem_of_app in Hs as [Hs|Hs%list_elem_of_singleton].
    + apply list_elem_of_fmap in Hs as (b & -> & Hb). right. eauto.
    + subst s. by left.
  - intros [?|[Hx|(b & Hb & Hx)]]; [by left| |].
    + right. exists bs. split; [|done]. apply elem_of_app. right. left.
    + right. exists (mro st b). split; [|done]. apply elem_of_app. left.
      apply list_elem_of_fmap. by exists b.
Qed.

Lemma mro_extends_old (st : state) (k : PyClass) (st1 : state) (d : cls) :
  extends_by st k st1 → d < length st → mro st1 d = mro st d.
Proof. intros (k' & -> & _) Hd. unfold mro. by rewrite lookup_app_l. Qed.

Lemma mro_extends_new (st : state) (k : PyClass) (st1 : state) :
  extends_by st k st1 → mro st1 (length st) = cls_mro k.
Proof. intros (k' & -> & _ & Hm & _). unfold mro. by rewrite list_lookup_middle, Hm. Qed.

Lemma extends_by_length (st : state) (k : PyClass) (st1 : state) :
  extends_by st k st1 → length st1 = S (length st).
Proof. intros (k' & -> & _). rewrite length_app. simpl. lia. Qed.

Lemma mro_ok_initial : mro_ok initial_state.
Proof.
  intros c Hc. assert (c = 0) as -> by (simpl in Hc; lia). split.
  - intros x [->|Hx%elem_of_nil]%elem_of_cons; [done|done].
  - intros b Hb. by apply elem_of_nil in Hb.
Qed.

Lemma mro_ok_same_decls (st st' : state) : same_decls st st' → mro_ok st → mro_ok st'.
Proof.
  intros H Hok c Hc. rewrite <- (same_decls_length _ _ H) in Hc.
  destruct (Hok c Hc) as [Hle Hcl]. rewrite <- (same_decls_mro _ _ H). split; [done|].
  intros b. rewrite <- (same_decls_bases _ _ H), <- (same_decls_mro _ _ H). apply Hcl.
Qed.

Lemma mro_ok_declare (st : state) (s : class_statement) (c : cls) (st1 : state) :
  class_table_ok st → mro_ok st → declare st s = Return (c, st1) → mro_ok st1.
Proof.
  intros Hcok Hok (-> & m & Em & _ & Hext)%declare_Return d Hd.
  rewrite (extends_by_length _ _ _ Hext) in Hd.
  pose proof (class_table_ok_bases_older _ Hcok) as Holder.
  pose proof (compute_mro_Some _ _ _ _ Em) as (_ & Hbs & _). rewrite Forall_forall in Hbs.
  destruct (decide (d < length st)) as [Hlt|Hge].
  - destruct (Hok d Hlt) as [Hle Hcl].
    rewrite (mro_extends_old _ _ _ _ Hext Hlt), (bases_extends_old _ _ _ _ Hext Hlt).
    split; [done|]. intros b Hb. pose proof (Holder _ _ Hb).
    rewrite (mro_extends_old _ _ _ b Hext) by lia. by apply Hcl.
  - assert (d = length st) as -> by lia.
    rewrite (mro_extends_new _ _ _ Hext), (bases_extends_new _ _ _ Hext). cbn.
    split.
    + intros x [->|[Hx|(b & Hb & Hx)]]%(compute_mro_elem_of _ _ _ _ x Em); [done| |].
      * apply Hbs in Hx. lia.
      * pose proof (Hbs _ Hb) as Hblt. destruct (Hok b Hblt) as [Hle _].
        specialize (Hle x Hx). lia.
    + intros b Hb. pose proof (Hbs _ Hb) as Hblt.
      rewrite (mro_extends_old _ _ _ b Hext Hblt). split.
      * apply (compute_mro_elem_of _ _ _ _ b Em). auto.
      * intros x Hx. apply (compute_mro_elem_of _ _ _ _ x Em). right. right. eauto.
Qed.

Lemma reachable_mro_ok (st : state) : reachable st → mro_ok st.
Proof.
  induction 1 as [|st s c st' Hr IH Hd|iter st e _ IH].
  - apply mro_ok_initial.
  - eapply mro_ok_declare; [by apply reachable_class_table_ok|done|done].
  - eapply mro_ok_same_decls; [apply compile_same_decls|done].
Qed.


(** ** What a class statement changes *)

Lemma first_some_ext_in {A B : Type} (f g : A → option B) (l : list A) :
  (∀ x, x ∈ l → f x = g x) → first_some f l = first_some g l.
Proof.
  induction l as [|x l IH]; intros H; simpl; [done|].
  rewrite (H x) by left. destruct (g x); [done|]. apply IH. intros y Hy. apply H. by right.
Qed.

Section DeclareFrame.
Context (st : state) (k : PyClass) (st1 : state).
Context (Hok : mro_ok st) (Hext : extends_by st k st1).

Lemma lookup_extends_old (d : cls) : d < length st → st1 !! d = st !! d.
Proof using Hext. destruct Hext as (k' & -> & _). intros Hd. by rewrite lookup_app_l. Qed.

Lemma class_attr_extends_old {A : Type} (own : PyClass → option A) (d : cls) :
  d < length st → class_attr own st1 d = class_attr own st d.
Proof using Hok Hext.
  intros Hd. unfold class_attr. rewrite (mro_extends_old _ _ _ _ Hext Hd).
  apply first_some_ext_in. intros x Hx. destruct (Hok d Hd) as [Hle _].
  rewrite lookup_extends_old; [done|]. specialize (Hle x Hx). lia.
Qed.

Lemma type_hints_extends_old (d : cls) :
  d < length st → get_type_hints st1 d = get_type_hints st d.
Proof using Hok Hext.
  intros Hd. unfold get_type_hints. rewrite (mro_extends_old _ _ _ _ Hext Hd).
  destruct (Hok d Hd) as [Hle _]. revert Hle.
  induction (mro st d) as [|x l IH]; intros Hle; simpl; [done|].
  rewrite IH by (intros y Hy; apply Hle; by right).
  rewrite lookup_extends_old; [done|]. specialize (Hle x ltac:(left)). lia.
Qed.

Lemma varname_type_extends_old (d : cls) :
  d < length st → plugantic_varname_type st1 d = plugantic_varname_type st d.
Proof using Hok Hext.
  intros Hd. unfold plugantic_varname_type. by rewrite class_attr_extends_old.
Qed.

Lemma declared_type_extends_old (d : cls) :
  d < length st → get_declared_type st1 d = get_declared_type st d.
Proof using Hok Hext.
  intros Hd. unfold get_declared_type, get_declared_annotation, model_fields.
  by rewrite varname_type_extends_old, type_hints_extends_old, class_attr_extends_old.
Qed.

Lemma is_valid_subclass_extends_old (d : cls) :
  d < length st → is_valid_subclass st1 d = is_valid_subclass st d.
Proof using Hok Hext.
  intros Hd. unfold is_valid_subclass. by rewrite declared_type_extends_old.
Qed.

Lemma descendant_extends_old (Holder : bases_older st) (v root : cls) :
  v < length st → descendant st1 v root → descendant st v root.
Proof using Hext.
  intros Hv Hd. unfold descendant in *. revert Hv.
  induction Hd as [v|v b root Hvb _ IH]; intros Hv; [apply rtc_refl|].
  unfold direct_base in Hvb. rewrite (bases_extends_old _ _ _ _ Hext Hv) in Hvb.
  eapply rtc_l; [exact Hvb|]. apply IH. specialize (Holder _ _ Hvb). lia.
Qed.

End DeclareFrame.

Lemma is_valid_subclass_lt_length (st : state) (v : cls) :
  is_valid_subclass st v = true → v < length st.
Proof.
  intros Hv. destruct (decide (v < length st)) as [|Hge]; [done|].
  rewrite is_valid_subclass_out_of_range in Hv; [done|]. apply lookup_ge_None. lia.
Qed.

Lemma declare_valid_subclasses (st : state) (s : class_statement) (c : cls) (st1 : state)
    (root v : cls) :
  class_table_ok st → mro_ok st → declare st s = Return (c, st1) →
  v ∈ get_valid_subclasses st1 root ↔
    v ∈ get_valid_subclasses st root ∨
    (v = c ∧ is_valid_subclass st1 c = true ∧ descendant st1 c root).
Proof.
  intros Hcok Hok Hd.
  pose proof (declare_class_table_ok _ _ _ _ Hcok Hd) as Hcok1.
  pose proof (class_table_ok_bases_older _ Hcok) as Holder.
  pose proof (class_table_ok_bases_older _ Hcok1) as Holder1.
  apply declare_Return in Hd as (-> & m & _ & _ & Hext).
  rewrite !get_valid_subclasses_spec by done. split.
  - intros [Hvalid Hdesc]. pose proof (is_valid_subclass_lt_length _ _ Hvalid) as Hv.
    rewrite (extends_by_length _ _ _ Hext) in Hv.
    destruct (decide (v < length st)) as [Hlt|Hge].
    + left. rewrite <- (is_valid_subclass_extends_old st _ st1 Hok Hext v Hlt).
      split; [done|]. by eapply descendant_extends_old.
    + right. assert (v = length st) as -> by lia. done.
  - intros [[Hvalid Hdesc]|(-> & Hvalid & Hdesc)]; [|done].
    pose proof (is_valid_subclass_lt_length _ _ Hvalid) as Hv.
    rewrite (is_valid_subclass_extends_old st _ st1 Hok Hext v Hv).
    split; [done|]. by eapply descendant_extends.
Qed.

Lemma declare_evaluate (st : state) (s : class_statement) (c : cls) (st1 : state)
    (e : combined) (v : cls) :
  class_table_ok st → mro_ok st → declare st s = Return (c, st1) →
  (v ∈ evaluate st e → v ∈ evaluate st1 e) ∧
  (v ∈ evaluate st1 e → v ∈ evaluate st e ∨ v = c).
Proof.
  intros Hcok Hok Hd. revert v.
  induction e as [root|items IH|items IH] using combined_ind_items; intros v.
  - cbn [evaluate]. rewrite (declare_valid_subclasses st s c st1 root v Hcok Hok Hd).
    split; [by left|]. intros [?|(-> & _)]; [by left|by right].
  - rewrite Forall_forall in IH. rewrite !elem_of_evaluate_and. split.
    + intros [Hne Hall]. split; [done|]. intros item Hitem. by apply IH, Hall.
    + intros [Hne Hall]. destruct (decide (v = c)) as [->|Hvc]; [by right|]. left.
      split; [done|]. intros item Hitem.
      destruct (IH item Hitem v) as [_ Hup]. by destruct (Hup (Hall item Hitem)).
  - rewrite Forall_forall in IH. rewrite !elem_of_evaluate_or. split.
    + intros (item & Hitem & Hv). exists item. split; [done|]. by apply IH.
    + intros (item & Hitem & Hv). destruct (IH item Hitem v) as [_ Hup].
      destruct (Hup Hv) as [?|?]; [|by right]. left. by exists item.
Qed.

(** X9: a class statement that succeeds appends one class and leaves every
    existing class object as it was.  The valid subclasses of a class are
    then the ones it had, and the new class when that is a valid subclass
    below it; the resolved set of any expression keeps its members and
    gains at most the new class. *)
Theorem declare_adds_one_class (st : state) (s : class_statement) (c : cls) (st1 : state) :
  reachable st →
  declare st s = Return (c, st1) →
  c = length st ∧
  length st1 = S (length st) ∧
  (∀ d, d < length st → st1 !! d = st !! d) ∧
  (∀ root v, v ∈ get_valid_subclasses st1 root ↔
               v ∈ get_valid_subclasses st root ∨
               (v = c ∧ is_valid_subclass st1 c = true ∧ descendant st1 c root)) ∧
  (∀ e v, (v ∈ evaluate st e → v ∈ evaluate st1 e) ∧
          (v ∈ evaluate st1 e → v ∈ evaluate st e ∨ v = c)).
Proof.
  intros Hr Hd.
  pose proof (reachable_class_table_ok _ Hr) as Hcok.
  pose proof (reachable_mro_ok _ Hr) as Hok.
  pose proof (declare_Return _ _ _ _ Hd) as (Hc & m & _ & _ & Hext).
  split; [done|]. split; [by eapply extends_by_length|]. split; [|split].
  - intros d Hlt. by eapply lookup_extends_old.
  - intros root v. exact (declare_valid_subclasses st s c st1 root v Hcok Hok Hd).
  - intros e v. exact (declare_evaluate st s c st1 e v Hcok Hok Hd).
Qed.

Lemma declare_adds_one_class_witness :
  reachable kennel ∧
  declare kennel (class_stmt "Pug" [2] None None)
    = Return (4, exec kennel (class_stmt "Pug" [2] None None)) ∧
  (∀ v, v ∈ get_valid_subclasses (exec kennel (class_stmt "Pug" [2] None None)) 1 ↔
        v ∈ get_valid_subclasses kennel 1 ∨
        (v = 4 ∧
         is_valid_subclass (exec kennel (class_stmt "Pug" [2] None None)) 4 = true ∧
         descendant (exec kennel (class_stmt "Pug" [2] None None)) 4 1)).
Proof.
  assert (Hr : reachable kennel) by apply program_reachable.
  assert (Hd : declare kennel (class_stmt "Pug" [2] None None)
               = Return (4, exec kennel (class_stmt "Pug" [2] None None)))
    by (vm_compute; reflexivity).
  split; [exact Hr|]. split; [exact Hd|].
  destruct (declare_adds_one_class kennel _ 4 _ Hr Hd) as (_ & _ & _ & Hvalid & _).
  exact (Hvalid 1).
Defined.

(** ** The guard after a compilation *)






Lemma same_decls_descendant (st st' : state) (v root : cls) :
  same_decls st st' → descendant st v root → descendant st' v root.
Proof.
  intros H. unfold descendant. apply rtc_subrel. intros d b.
  unfold direct_base. by rewrite (same_decls_bases _ _ H).
Qed.

(** A class statement on a class table without marks in the MRO of the
    new class. *)
Lemma declare_unmarked (st : state) (s : class_statement) (m : list cls) (v : cls) :
  class_table_ok st →
  v ∈ stmt_bases s →
  compute_mro st (length st) (stmt_bases s) = Some m →
  (∀ d k, d ∈ m → st !! d = Some k → was_schema_created_own k ≠ Some true) →
  ∃ st1, declare st s = Return (length st, st1) ∧
         ∀ root, descendant st v root →
           (length st ∈ evaluate st1 (Plugin root) ↔
            is_valid_subclass st1 (length st) = true).
Proof.
  intros Hok Hv Hm Hun.
  pose proof (check_new_class_unmarked st s m Hok Hun) as Hcheck.
  destruct (declare_succeeds st s m Hm Hcheck) as [st1 Hd]. exists st1. split; [done|].
  intros root Hroot. cbn [evaluate].
  pose proof (declare_class_table_ok _ _ _ _ Hok Hd) as Hok1.
  apply declare_Return in Hd as (_ & m' & Hm' & _ & Hext).
  rewrite get_valid_subclasses_spec by (by apply class_table_ok_bases_older).
  split; [by intros [? _]|]. intros Hvalid.
  split; [done|]. eapply rtc_l; [|by eapply descendant_extends].
  unfold direct_base. by rewrite (bases_extends_new _ _ _ Hext).
Qed.

(** X11: compiling a combinator marks its resolved variants only.  A class
    whose MRO holds no marked class and no resolved variant of the
    combinator, for instance a new subclass of a class the combinator is
    built from that declares no literal itself, can still be declared after
    the compilation, and it is a valid subclass of every class its bases
    descend from when it declares a non-empty literal. *)
Theorem combinator_compile_leaves_roots_open (iter : gset cls → list cls) (st : state)
    (e : combined) (s : class_statement) (m : list cls) (v : cls) :
  set_iteration iter →
  class_table_ok st →
  (∀ c, e ≠ Plugin c) →
  v ∈ stmt_bases s →
  compute_mro st (length st) (stmt_bases s) = Some m →
  Forall (λ d, (d ∉ evaluate st e) ∧ st !! d ≫= was_schema_created_own ≠ Some true) m →
  ∃ st1, declare (get_pydantic_core_schema iter st e).2 s = Return (length st, st1) ∧
         ∀ root, descendant st v root →
           (length st ∈ evaluate st1 (Plugin root) ↔
            is_valid_subclass st1 (length st) = true).
Proof.
  intros Hiter Hok He Hv Hm Hun.
  pose proof (compile_same_decls iter st e) as Hsame.
  set (st' := (get_pydantic_core_schema iter st e).2) in *.
  assert (Hok' : class_table_ok st').
  { destruct (compile_state iter st e) as [l Hl]. unfold st'. rewrite Hl.
    by apply class_table_ok_foldl_mark. }
  destruct (declare_unmarked st' s m v Hok' Hv) as (st1 & Hd & Hincl).
  - by rewrite <- (same_decls_compute_mro _ _ _ _ Hsame), <- (same_decls_length _ _ Hsame).
  - intros d k Hd Hk Hflag. rewrite Forall_forall in Hun.
    destruct (Hun d Hd) as [Hnot Hunmarked].
    assert (Hlt : d < length st).
    { rewrite (same_decls_length _ _ Hsame). by eapply lookup_lt_Some. }
    apply lookup_lt_is_Some in Hlt as [k0 Hk0].
    assert (Hside : ¬ (d ∈ evaluate st e ∨ e = Plugin d)).
    { intros [?|Heq]; [done|]. by apply (He d). }
    pose proof (compile_marks_list_unmarked iter st e d k0 Hiter Hk0 Hside) as Hsame_k.
    unfold st' in Hk. rewrite Hsame_k in Hk. injection Hk as <-.
    apply Hunmarked. by rewrite Hk0.
  - exists st1. rewrite <- (same_decls_length _ _ Hsame) in Hd. split; [done|].
    intros root Hroot. rewrite (same_decls_length _ _ Hsame). apply Hincl.
    by apply (same_decls_descendant st).
Qed.

(** In [zoo], after the schema of [Dog | Cat] was compiled, [class
    Bird(Animal, value="bird")] is still accepted and is a valid subclass of
    [Animal]. *)
Lemma combinator_compile_leaves_roots_open_witness :
  set_iteration sorted_iteration ∧
  class_table_ok zoo ∧
  compute_mro zoo (length zoo) (stmt_bases (class_stmt "Bird" [1] None (Some "bird")))
    = Some [5; 1; 0] ∧
  Forall (λ d, (d ∉ evaluate zoo (PluganticCombinedOr [Plugin 2; Plugin 3])) ∧
               zoo !! d ≫= was_schema_created_own ≠ Some true) [5; 1; 0] ∧
  ∃ st1,
    declare (get_pydantic_core_schema sorted_iteration zoo
               (PluganticCombinedOr [Plugin 2; Plugin 3])).2
            (class_stmt "Bird" [1] None (Some "bird")) = Return (length zoo, st1) ∧
    (length zoo ∈ evaluate st1 (Plugin 1) ↔ is_valid_subclass st1 (length zoo) = true).
Proof.
  assert (Hok : class_table_ok zoo) by (apply reachable_class_table_ok, program_reachable).
  assert (Hm : compute_mro zoo (length zoo)
                 (stmt_bases (class_stmt "Bird" [1] None (Some "bird"))) = Some [5; 1; 0])
    by (vm_compute; reflexivity).
  assert (Hun : Forall (λ d, (d ∉ evaluate zoo (PluganticCombinedOr [Plugin 2; Plugin 3])) ∧
                             zoo !! d ≫= was_schema_created_own ≠ Some true) [5; 1; 0])
    by by_evaluation.
  assert (Hv : 1 ∈ stmt_bases (class_stmt "Bird" [1] None (Some "bird"))) by left.
  assert (He : ∀ c, PluganticCombinedOr [Plugin 2; Plugin 3] ≠ Plugin c) by discriminate.
  split; [exact sorted_iteration_ok|]. split; [exact Hok|]. split; [exact Hm|].
  split; [exact Hun|].
  destruct (combinator_compile_leaves_roots_open sorted_iteration zoo _ _ _ 1
              sorted_iteration_ok Hok He Hv Hm Hun) as (st1 & Hd & Hincl).
  exists st1. split; [exact Hd|]. apply Hincl. apply rtc_refl.
Defined.

(** ** The class a class statement creates *)

Section AlterClass.
Context (f : PyClass → PyClass) (Hmro : ∀ k, cls_mro (f k) = cls_mro k).

Lemma mro_alter (c : cls) (st : state) (d : cls) : mro (alter f c st) d = mro st d.
Proof using Hmro.
  unfold mro. rewrite list_lookup_alter. destruct (decide (c = d)) as [->|]; [|done].
  destruct (st !! d); simpl; [by rewrite Hmro|done].
Qed.

Lemma class_attr_alter {A : Type} (own : PyClass → option A) (c : cls) (st : state) (d : cls) :
  (∀ k, own (f k) = own k) → class_attr own (alter f c st) d = class_attr own st d.
Proof using Hmro.
  intros Hown. unfold class_attr. rewrite mro_alter. apply first_some_ext. intros x.
  rewrite list_lookup_alter. destruct (decide (c = x)) as [->|]; [|done].
  destruct (st !! x); simpl; [apply Hown|done].
Qed.

Lemma class_attr_alter_own {A : Type} (own : PyClass → option A) (c : cls) (st : state) (y : A) :
  class_table_ok st → c < length st → (∀ k, own (f k) = Some y) →
  class_attr own (alter f c st) c = Some y.
Proof using Hmro.
  intros Hok Hc Hown. unfold class_attr. rewrite mro_alter.
  destruct (class_table_ok_mro st c Hok Hc) as [l ->]. simpl.
  rewrite list_lookup_alter, decide_True by done.
  apply lookup_lt_is_Some in Hc as [k ->]. simpl. by rewrite Hown.
Qed.

Lemma type_hints_alter (c : cls) (st : state) (d : cls) :
  (∀ k, cls_annotations (f k) = cls_annotations k) →
  get_type_hints (alter f c st) d = get_type_hints st d.
Proof using Hmro.
  intros Hann. unfold get_type_hints. rewrite mro_alter.
  induction (mro st d) as [|x l IH]; simpl; [done|]. rewrite IH. f_equal. f_equal.
  rewrite list_lookup_alter. destruct (decide (c = x)) as [->|]; [|done].
  destruct (st !! x); simpl; [by rewrite Hann|done].
Qed.

End AlterClass.

Lemma type_hints_alter_set_annotation (st : state) (c : cls) (name : string) (a : annotation) :
  class_table_ok st → c < length st →
  get_type_hints (alter (set_annotation name a) c st) c !! name = Some a.
Proof.
  intros Hok Hc. unfold get_type_hints. rewrite mro_alter by done.
  destruct (class_table_ok_mro st c Hok Hc) as [l ->]. simpl.
  rewrite list_lookup_alter, decide_True by done.
  apply lookup_lt_is_Some in Hc as [k ->]. simpl.
  apply lookup_union_Some_l, lookup_insert_eq.
Qed.

Lemma create_annotation_cases (st : state) (c : cls) (name : string) (value : annotation) :
  (create_annotation st c name value false false = st ∧
   get_declared_annotation st c name = Some value) ∨
  create_annotation st c name value false false = alter (set_annotation name value) c st.
Proof.
  unfold create_annotation. rewrite andb_false_r. simpl. rewrite andb_true_r.
  destruct (bool_decide _) eqn:E; [|by right]. left. split; [done|].
  by apply bool_decide_eq_true in E.
Qed.

Lemma create_field_default_cases (st : state) (c : cls) (name value : string) :
  create_field_default st c name value = st ∨
  ∃ a, create_field_default st c name value = alter (set_attr name a) c st.
Proof.
  unfold create_field_default.
  assert (Hassign : ∀ v,
    (if bool_decide (getattr st c name = Some v) then st else alter (set_attr name v) c st) = st ∨
    ∃ a, (if bool_decide (getattr st c name = Some v) then st
          else alter (set_attr name v) c st) = alter (set_attr name a) c st).
  { intros v. destruct (bool_decide _); eauto. }
  destruct (getattr st c name) as [[v|fi]|]; try apply Hassign.
  destruct (bool_decide _); [by left|apply Hassign].
Qed.

Lemma ensure_varname_default_cases (st : state) (c : cls) :
  ensure_varname_default st c = st ∨
  ∃ name a, ensure_varname_default st c = alter (set_attr name a) c st.
Proof.
  unfold ensure_varname_default. destruct (negb _); [by left|].
  destruct (get_declared_type st c) as [v|]; [|by left].
  destruct (create_field_default_cases st c (plugantic_varname_type st c) v) as [->|[a ->]];
    eauto.
Qed.

Lemma mro_out_of_range (st : state) (c : cls) : length st ≤ c → mro st c = [].
Proof. intros Hc. unfold mro. by rewrite lookup_ge_None_2. Qed.

Lemma declare_unfold (st : state) (s : class_statement) (c : cls) (st1 : state) :
  declare st s = Return (c, st1) →
  ∃ m st', c = length st ∧ compute_mro st (length st) (stmt_bases s) = Some m ∧
    init_subclass (st ++ [new_class s m]) (length st) (stmt_varname_type s) (stmt_value s)
      = Return st' ∧
    st1 = alter (set_pydantic_fields (get_type_hints st' (length st))) (length st) st'.
Proof.
  unfold declare. destruct (compute_mro st (length st) (stmt_bases s)) as [m|]; [|done].
  destruct (init_subclass _ _ _ _) as [st'|] eqn:Ei; [|done].
  intros [= <- <-]. by exists m, st'.
Qed.

Lemma init_subclass_unfold (st0 : state) (c : cls) (vt0 v0 : option string) (st' : state) :
  init_subclass st0 c vt0 v0 = Return st' →
  ∃ vt v stB,
    (vt, v) = match plugantic_config st0 c with
              | Some cfg =>
                  if config_truthy cfg
                  then (py_or (cfg_varname_type cfg) vt0, py_or (cfg_value cfg) v0)
                  else (vt0, v0)
              | None => (vt0, v0)
              end ∧
    stB = match vt with
          | Some n => alter (set_varname_type n) c (alter (set_was_schema_created false) c st0)
          | None => alter (set_was_schema_created false) c st0
          end ∧
    st' = ensure_varname_default
            match v with
            | Some x => create_annotation stB c (plugantic_varname_type stB c)
                                          (Literal x []) false false
            | None => stB
            end c.
Proof.
  unfold init_subclass. destruct (check_plugantic_schema_usage st0 c); [done|].
  destruct (match plugantic_config st0 c with
            | Some cfg =>
                if config_truthy cfg
                then (py_or (cfg_varname_type cfg) vt0, py_or (cfg_value cfg) v0)
                else (vt0, v0)
            | None => (vt0, v0)
            end) as [vt v].
  intros [= <-]. by eexists vt, v, _.
Qed.

(** The type hints of a class name the annotations of the classes of its
    MRO. *)
Lemma type_hints_lookup_Some (st : state) (c : cls) (name : string) (a : annotation) :
  get_type_hints st c !! name = Some a →
  ∃ y k, y ∈ mro st c ∧ st !! y = Some k ∧ cls_annotations k !! name = Some a.
Proof.
  unfold get_type_hints. induction (mro st c) as [|x l IH]; simpl; [by rewrite lookup_empty|].
  intros [H|[_ H]]%lookup_union_Some_raw.
  - destruct (st !! x) as [k|] eqn:E; simpl in H; [|by rewrite lookup_empty in H].
    exists x, k. split; [left|done].
  - destruct (IH H) as (y & k & ? & ? & ?). exists y, k. split; [by right|done].
Qed.

Lemma type_hints_lookup_None (st : state) (c : cls) (name : string) (y : cls) (k : PyClass) :
  get_type_hints st c !! name = None →
  y ∈ mro st c → st !! y = Some k → cls_annotations k !! name = None.
Proof.
  unfold get_type_hints. induction (mro st c) as [|x l IH]; simpl; [by intros _ ?%elem_of_nil|].
  intros [H1 H2]%lookup_union_None [->|Hy]%elem_of_cons Hk; [|by apply IH].
  by rewrite Hk in H1.
Qed.

Lemma first_some_Some {A B : Type} (f : A → option B) (l : list A) (y : B) :
  first_some f l = Some y → ∃ x, x ∈ l ∧ f x = Some y.
Proof.
  induction l as [|x l IH]; simpl; [done|]. destruct (f x) as [y'|] eqn:E.
  - intros [= ->]. exists x. split; [left|done].
  - intros (x' & ? & ?)%IH. exists x'. split; [by right|done].
Qed.

(** ** Two more invariants of reachable class tables *)

Lemma mro_closed_initial : mro_closed initial_state.
Proof.
  intros c x y. destruct c as [|c]; [|by intros ?%elem_of_nil].
  intros [->|?%elem_of_nil]%elem_of_cons; done.
Qed.

Lemma mro_closed_same_decls (st st' : state) :
  same_decls st st' → mro_closed st → mro_closed st'.
Proof.
  intros H Hcl c x y. rewrite <- !(same_decls_mro _ _ H). apply Hcl.
Qed.

Lemma mro_closed_declare (st : state) (s : class_statement) (c : cls) (st1 : state) :
  class_table_ok st → mro_ok st → mro_closed st →
  declare st s = Return (c, st1) → mro_closed st1.
Proof.
  intros Hcok Hok Hcl (-> & m & Em & _ & Hext)%declare_Return d x y Hx Hy.
  pose proof (compute_mro_Some _ _ _ _ Em) as (_ & Hbs & _). rewrite Forall_forall in Hbs.
  destruct (decide (d < length st)) as [Hlt|Hge].
  - rewrite (mro_extends_old _ _ _ _ Hext Hlt) in Hx |- *.
    destruct (Hok d Hlt) as [Hle _]. pose proof (Hle x Hx) as Hxd.
    rewrite (mro_extends_old _ _ _ x Hext) in Hy by lia. by apply (Hcl d x y).
  - destruct (decide (d = length st)) as [->|Hne].
    + rewrite (mro_extends_new _ _ _ Hext) in Hx |- *. cbn in Hx |- *.
      apply (compute_mro_elem_of _ _ _ _ x Em) in Hx as [->|[Hx|(b & Hb & Hx)]].
      * by rewrite (mro_extends_new _ _ _ Hext) in Hy.
      * pose proof (Hbs _ Hx) as Hxlt. rewrite (mro_extends_old _ _ _ x Hext Hxlt) in Hy.
        apply (compute_mro_elem_of _ _ _ _ y Em). right. right. eauto.
      * pose proof (Hbs _ Hb) as Hblt. destruct (Hok b Hblt) as [Hle _].
        pose proof (Hle x Hx) as Hxb.
        rewrite (mro_extends_old _ _ _ x Hext) in Hy by lia.
        apply (compute_mro_elem_of _ _ _ _ y Em). right. right. exists b. split; [done|].
        by apply (Hcl b x y).
    + rewrite mro_out_of_range in Hx; [by apply elem_of_nil in Hx|].
      rewrite (extends_by_length _ _ _ Hext). lia.
Qed.

Lemma reachable_mro_closed (st : state) : reachable st → mro_closed st.
Proof.
  induction 1 as [|st s c st' Hr IH Hd|iter st e _ IH].
  - apply mro_closed_initial.
  - eapply mro_closed_declare;
      [by apply reachable_class_table_ok|by apply reachable_mro_ok|done|done].
  - eapply mro_closed_same_decls; [apply compile_same_decls|done].
Qed.

Lemma fields_collected_initial : fields_collected initial_state.
Proof. intros c k. destruct c as [|c]; [|done]. by intros [= <-]. Qed.

Lemma fields_collected_same_decls (st st' : state) :
  same_decls st st' → fields_collected st → fields_collected st'.
Proof.
  intros H Hf c k' Hk'. rewrite <- (same_decls_type_hints _ _ H).
  destruct (Forall2_lookup_r _ _ _ _ _ H Hk') as (k & Hk & (_ & _ & _ & _ & Heq)).
  rewrite <- Heq. by apply Hf.
Qed.

Lemma type_hints_ensure_varname_default (st : state) (c d : cls) :
  get_type_hints (ensure_varname_default st c) d = get_type_hints st d.
Proof.
  destruct (ensure_varname_default_cases st c) as [->|(name & a & ->)]; [done|].
  by apply type_hints_alter.
Qed.

Lemma fields_collected_declare (st : state) (s : class_statement) (c : cls) (st1 : state) :
  class_table_ok st → mro_ok st → fields_collected st →
  declare st s = Return (c, st1) → fields_collected st1.
Proof.
  intros Hcok Hok Hf Hd d k Hk.
  pose proof (declare_Return _ _ _ _ Hd) as (-> & m & Em & _ & Hext).
  destruct (decide (d < length st)) as [Hlt|Hge].
  - rewrite (type_hints_extends_old _ _ _ Hok Hext d Hlt).
    rewrite (lookup_extends_old _ _ _ Hext d Hlt) in Hk. by apply Hf.
  - assert (d = length st) as ->.
    { apply lookup_lt_Some in Hk. rewrite (extends_by_length _ _ _ Hext) in Hk. lia. }
    apply declare_unfold in Hd as (m' & st' & _ & _ & _ & ->).
    rewrite type_hints_alter by done.
    rewrite list_lookup_alter, decide_True in Hk by done.
    destruct (st' !! length st) as [k0|]; [|done]. by injection Hk as <-.
Qed.

Lemma reachable_fields_collected (st : state) : reachable st → fields_collected st.
Proof.
  induction 1 as [|st s c st' Hr IH Hd|iter st e _ IH].
  - apply fields_collected_initial.
  - eapply fields_collected_declare;
      [by apply reachable_class_table_ok|by apply reachable_mro_ok|done|done].
  - eapply fields_collected_same_decls; [apply compile_same_decls|done].
Qed.

(** While [__init_subclass__] runs, the new class has no field table of
    its own; the one it inherits names no field that its type hints do not
    have. *)
Lemma new_class_model_fields (st : state) (k0 : PyClass) (bs : list cls) (name : string) :
  class_table_ok st → mro_ok st → mro_closed st → fields_collected st →
  compute_mro st (length st) bs = Some (cls_mro k0) →
  pydantic_fields_own k0 = None →
  get_type_hints (st ++ [k0]) (length st) !! name = None →
  model_fields (st ++ [k0]) (length st) !! name = None.
Proof.
  intros Hcok Hok Hcl Hf Em Hown Hhints.
  pose proof (compute_mro_Some _ _ _ _ Em) as (Hhead & Hbs & _). rewrite Forall_forall in Hbs.
  assert (Hmro : mro (st ++ [k0]) (length st) = cls_mro k0).
  { unfold mro. by rewrite list_lookup_middle. }
  unfold model_fields, class_attr. rewrite Hmro.
  destruct (first_some _ _) as [f|] eqn:Ef; simpl; [|apply lookup_empty].
  apply first_some_Some in Ef as (x & Hx & Hfx).
  apply (compute_mro_elem_of _ _ _ _ x Em) in Hx as Hx'.
  assert (Hxlt : x < length st ∧ ∀ y, y ∈ mro st x → y ∈ cls_mro k0).
  { destruct Hx' as [->|[Hx'|(b & Hb & Hx')]].
    - rewrite list_lookup_middle in Hfx by done. simpl in Hfx. congruence.
    - split; [by apply Hbs|]. intros y Hy.
      apply (compute_mro_elem_of _ _ _ _ y Em). right. right. eauto.
    - pose proof (Hbs _ Hb) as Hblt. destruct (Hok b Hblt) as [Hle _].
      pose proof (Hle x Hx'). split; [lia|]. intros y Hy.
      apply (compute_mro_elem_of _ _ _ _ y Em). right. right. exists b. split; [done|].
      by apply (Hcl b x y). }
  destruct Hxlt as [Hxlt Hsub].
  rewrite lookup_app_l in Hfx by done.
  destruct (st !! x) as [k|] eqn:Ek; [|done]. simpl in Hfx.
  rewrite (Hf x k Ek) in Hfx. injection Hfx as <-.
  destruct (get_type_hints st x !! name) as [a|] eqn:Ea; [|done]. exfalso.
  apply type_hints_lookup_Some in Ea as (y & k' & Hy & Hk' & Ha).
  assert (Hylt : y < length st) by (by eapply lookup_lt_Some).
  assert (Hnone : cls_annotations k' !! name = None).
  { apply (type_hints_lookup_None (st ++ [k0]) (length st) name y k' Hhints).
    - rewrite Hmro. by apply Hsub.
    - by rewrite lookup_app_l. }
  congruence.
Qed.

Lemma class_table_ok_ensure_varname_default (st : state) (c : cls) :
  class_table_ok st → class_table_ok (ensure_varname_default st c).
Proof.
  intros Hok. destruct (ensure_varname_default_cases st c) as [->|(name & a & ->)]; [done|].
  apply class_table_ok_alter; [|done]. by intros d k (? & ? & ?).
Qed.

Lemma length_ensure_varname_default (st : state) (c : cls) :
  length (ensure_varname_default st c) = length st.
Proof.
  destruct (ensure_varname_default_cases st c) as [->|(name & a & ->)]; [done|].
  apply length_alter.
Qed.

Lemma class_attr_ensure_varname_default {A : Type} (own : PyClass → option A)
    (st : state) (c d : cls) :
  (∀ name a k, own (set_attr name a k) = own k) →
  class_attr own (ensure_varname_default st c) d = class_attr own st d.
Proof.
  intros Hown. destruct (ensure_varname_default_cases st c) as [->|(name & a & ->)]; [done|].
  apply class_attr_alter; [done|]. intros k. apply Hown.
Qed.

(** The class that a class statement creates.  [vt] and [v] are the
    discriminator name and value that [__init_subclass__] goes on with,
    after it consulted [plugantic_config]. *)
Lemma declare_new_class (st : state) (s : class_statement) (c : cls) (st1 : state) :
  reachable st → declare st s = Return (c, st1) →
  ∃ m vt v,
    c = length st ∧
    compute_mro st (length st) (stmt_bases s) = Some m ∧
    (vt, v) = match plugantic_config st1 c with
              | Some cfg =>
                  if config_truthy cfg
                  then (py_or (cfg_varname_type cfg) (stmt_varname_type s),
                        py_or (cfg_value cfg) (stmt_value s))
                  else (stmt_varname_type s, stmt_value s)
              | None => (stmt_varname_type s, stmt_value s)
              end ∧
    plugantic_config st1 c = plugantic_config (st ++ [new_class s m]) c ∧
    plugantic_varname_type st1 c
      = match vt with
        | Some n => n
        | None => plugantic_varname_type (st ++ [new_class s m]) c
        end ∧
    get_declared_annotation st1 c (plugantic_varname_type st1 c)
      = match v with
        | Some x => Some (Literal x [])
        | None => get_type_hints (st ++ [new_class s m]) c !! plugantic_varname_type st1 c
        end ∧
    (∀ lit, get_declared_type st1 c = Some lit → lit ≠ "" →
       getattr st1 c (plugantic_varname_type st1 c) ≫= attr_default = Some (VStr lit)).
Proof.
  intros Hr Hd.
  pose proof (reachable_class_table_ok _ Hr) as Hcok.
  pose proof (reachable_mro_ok _ Hr) as Hok.
  pose proof (reachable_mro_closed _ Hr) as Hcl.
  pose proof (reachable_fields_collected _ Hr) as Hf.
  apply declare_unfold in Hd as (m & st' & -> & Em & Hi & ->).
  apply init_subclass_unfold in Hi as (vt & v & stB & Hcfg & HstB & ->).
  set (c := length st) in *. set (st0 := st ++ [new_class s m]) in *.
  set (stA := alter (set_was_schema_created false) c st0) in *.
  (* the table after the flag was cleared *)
  assert (HokA : class_table_ok stA).
  { unfold stA, st0, c. rewrite alter_last.
    eapply class_table_ok_extends; [done| |apply extends_by_refl].
    apply compute_mro_Some in Em as (Hm & Hbs & _).
    split; [done|]. split; [simpl; eauto|done]. }
  assert (HlenA : length stA = S c).
  { unfold stA, st0. rewrite length_alter, length_app. simpl. lia. }
  assert (HattrA : ∀ A (own : PyClass → option A),
            (∀ b k, own (set_was_schema_created b k) = own k) →
            class_attr own stA c = class_attr own st0 c).
  { intros A own Hown. apply class_attr_alter; [done|]. intros k. apply Hown. }
  assert (HhintsA : get_type_hints stA c = get_type_hints st0 c).
  { by apply type_hints_alter. }
  (* after the discriminator name was set *)
  assert (HokB : class_table_ok stB).
  { subst stB. destruct vt; [|done]. apply class_table_ok_alter; [|done].
    by intros d k (? & ? & ?). }
  assert (HlenB : length stB = S c).
  { subst stB. destruct vt; [|done]. by rewrite length_alter. }
  assert (HattrB : ∀ A (own : PyClass → option A),
            (∀ b k, own (set_was_schema_created b k) = own k) →
            (∀ n k, own (set_varname_type n k) = own k) →
            class_attr own stB c = class_attr own st0 c).
  { intros A own Hown1 Hown2. rewrite <- (HattrA A own Hown1). subst stB.
    destruct vt; [|done]. apply class_attr_alter; [done|]. intros k. apply Hown2. }
  assert (HhintsB : get_type_hints stB c = get_type_hints st0 c).
  { rewrite <- HhintsA. subst stB. destruct vt; [|done]. by apply type_hints_alter. }
  assert (HnameB : plugantic_varname_type stB c
                   = match vt with Some n => n | None => plugantic_varname_type st0 c end).
  { unfold plugantic_varname_type. subst stB. destruct vt as [n|].
    - rewrite (class_attr_alter_own (set_varname_type n) ltac:(done) varname_type_own c stA n);
        [done|done|lia|done].
    - by rewrite HattrA. }
  set (nameB := plugantic_varname_type stB c) in *.
  (* after the annotation was created *)
  set (stC := match v with
              | Some x => create_annotation stB c nameB (Literal x []) false false
              | None => stB
              end) in *.
  assert (HC : stC = stB ∨ ∃ a, stC = alter (set_annotation nameB a) c stB).
  { unfold stC. destruct v as [x|]; [|by left].
    destruct (create_annotation_cases stB c nameB (Literal x [])) as [[-> _]| ->]; eauto. }
  assert (HokC : class_table_ok stC).
  { destruct HC as [->|[a ->]]; [done|]. apply class_table_ok_alter; [|done].
    by intros d k (? & ? & ?). }
  assert (HlenC : length stC = S c).
  { destruct HC as [->|[a ->]]; [done|]. by rewrite length_alter. }
  assert (HattrC : ∀ A (own : PyClass → option A),
            (∀ n a k, own (set_annotation n a k) = own k) →
            class_attr own stC c = class_attr own stB c).
  { intros A own Hown. destruct HC as [->|[a ->]]; [done|].
    apply class_attr_alter; [done|]. intros k. apply Hown. }
  assert (HnameC : plugantic_varname_type stC c = nameB).
  { unfold plugantic_varname_type. by rewrite HattrC. }
  assert (HhintsC : get_type_hints stC c !! nameB
                    = match v with
                      | Some x => Some (Literal x [])
                      | None => get_type_hints st0 c !! nameB
                      end).
  { unfold stC. destruct v as [x|]; [|by rewrite HhintsB].
    destruct (create_annotation_cases stB c nameB (Literal x [])) as [[-> Hex]| ->].
    - unfold get_declared_annotation in Hex.
      destruct (get_type_hints stB c !! nameB) as [a|] eqn:Ea; [done|]. exfalso.
      rewrite HhintsB in Ea.
      assert (Hmf : model_fields stB c !! nameB = None).
      { unfold model_fields. rewrite HattrB by done.
        by apply (new_class_model_fields st (new_class s m) (stmt_bases s)). }
      congruence.
    - apply type_hints_alter_set_annotation; [done|lia]. }
  (* after the default was registered and the fields were collected *)
  set (stD := ensure_varname_default stC c) in *.
  assert (HokD : class_table_ok stD) by (by apply class_table_ok_ensure_varname_default).
  assert (HlenD : length stD = S c).
  { unfold stD. by rewrite length_ensure_varname_default. }
  assert (HhintsD : get_type_hints stD c = get_type_hints stC c).
  { apply type_hints_ensure_varname_default. }
  set (st1 := alter (set_pydantic_fields (get_type_hints stD c)) c stD).
  assert (Hattr1 : ∀ A (own : PyClass → option A),
            (∀ b k, own (set_was_schema_created b k) = own k) →
            (∀ n k, own (set_varname_type n k) = own k) →
            (∀ n a k, own (set_annotation n a k) = own k) →
            (∀ n a k, own (set_attr n a k) = own k) →
            (∀ f k, own (set_pydantic_fields f k) = own k) →
            class_attr own st1 c = class_attr own st0 c).
  { intros A own H1 H2 H3 H4 H5. rewrite <- HattrB, <- HattrC by done.
    unfold st1, stD. rewrite class_attr_alter; [|done|intros k; apply H5].
    by apply class_attr_ensure_varname_default. }
  assert (Hname1 : plugantic_varname_type st1 c = nameB).
  { rewrite <- HnameC. unfold plugantic_varname_type, st1, stD.
    rewrite class_attr_alter by done.
    by rewrite class_attr_ensure_varname_default. }
  assert (Hhints1 : get_type_hints st1 c = get_type_hints stC c).
  { rewrite <- HhintsD. by apply type_hints_alter. }
  assert (Hfields1 : model_fields st1 c = get_type_hints stC c).
  { unfold model_fields, st1.
    rewrite (class_attr_alter_own (set_pydantic_fields (get_type_hints stD c)) ltac:(done)
               pydantic_fields_own c stD (get_type_hints stD c)); [|done|lia|done].
    by rewrite HhintsD. }
  assert (Hann1 : get_declared_annotation st1 c nameB = get_type_hints stC c !! nameB).
  { unfold get_declared_annotation. rewrite Hhints1, Hfields1.
    by destruct (get_type_hints stC c !! nameB). }
  assert (Hconfig1 : plugantic_config st1 c = plugantic_config st0 c).
  { unfold plugantic_config. by rewrite Hattr1. }
  exists m, vt, v. split; [done|]. split; [done|]. split; [by rewrite Hconfig1|].
  split; [done|]. rewrite Hname1. split; [exact HnameB|].
  split; [by rewrite Hann1|].
  intros lit Hlit Hne.
  assert (HlitC : get_declared_type stC c = Some lit).
  { unfold get_declared_type in Hlit |- *. rewrite Hname1, Hann1 in Hlit. rewrite HnameC.
    unfold get_declared_annotation.
    by destruct (get_type_hints stC c !! nameB). }
  pose proof (ensure_varname_default_registers stC c lit HokC ltac:(lia) HlitC Hne) as Hreg.
  rewrite HnameC in Hreg. unfold getattr, st1.
  rewrite class_attr_alter; done.
Qed.

(** ** Defaults and instances in reachable class tables *)






(** X13: what a class statement makes of [plugantic_config] and of the
    keywords [varname_type] and [value].  An entry of the configuration
    that the class has or inherits goes before the keyword, unless it is
    [None] or empty.  The name that results is the discriminator name of
    the new class; the value [v] that results gives the class the
    annotation [Literal[v]] for that name, whatever its body and its bases
    annotate, so [v] is its declared type; and when [v] is not empty, the
    class is a valid subclass of every class it descends from. *)
Theorem declare_discriminator (st : state) (s : class_statement) (c : cls) (st1 : state) :
  reachable st → declare st s = Return (c, st1) →
  let cfg := default {| cfg_varname_type := None; cfg_value := None |}
                     (plugantic_config st1 c) in
  (∀ n, py_or (cfg_varname_type cfg) (stmt_varname_type s) = Some n →
     plugantic_varname_type st1 c = n) ∧
  (∀ v, py_or (cfg_value cfg) (stmt_value s) = Some v →
     get_declared_annotation st1 c (plugantic_varname_type st1 c) = Some (Literal v []) ∧
     get_declared_type st1 c = Some v ∧
     (v ≠ "" → ∀ root, descendant st1 c root → c ∈ get_valid_subclasses st1 root)).
Proof.
  intros Hr Hd cfg.
  destruct (declare_new_class _ _ _ _ Hr Hd) as (m & vt & v0 & -> & _ & Heff & _ & Hname & Hann & _).
  assert (Heff' : vt = py_or (cfg_varname_type cfg) (stmt_varname_type s) ∧
                  v0 = py_or (cfg_value cfg) (stmt_value s)).
  { unfold cfg. destruct (plugantic_config st1 (length st)) as [[cvt cv]|]; simpl in *.
    - destruct cvt, cv; simpl in Heff; by injection Heff as -> ->.
    - by injection Heff as -> ->. }
  destruct Heff' as [<- <-]. split.
  - intros n Hn. by rewrite Hname, Hn.
  - intros v Hv. rewrite Hv in Hann. split; [done|].
    assert (Hlit : get_declared_type st1 (length st) = Some v).
    { apply get_declared_type_annotation. eauto. }
    split; [done|]. intros Hne root Hroot.
    assert (Hr1 : reachable st1) by (by eapply reachable_declare).
    apply get_valid_subclasses_spec;
      [by apply class_table_ok_bases_older, reachable_class_table_ok|].
    split; [|done]. apply is_valid_subclass_spec. eauto.
Qed.

(** ** The MRO has no class twice *)

Lemma find_candidate_good (all seqs : list (list cls)) (x : cls) :
  find_candidate all seqs = Some x → good_head all x = true.
Proof.
  induction seqs as [|s seqs IH]; simpl; [done|]. destruct s as [|y s]; [done|].
  destruct (good_head all y) eqn:E; [|done]. by intros [= <-].
Qed.

Lemma good_head_drop_head (seqs : list (list cls)) (h : cls) (s : list cls) :
  good_head seqs h = true → s ∈ seqs → h ∉ drop_head h s.
Proof.
  unfold good_head. rewrite forallb_forall. intros Hgood Hs.
  apply list_elem_of_In, Hgood, bool_decide_eq_true in Hs.
  destruct s as [|y t]; simpl in *; [by intros ?%elem_of_nil|].
  destruct (decide (y = h)) as [->|Hne]; [done|].
  intros [->|?]%elem_of_cons; done.
Qed.

Lemma NoDup_drop_head (h : cls) (s : list cls) : NoDup s → NoDup (drop_head h s).
Proof.
  destruct s as [|y t]; simpl; [done|]. destruct (decide (y = h)); [|done].
  by intros [_ ?]%NoDup_cons.
Qed.

Lemma pmerge_NoDup (fuel : nat) (seqs : list (list cls)) (l : list cls) :
  Forall NoDup seqs → pmerge fuel seqs = Merged l → NoDup l.
Proof.
  revert seqs l. induction fuel as [|fuel IH]; intros seqs l Hnd; simpl.
  - destruct (forallb is_nil seqs); [|done]. intros [= <-]. constructor.
  - destruct (forallb is_nil seqs); [intros [= <-]; constructor|].
    destruct (find_candidate seqs seqs) as [h|] eqn:Eh; [|done].
    destruct (pmerge fuel (map (drop_head h) seqs)) as [l'| |] eqn:El; [|done|done].
    intros [= <-]. apply NoDup_cons. split.
    + rewrite (pmerge_elem_of _ _ _ h El). intros (s' & Hs' & Hh).
      apply list_elem_of_fmap in Hs' as (s & -> & Hs).
      by apply (good_head_drop_head seqs h s (find_candidate_good _ _ _ Eh) Hs).
    + apply (IH (map (drop_head h) seqs)); [|done]. apply Forall_fmap.
      eapply Forall_impl; [done|]. intros s. apply NoDup_drop_head.
Qed.

Lemma compute_mro_NoDup (st : state) (bs m : list cls) :
  mro_ok st → mro_nodup st →
  compute_mro st (length st) bs = Some m → NoDup m.
Proof.
  intros Hok Hnd Em. pose proof (compute_mro_Some _ _ _ _ Em) as (_ & Hbs & _).
  rewrite Forall_forall in Hbs. revert Em. unfold compute_mro.
  destruct (bool_decide (bs = []) || negb (forallb (λ b, bool_decide (b < length st)) bs)
            || negb (bool_decide (NoDup bs))) eqn:E; [done|].
  apply orb_false_iff in E as [_ E]. apply negb_false_iff, bool_decide_eq_true in E.
  destruct (pmerge _ _) as [l| |] eqn:El; [|done|done].
  intros [= <-]. apply NoDup_cons. split.
  - rewrite (pmerge_elem_of _ _ _ (length st) El). intros (s' & Hs' & Hin).
    apply elem_of_app in Hs' as [Hs'|Hs'%list_elem_of_singleton].
    + apply list_elem_of_fmap in Hs' as (b & -> & Hb). pose proof (Hbs _ Hb) as Hblt.
      destruct (Hok b Hblt) as [Hle _]. specialize (Hle _ Hin). lia.
    + subst s'. apply Hbs in Hin. lia.
  - eapply pmerge_NoDup; [|done]. apply Forall_app. split.
    + apply Forall_fmap, Forall_forall. intros b _. apply Hnd.
    + by constructor.
Qed.

Lemma mro_nodup_initial : mro_nodup initial_state.
Proof.
  intros c. destruct c as [|c]; [|constructor]. apply NoDup_singleton.
Qed.

Lemma mro_nodup_same_decls (st st' : state) :
  same_decls st st' → mro_nodup st → mro_nodup st'.
Proof. intros H Hnd c. rewrite <- (same_decls_mro _ _ H). apply Hnd. Qed.

Lemma mro_nodup_declare (st : state) (s : class_statement) (c : cls) (st1 : state) :
  mro_ok st → mro_nodup st → declare st s = Return (c, st1) → mro_nodup st1.
Proof.
  intros Hok Hnd (-> & m & Em & _ & Hext)%declare_Return d.
  destruct (decide (d < length st)) as [Hlt|Hge].
  - rewrite (mro_extends_old _ _ _ _ Hext Hlt). apply Hnd.
  - destruct (decide (d = length st)) as [->|Hne].
    + rewrite (mro_extends_new _ _ _ Hext). cbn. by eapply compute_mro_NoDup.
    + rewrite mro_out_of_range; [constructor|].
      rewrite (extends_by_length _ _ _ Hext). lia.
Qed.

Lemma reachable_mro_nodup (st : state) : reachable st → mro_nodup st.
Proof.
  induction 1 as [|st s c st' Hr IH Hd|iter st e _ IH].
  - apply mro_nodup_initial.
  - eapply mro_nodup_declare; [by apply reachable_mro_ok|done|done].
  - eapply mro_nodup_same_decls; [apply compile_same_decls|done].
Qed.

(** ** Single inheritance *)

Lemma pmerge_single_tail (t : list cls) (fuel : nat) :
  NoDup t → length t ≤ fuel → pmerge fuel [t; []] = Merged t.
Proof.
  revert fuel. induction t as [|x t IH]; intros fuel Hnd Hlen.
  - by destruct fuel.
  - apply NoDup_cons in Hnd as [Hx Hnd].
    destruct fuel as [|fuel]; [simpl in Hlen; lia|].
    cbn [pmerge forallb is_nil andb find_candidate good_head tail].
    rewrite bool_decide_eq_true_2 by done.
    rewrite bool_decide_eq_true_2 by apply not_elem_of_nil.
    cbn [andb map drop_head]. rewrite decide_True by done.
    rewrite IH; [done|done|simpl in Hlen; lia].
Qed.

(** With one base, the MRO of a new class is the class followed by the
    MRO of the base. *)
Lemma compute_mro_single (st : state) (c b : cls) :
  class_table_ok st → mro_nodup st → b < length st →
  compute_mro st c [b] = Some (c :: mro st b).
Proof.
  intros Hcok Hnd Hb. unfold compute_mro.
  rewrite bool_decide_eq_false_2 by done. cbn [forallb orb].
  rewrite (bool_decide_eq_true_2 (b < length st)) by done.
  rewrite (bool_decide_eq_true_2 (NoDup [b])) by apply NoDup_singleton.
  cbn [andb negb orb map app].
  pose proof (Hnd b) as Hndb.
  destruct (class_table_ok_mro st b Hcok Hb) as [t Ht]. rewrite Ht in Hndb |- *.
  apply NoDup_cons in Hndb as [Hbt Hndt].
  cbn [total_length foldr length Nat.add].
  cbn [pmerge forallb is_nil andb find_candidate good_head tail].
  rewrite bool_decide_eq_true_2 by done.
  rewrite bool_decide_eq_true_2 by apply not_elem_of_nil.
  cbn [andb map drop_head]. rewrite !decide_True by done.
  rewrite pmerge_single_tail; [done|done|lia].
Qed.

(** [Puppy(Dog, value="puppy")] in [configured]: the configuration that
    [Puppy] inherits from [Dog] goes before its keyword, so [Puppy]
    declares ["dog"]. *)
Lemma declare_discriminator_witness :
  reachable configured ∧
  declare configured (class_stmt "Puppy" [2] None (Some "puppy"))
    = Return (3, exec configured (class_stmt "Puppy" [2] None (Some "puppy"))) ∧
  get_declared_type (exec configured (class_stmt "Puppy" [2] None (Some "puppy"))) 3
    = Some "dog" ∧
  3 ∈ get_valid_subclasses (exec configured (class_stmt "Puppy" [2] None (Some "puppy"))) 3.
Proof.
  assert (Hr : reachable configured) by apply program_reachable.
  assert (Hd : declare configured (class_stmt "Puppy" [2] None (Some "puppy"))
               = Return (3, exec configured (class_stmt "Puppy" [2] None (Some "puppy"))))
    by (vm_compute; reflexivity).
  destruct (declare_discriminator _ _ _ _ Hr Hd) as [_ Hv].
  assert (Heff : py_or
            (cfg_value
               (default {| cfg_varname_type := None; cfg_value := None |}
                  (plugantic_config
                     (exec configured (class_stmt "Puppy" [2] None (Some "puppy"))) 3)))
            (stmt_value (class_stmt "Puppy" [2] None (Some "puppy"))) = Some "dog")
    by (vm_compute; reflexivity).
  destruct (Hv "dog" Heff) as (_ & Hlit & Hvalid).
  split; [exact Hr|]. split; [exact Hd|]. split; [exact Hlit|].
  apply Hvalid; [discriminate|apply rtc_refl].
Defined.

(** ** A plain subclass *)

Lemma class_attr_new_class {A : Type} (own : PyClass → option A) (st : state) (k0 : PyClass)
    (b : cls) :
  mro_ok st → b < length st → cls_mro k0 = length st :: mro st b →
  class_attr own (st ++ [k0]) (length st)
    = match own k0 with Some y => Some y | None => class_attr own st b end.
Proof.
  intros Hok Hb Hm. unfold class_attr at 1. unfold mro at 1.
  rewrite list_lookup_middle by done. simpl. rewrite Hm. simpl.
  rewrite list_lookup_middle by done. simpl. destruct (own k0); [done|].
  apply first_some_ext_in. intros x Hx. destruct (Hok b Hb) as [Hle _].
  specialize (Hle x Hx). rewrite lookup_app_l; [done|lia].
Qed.

Lemma type_hints_new_class (st : state) (k0 : PyClass) (b : cls) :
  mro_ok st → b < length st → cls_mro k0 = length st :: mro st b →
  get_type_hints (st ++ [k0]) (length st) = cls_annotations k0 ∪ get_type_hints st b.
Proof.
  intros Hok Hb Hm. unfold get_type_hints at 1. unfold mro at 1.
  rewrite list_lookup_middle by done. simpl. rewrite Hm. simpl.
  rewrite list_lookup_middle by done. simpl. f_equal.
  unfold get_type_hints. destruct (Hok b Hb) as [Hle _]. clear Hm. revert Hle.
  induction (mro st b) as [|x l IH]; intros Hle; simpl; [done|].
  rewrite IH by (intros y Hy; apply Hle; by right).
  rewrite lookup_app_l; [done|]. specialize (Hle x ltac:(left)). lia.
Qed.

(** Once pydantic collected the fields of a class, the annotation that
    [_get_declared_annotation] finds is the type hint. *)
Lemma declared_annotation_collected (st : state) (b : cls) (name : string) :
  class_table_ok st → fields_collected st → b < length st →
  get_declared_annotation st b name = get_type_hints st b !! name.
Proof.
  intros Hcok Hf Hb. unfold get_declared_annotation.
  destruct (get_type_hints st b !! name) as [a|] eqn:Ea; [done|].
  unfold model_fields, class_attr. destruct (class_table_ok_mro st b Hcok Hb) as [t ->].
  simpl. apply lookup_lt_is_Some in Hb as [k Hk]. rewrite Hk. simpl.
  by rewrite (Hf b k Hk).
Qed.

(** X14: a plain subclass, declared with a single base and neither
    keywords nor a configuration, and whose body does not annotate the
    discriminator, inherits the discriminator name, its annotation and the
    declared type of its base.  If the base is a valid subclass, so is the
    new class, under the same literal: both are then valid subclasses of
    the base. *)
Theorem plain_subclass_inherits (st : state) (s : class_statement) (c : cls) (st1 : state)
    (b : cls) :
  reachable st → declare st s = Return (c, st1) →
  stmt_bases s = [b] →
  stmt_varname_type s = None → stmt_value s = None →
  stmt_plugantic_config s = None → plugantic_config st b = None →
  stmt_annotations s !! plugantic_varname_type st b = None →
  plugantic_varname_type st1 c = plugantic_varname_type st b ∧
  get_declared_annotation st1 c (plugantic_varname_type st1 c)
    = get_declared_annotation st b (plugantic_varname_type st b) ∧
  get_declared_type st1 c = get_declared_type st b ∧
  (is_valid_subclass st b = true →
     c ≠ b ∧ b ∈ get_valid_subclasses st1 b ∧ c ∈ get_valid_subclasses st1 b).
Proof.
  intros Hr Hd Hbases Hvt Hv Hcfg Hcfgb Hbody.
  pose proof (reachable_class_table_ok _ Hr) as Hcok.
  pose proof (reachable_mro_ok _ Hr) as Hok.
  pose proof (reachable_mro_nodup _ Hr) as Hnd.
  pose proof (reachable_fields_collected _ Hr) as Hf.
  destruct (declare_new_class _ _ _ _ Hr Hd)
    as (m & vt & v & -> & Em & Heff & Hconfig & Hname & Hann & _).
  pose proof (compute_mro_Some _ _ _ _ Em) as (_ & Hbs & _).
  rewrite Hbases in Em, Hbs. rewrite Forall_singleton in Hbs.
  rewrite (compute_mro_single st (length st) b Hcok Hnd Hbs) in Em. injection Em as <-.
  set (k0 := new_class s (length st :: mro st b)) in *.
  assert (Hm : cls_mro k0 = length st :: mro st b) by done.
  assert (Hc : plugantic_config st1 (length st) = None).
  { rewrite Hconfig. unfold plugantic_config.
    rewrite (class_attr_new_class _ st k0 b Hok Hbs Hm). simpl. by rewrite Hcfg. }
  rewrite Hc, Hvt, Hv in Heff. injection Heff as -> ->.
  assert (Hname' : plugantic_varname_type st1 (length st) = plugantic_varname_type st b).
  { rewrite Hname. unfold plugantic_varname_type.
    by rewrite (class_attr_new_class _ st k0 b Hok Hbs Hm). }
  assert (Hann' : get_declared_annotation st1 (length st) (plugantic_varname_type st1 (length st))
                  = get_declared_annotation st b (plugantic_varname_type st b)).
  { rewrite Hann, Hname', (type_hints_new_class st k0 b Hok Hbs Hm).
    rewrite (declared_annotation_collected st b _ Hcok Hf Hbs).
    by apply lookup_union_r. }
  assert (Hlit : get_declared_type st1 (length st) = get_declared_type st b).
  { unfold get_declared_type. by rewrite Hann'. }
  split; [done|]. split; [done|]. split; [done|].
  intros Hvalid. split; [lia|].
  pose proof (declare_Return _ _ _ _ Hd) as (_ & m' & _ & _ & Hext).
  assert (Hcok1 : class_table_ok st1) by (by eapply declare_class_table_ok).
  pose proof (class_table_ok_bases_older _ Hcok1) as Holder1.
  rewrite !get_valid_subclasses_spec by done.
  assert (Hvalidb : is_valid_subclass st1 b = true).
  { by rewrite (is_valid_subclass_extends_old _ _ _ Hok Hext b Hbs). }
  split; [split; [done|apply rtc_refl]|]. split.
  - unfold is_valid_subclass in Hvalid |- *. by rewrite Hlit.
  - apply rtc_once. unfold direct_base. rewrite (bases_extends_new _ _ _ Hext). simpl.
    rewrite Hbases. left.
Qed.

(** [Pug(Dog)] in [kennel] inherits ["dog"] from [Dog]. *)
Lemma plain_subclass_inherits_witness :
  reachable kennel ∧
  declare kennel (class_stmt "Pug" [2] None None)
    = Return (4, exec kennel (class_stmt "Pug" [2] None None)) ∧
  plugantic_config kennel 2 = None ∧
  is_valid_subclass kennel 2 = true ∧
  get_declared_type (exec kennel (class_stmt "Pug" [2] None None)) 4
    = get_declared_type kennel 2 ∧
  2 ∈ get_valid_subclasses (exec kennel (class_stmt "Pug" [2] None None)) 2 ∧
  4 ∈ get_valid_subclasses (exec kennel (class_stmt "Pug" [2] None None)) 2.
Proof.
  assert (Hr : reachable kennel) by apply program_reachable.
  assert (Hd : declare kennel (class_stmt "Pug" [2] None None)
               = Return (4, exec kennel (class_stmt "Pug" [2] None None)))
    by (vm_compute; reflexivity).
  assert (Hcfg : plugantic_config kennel 2 = None) by (vm_compute; reflexivity).
  assert (Hvalid : is_valid_subclass kennel 2 = true) by (vm_compute; reflexivity).
  assert (Hbody : stmt_annotations (class_stmt "Pug" [2] None None)
                    !! plugantic_varname_type kennel 2 = None) by apply lookup_empty.
  destruct (plain_subclass_inherits kennel _ 4 _ 2 Hr Hd eq_refl eq_refl eq_refl eq_refl
              Hcfg Hbody) as (_ & _ & Hlit & Hin).
  destruct (Hin Hvalid) as (_ & Hb & Hc).
  split; [exact Hr|]. split; [exact Hd|]. split; [exact Hcfg|]. split; [exact Hvalid|].
  split; [exact Hlit|]. split; [exact Hb|exact Hc].
Defined.

(** ** When a class statement is refused *)

(** X15: the outcome of a class statement.  It raises [TypeError] when
    Python finds no MRO for the bases.  Otherwise it raises the
    [ValueError] of [__init_subclass__] when
    [__plugantic_check_schema_usage__] is true for the new class and some
    class of its MRO carries the mark of a compilation in its own
    [__dict__], and it succeeds in every other case: the mark of a class is
    never inherited, because [__init_subclass__] gives every class a flag
    of its own. *)
Theorem declare_outcome (st : state) (s : class_statement) :
  class_table_ok st →
  (compute_mro st (length st) (stmt_bases s) = None →
   declare st s = Raise (TypeError "Cannot create a consistent method resolution order")) ∧
  (∀ m, compute_mro st (length st) (stmt_bases s) = Some m →
     (plugantic_check_schema_usage (st ++ [new_class s m]) (length st) = true ∧
      (∃ d k, d ∈ m ∧ st !! d = Some k ∧ was_schema_created_own k = Some true) →
      declare st s = Raise (ValueError "Schema has already been created")) ∧
     (¬ (plugantic_check_schema_usage (st ++ [new_class s m]) (length st) = true ∧
         ∃ d k, d ∈ m ∧ st !! d = Some k ∧ was_schema_created_own k = Some true) →
      ∃ st1, declare st s = Return (length st, st1))).
Proof.
  intros Hok. split.
  - intros Em. unfold declare. by rewrite Em.
  - intros m Em. split.
    + intros (Hcheck & d & k & Hd & Hk & Hmarked). apply (declare_raises st s m Em).
      by apply (check_new_class_marked st s m d k).
    + intros Hnot. apply (declare_succeeds st s m Em).
      destruct (plugantic_check_schema_usage (st ++ [new_class s m]) (length st)) eqn:Hcheck.
      * apply check_new_class_unmarked; [done|]. intros d k Hd Hk Hmarked.
        apply Hnot. split; [done|]. eauto.
      * unfold check_plugantic_schema_usage. by rewrite Hcheck.
Qed.

(** After the schema of [Animal] was compiled in [zoo], [class
    Fish(Animal, value="fish")] is refused: [Animal] is in its MRO and
    marked. *)
Lemma declare_outcome_witness :
  class_table_ok (get_pydantic_core_schema sorted_iteration zoo (Plugin 1)).2 ∧
  declare (get_pydantic_core_schema sorted_iteration zoo (Plugin 1)).2
          (class_stmt "Fish" [1] None (Some "fish"))
    = Raise (ValueError "Schema has already been created").
Proof.
  assert (Hok : class_table_ok (get_pydantic_core_schema sorted_iteration zoo (Plugin 1)).2)
    by (apply reachable_class_table_ok, reachable_compile, program_reachable).
  assert (Em : compute_mro (get_pydantic_core_schema sorted_iteration zoo (Plugin 1)).2
                 (length (get_pydantic_core_schema sorted_iteration zoo (Plugin 1)).2)
                 (stmt_bases (class_stmt "Fish" [1] None (Some "fish"))) = Some [5; 1; 0])
    by (vm_compute; reflexivity).
  split; [exact Hok|].
  destruct (declare_outcome _ (class_stmt "Fish" [1] None (Some "fish")) Hok) as [_ Hsome].
  destruct (Hsome _ Em) as [Hrefused _]. apply Hrefused. split; [vm_compute; reflexivity|].
  eexists 1, _. split; [right; left|]. split; vm_compute; reflexivity.
Defined.

(** ** Creating an annotation *)




(** ** A discriminator annotated in the class body *)

(** X17: the documented way to declare a variant.  When neither the
    configuration nor the keyword gives a value, and the body of the class
    statement annotates the discriminator name of the new class, that
    annotation is the declared one, whatever the bases annotate; if it is a
    [Literal] whose first value is not empty, this value is the declared
    type of the class and is registered as the default of the field, as if
    the body had said [type: Literal["something"] = "something"]. *)
Theorem declare_body_annotation (st : state) (s : class_statement) (c : cls) (st1 : state)
    (a : annotation) :
  reachable st → declare st s = Return (c, st1) →
  py_or (cfg_value (default {| cfg_varname_type := None; cfg_value := None |}
                            (plugantic_config st1 c)))
        (stmt_value s) = None →
  stmt_annotations s !! plugantic_varname_type st1 c = Some a →
  get_declared_annotation st1 c (plugantic_varname_type st1 c) = Some a ∧
  (∀ lit rest, a = Literal lit rest → lit ≠ "" →
     get_declared_type st1 c = Some lit ∧
     is_valid_subclass st1 c = true ∧
     getattr st1 c (plugantic_varname_type st1 c) ≫= attr_default = Some (VStr lit)).
Proof.
  intros Hr Hd Hnone Hbody.
  destruct (declare_new_class _ _ _ _ Hr Hd)
    as (m & vt & v & -> & Em & Heff & _ & _ & Hann & Hreg).
  assert (Hv : v = None).
  { rewrite <- Hnone.
    destruct (plugantic_config st1 (length st)) as [[cvt cv]|]; simpl in *.
    - destruct cvt, cv; simpl in Heff; by injection Heff as _ ->.
    - by injection Heff as _ ->. }
  subst v.
  assert (Hdecl : get_declared_annotation st1 (length st)
                    (plugantic_varname_type st1 (length st)) = Some a).
  { rewrite Hann. unfold get_type_hints, mro. rewrite list_lookup_middle by done. simpl.
    apply compute_mro_Some in Em as (Hhead & _).
    destruct m as [|c' l]; [done|]. injection Hhead as ->. simpl.
    rewrite list_lookup_middle by done. simpl. by apply lookup_union_Some_l. }
  split; [done|]. intros lit rest -> Hne.
  assert (Hlit : get_declared_type st1 (length st) = Some lit).
  { apply get_declared_type_annotation. eauto. }
  split; [done|]. split; [apply is_valid_subclass_spec; eauto|]. by apply Hreg.
Qed.

(** [class Shape(PluginModel)] with [type: Literal["circle"]] in its body:
    the class table is [annotated "circle" []]. *)
Lemma declare_body_annotation_witness :
  reachable initial_state ∧
  declare initial_state
    {| stmt_name := "Shape"; stmt_bases := [PluginModel];
       stmt_varname_type := None; stmt_value := None;
       stmt_annotations := {[ "type" := Literal "circle" [] ]};
       stmt_attrs := {[ "type" := AttrFieldInfo {[ "description" := VStr "the kind of shape" ]} ]};
       stmt_plugantic_config := None; stmt_check_schema_usage := None |}
    = Return (1, annotated "circle" []) ∧
  get_declared_type (annotated "circle" []) 1 = Some "circle" ∧
  getattr (annotated "circle" []) 1 (plugantic_varname_type (annotated "circle" []) 1)
    ≫= attr_default = Some (VStr "circle").
Proof.
  assert (Hr : reachable initial_state) by constructor.
  assert (Hd : declare initial_state
    {| stmt_name := "Shape"; stmt_bases := [PluginModel];
       stmt_varname_type := None; stmt_value := None;
       stmt_annotations := {[ "type" := Literal "circle" [] ]};
       stmt_attrs := {[ "type" := AttrFieldInfo {[ "description" := VStr "the kind of shape" ]} ]};
       stmt_plugantic_config := None; stmt_check_schema_usage := None |}
    = Return (1, annotated "circle" [])) by (vm_compute; reflexivity).
  assert (Hnone : py_or (cfg_value (default {| cfg_varname_type := None; cfg_value := None |}
                                            (plugantic_config (annotated "circle" []) 1)))
                        None = None) by (vm_compute; reflexivity).
  assert (Hbody : ({[ "type" := Literal "circle" [] ]} : gmap string annotation)
                    !! plugantic_varname_type (annotated "circle" []) 1
                  = Some (Literal "circle" [])) by (vm_compute; reflexivity).
  split; [exact Hr|]. split; [exact Hd|].
  pose proof (declare_body_annotation initial_state _ 1 _ (Literal "circle" []) Hr Hd Hnone Hbody)
    as [_ Hlit].
  destruct (Hlit "circle" [] eq_refl ltac:(discriminate)) as (H1 & _ & H2).
  split; [exact H1|exact H2].
Defined.
